(** * i18n-maestro: the storage adapters' cache and the HTTP adapter's retrying transport

    A shallow embedding of
    - [SimpleCache]          (src/utils/cache.ts),
    - [BaseStorageAdapter]   (src/storage/storage-adapter.ts),
    - [HttpAdapter]          (src/storage/http-adapter.ts),
    with the JavaScript object heap made explicit, so that aliasing between
    a cached payload and the payloads handed to callers can be stated. *)

From stdpp Require Import gmap strings list pretty.
From Stdlib Require Import ZArith Ascii.

Open Scope Z_scope.

#[local] Set Warnings "-register-all".

(** ** JSON documents and the JavaScript heap *)

(** A JSON document, the value [JSON.stringify] writes and [JSON.parse]
    reads.  The text itself is not modelled: a document stands for its text.
    The properties of an object are listed once each, in the order in which
    JavaScript enumerates them.  Numbers are integers here; the adapters
    only ever copy them. *)
Inductive json : Type :=
  | JNull
  | JBool (b : bool)
  | JNum (n : Z)
  | JStr (s : string)
  | JArray (items : list json)
  | JObject (props : list (string * json)).

(** A JavaScript value: a primitive or a reference to a heap cell. *)
Inductive jval : Type :=
  | VNull
  | VBool (b : bool)
  | VNum (n : Z)
  | VStr (s : string)
  | VRef (l : nat).

(** A heap cell: an object with its own properties in insertion order, or
    an array. *)
Inductive hobj : Type :=
  | HObject (props : list (string * jval))
  | HArray (items : list jval).

(** The heap is the list of all cells ever allocated; a reference is an
    index.  Allocation appends, assignment to a property replaces a cell. *)
Abbreviation heap := (list hobj).

Definition alloc (o : hobj) (h : heap) : heap * jval :=
  (h ++ [o], VRef (length h)).

(** JavaScript truthiness, as used by [if (this.cache[cacheKey])]. *)
Definition truthy (v : jval) : bool :=
  match v with
  | VNull => false
  | VBool b => b
  | VNum n => negb (n =? 0)
  | VStr s => negb (String.eqb s "")
  | VRef _ => true
  end.

Section Traverse.
Context {A B : Type} (f : A → option B).

Fixpoint traverse (l : list A) : option (list B) :=
  match l with
  | [] => Some []
  | x :: l' =>
      match f x with
      | Some y =>
          match traverse l' with
          | Some ys => Some (y :: ys)
          | None => None
          end
      | None => None
      end
  end.
End Traverse.

(** [JSON.stringify] on a heap value.  Every dereference spends one unit
    of fuel; [None] is the [TypeError] thrown on a cyclic structure (or a
    dangling reference, which JavaScript cannot build). *)
Fixpoint stringify_fuel (fuel : nat) (h : heap) (v : jval) : option json :=
  match v with
  | VNull => Some JNull
  | VBool b => Some (JBool b)
  | VNum n => Some (JNum n)
  | VStr s => Some (JStr s)
  | VRef l =>
      match fuel with
      | O => None
      | S fuel' =>
          match h !! l with
          | Some (HObject ps) =>
              match traverse (λ kv, match stringify_fuel fuel' h (snd kv) with
                                    | Some t => Some (fst kv, t)
                                    | None => None
                                    end) ps with
              | Some fs => Some (JObject fs)
              | None => None
              end
          | Some (HArray vs) =>
              match traverse (stringify_fuel fuel' h) vs with
              | Some ts => Some (JArray ts)
              | None => None
              end
          | None => None
          end
      end
  end.

(** A path without a repeated cell visits at most [length h] cells, so this
    much fuel separates the acyclic structures from the cyclic ones: see
    [stringify_fuel_enough] below. *)
Definition stringify (h : heap) (v : jval) : option json :=
  stringify_fuel (length h) h v.

(** [JSON.parse]: builds the value of a document out of fresh cells,
    children first. *)
Fixpoint parse (t : json) (h : heap) : heap * jval :=
  match t with
  | JNull => (h, VNull)
  | JBool b => (h, VBool b)
  | JNum n => (h, VNum n)
  | JStr s => (h, VStr s)
  | JArray ts =>
      let fix parse_items (ts : list json) (h : heap) : heap * list jval :=
        match ts with
        | [] => (h, [])
        | t :: ts' =>
            let '(h1, v) := parse t h in
            let '(h2, vs) := parse_items ts' h1 in
            (h2, v :: vs)
        end in
      let '(h1, vs) := parse_items ts h in
      alloc (HArray vs) h1
  | JObject fs =>
      let fix parse_props (fs : list (string * json)) (h : heap)
          : heap * list (string * jval) :=
        match fs with
        | [] => (h, [])
        | (k, t) :: fs' =>
            let '(h1, v) := parse t h in
            let '(h2, ps) := parse_props fs' h1 in
            (h2, (k, v) :: ps)
        end in
      let '(h1, ps) := parse_props fs h in
      alloc (HObject ps) h1
  end.

(** The two local loops of [parse], as top-level functions. *)
Fixpoint parse_items (ts : list json) (h : heap) : heap * list jval :=
  match ts with
  | [] => (h, [])
  | t :: ts' =>
      let '(h1, v) := parse t h in
      let '(h2, vs) := parse_items ts' h1 in
      (h2, v :: vs)
  end.

Fixpoint parse_props (fs : list (string * json)) (h : heap)
    : heap * list (string * jval) :=
  match fs with
  | [] => (h, [])
  | (k, t) :: fs' =>
      let '(h1, v) := parse t h in
      let '(h2, ps) := parse_props fs' h1 in
      (h2, (k, v) :: ps)
  end.

(** The cells reachable from a value. *)
Inductive reach (h : heap) : jval → nat → Prop :=
  | reach_here l : reach h (VRef l) l
  | reach_prop l ps k v l' :
      h !! l = Some (HObject ps) → (k, v) ∈ ps → reach h v l' →
      reach h (VRef l) l'
  | reach_item l vs v l' :
      h !! l = Some (HArray vs) → v ∈ vs → reach h v l' →
      reach h (VRef l) l'.

(** [JSON.parse(JSON.stringify(v))], the copy both adapters' boundaries
    make; [None] when [JSON.stringify] throws. *)
Definition deep_copy (v : jval) (h : heap) : option (heap * jval) :=
  match stringify h v with
  | Some t => Some (parse t h)
  | None => None
  end.


(** ** SimpleCache (src/utils/cache.ts) *)

(** [Date.now()] is an argument of every operation that reads the clock. *)
Module SimpleCache.
Section Defs.
Context {K : Type} `{Countable K} {V : Type}.

(** An entry of the internal [Map]: [{ value, expiry? }]. *)
Record item : Type := Item { value : V; expiry : option Z }.

Record t : Type := Cache { cache : gmap K item; defaultMaxAge : Z }.

(** [new SimpleCache(defaultMaxAge = 0)]. *)
Definition new (defaultMaxAge : option Z) : t :=
  {| cache := ∅; defaultMaxAge := default 0 defaultMaxAge |}.

Definition set (now : Z) (key : K) (value : V) (maxAge : option Z) (c : t) : t :=
  let expiryMs :=
    match maxAge with Some m => m | None => defaultMaxAge c end in
  let expiry := if 0 <? expiryMs then Some (now + expiryMs) else None in
  {| cache := <[key := Item value expiry]> (cache c);
     defaultMaxAge := defaultMaxAge c |}.

(** Whether [item.expiry !== undefined && item.expiry < Date.now()]. *)
Definition expired (now : Z) (i : item) : bool :=
  match expiry i with
  | Some e => e <? now
  | None => false
  end.

Definition get (now : Z) (key : K) (c : t) : option V * t :=
  match cache c !! key with
  | None => (None, c)
  | Some i =>
      if expired now i
      then (None, {| cache := delete key (cache c);
                     defaultMaxAge := defaultMaxAge c |})
      else (Some (value i), c)
  end.

Definition has (now : Z) (key : K) (c : t) : bool * t :=
  match cache c !! key with
  | None => (false, c)
  | Some i =>
      if expired now i
      then (false, {| cache := delete key (cache c);
                      defaultMaxAge := defaultMaxAge c |})
      else (true, c)
  end.

Definition delete (key : K) (c : t) : bool * t :=
  (bool_decide (is_Some (cache c !! key)),
   {| cache := base.delete key (cache c); defaultMaxAge := defaultMaxAge c |}).

Definition clear (c : t) : t :=
  {| cache := ∅; defaultMaxAge := defaultMaxAge c |}.
End Defs.

Arguments item : clear implicits.
Arguments t K {_ _} V.
End SimpleCache.

(** ** Errors of the HTTP adapter (src/storage/http-adapter.ts) *)

Inductive HttpErrorType : Type :=
  | NETWORK
  | TIMEOUT
  | AUTH
  | NOT_FOUND
  | SERVER
  | PARSE
  | UNKNOWN.

(** The string each member of the enum stands for. *)
Definition HttpErrorType_value (t : HttpErrorType) : string :=
  match t with
  | NETWORK => "network"
  | TIMEOUT => "timeout"
  | AUTH => "authentication"
  | NOT_FOUND => "not_found"
  | SERVER => "server"
  | PARSE => "parse"
  | UNKNOWN => "unknown"
  end.

(** The exception objects of the runtime that the adapter meets. *)
Inductive JsError : Type :=
  | DOMException (name message : string)
  | TypeError (message : string)
  | SyntaxError (message : string)
  | Error (name message : string).

Definition error_message (e : JsError) : string :=
  match e with
  | DOMException _ m | TypeError m | SyntaxError m | Error _ m => m
  end.

Module HttpAdapterError.
Record t : Type := Build {
  type : HttpErrorType;
  message : string;
  url : string;
  status : option Z;
  retryable : bool;
  originalError : option JsError
}.
End HttpAdapterError.

(** What a [throw] or a rejected promise carries. *)
Inductive thrown : Type :=
  | Raw (e : JsError)
  | Structured (e : HttpAdapterError.t).

(** The outcome of an [async] call: rejected or fulfilled. *)
Abbreviation outcome A := (thrown + A)%type.

Module Response.
(** [body] is the decoded JSON body; [None] when [response.json()]
    rejects. *)
Record t : Type := Build {
  status : Z;
  statusText : string;
  body : option json
}.

(** [response.ok]: the status is in the range 200-299. *)
Definition ok (r : t) : bool := (200 <=? status r) && (status r <=? 299).
End Response.

Module RequestInit.
Record t : Type := Build {
  method : string;
  headers : option (list (string * string));
  body : option json
}.
End RequestInit.

(** [a || b] on strings: the empty string is falsy. *)
Definition or_string (a : option string) (b : string) : string :=
  match a with
  | Some s => if String.eqb s "" then b else s
  | None => b
  end.

(** [a || b] on numbers: [undefined] and [0] are falsy. *)
Definition or_number (a : option Z) (b : Z) : Z :=
  match a with
  | Some n => if n =? 0 then b else n
  | None => b
  end.

Definition lower (c : Ascii.ascii) : Ascii.ascii :=
  let n := Ascii.nat_of_ascii c in
  if ((65 <=? n) && (n <=? 90))%nat then Ascii.ascii_of_nat (n + 32) else c.

Fixpoint lowercase (s : string) : string :=
  match s with
  | EmptyString => EmptyString
  | String c s' => String (lower c) (lowercase s')
  end.

Fixpoint contains (sub s : string) : bool :=
  String.prefix sub s ||
  match s with
  | EmptyString => false
  | String _ s' => contains sub s'
  end.

(** [/fetch|network/i.test(message)]. *)
Definition mentions_fetch_or_network (message : string) : bool :=
  contains "fetch" (lowercase message) || contains "network" (lowercase message).

(** [error instanceof DOMException && error.name === 'AbortError']. *)
Definition isTimeoutError (error : JsError) : bool :=
  match error with
  | DOMException name _ => String.eqb name "AbortError"
  | _ => false
  end.

(** [error instanceof TypeError && /fetch|network/i.test(error.message)]. *)
Definition isNetworkError (error : JsError) : bool :=
  match error with
  | TypeError message => mentions_fetch_or_network message
  | _ => false
  end.

Definition isRetryableStatusCode (statusCode : Z) : bool :=
  (500 <=? statusCode) || (statusCode =? 429).

Definition createHttpError (statusCode : Z) (message url : string)
    : HttpAdapterError.t :=
  let '(type, retryable) :=
    if statusCode =? 404 then (NOT_FOUND, false)
    else if (statusCode =? 401) || (statusCode =? 403) then (AUTH, false)
    else if 500 <=? statusCode then (SERVER, true)
    else (UNKNOWN, false) in
  {| HttpAdapterError.type := type;
     HttpAdapterError.message := message;
     HttpAdapterError.url := url;
     HttpAdapterError.status := Some statusCode;
     HttpAdapterError.retryable := retryable;
     HttpAdapterError.originalError := None |}.

Definition createError (error : JsError) (url : string) (type : HttpErrorType)
    (customMessage : option string) : HttpAdapterError.t :=
  let message := or_string customMessage (or_string (Some (error_message error)) "未知错误") in
  let '(retryable, message) :=
    match type with
    | TIMEOUT => (true, message)
    | NETWORK => (true, or_string customMessage "网络连接失败")
    | PARSE => (false, or_string customMessage "解析响应数据失败")
    | _ => (false, message)
    end in
  {| HttpAdapterError.type := type;
     HttpAdapterError.message := message;
     HttpAdapterError.url := url;
     HttpAdapterError.status := None;
     HttpAdapterError.retryable := retryable;
     HttpAdapterError.originalError := Some error |}.

(** ** The network and the adapter's options *)

Inductive fetch_result : Type :=
  | Resolved (response : Response.t)
  | Rejected (error : JsError).

(** What the adapter does to the outside world, in order: a call of
    [fetch] with its deadline, and a [setTimeout] wait between attempts. *)
Inductive event : Type :=
  | EvFetch (url : string) (init : RequestInit.t) (timeout : option Z)
  | EvSleep (ms : Z).

(** The world the requests go to: the result of a [fetch] given everything
    the adapter did before.  An attempt cut off by its deadline is
    [Rejected (DOMException "AbortError" _)]. *)
Abbreviation network := (list event → string → RequestInit.t → fetch_result).

Definition is_fetch (e : event) : bool :=
  match e with EvFetch _ _ _ => true | EvSleep _ => false end.

(** The number of network calls and the waits of a trace. *)
Definition attempts (tr : list event) : nat := length (filter is_fetch tr).

Definition waits (tr : list event) : list Z :=
  omap (λ e, match e with EvSleep ms => Some ms | _ => None end) tr.

Module Options.
(** [HttpAdapterOptions] once the constructor has merged the defaults.  A
    custom parser or error handler is given by what its promise settles
    to: a rejection, or the document of the payload it resolves to. *)
Record t : Type := Build {
  cacheEnabled : bool;
  baseUrl : string;
  resourcePathTemplate : string;
  languagesUrl : string;
  namespacesUrl : string;
  getMethod : string;
  saveMethod : string;
  headers : option (list (string * string));
  timeout : option Z;
  allowSaving : bool;
  getResourceUrl : option (string → string → string → string);
  parseResponse : option (Response.t → outcome json);
  handleError : option (thrown → string → string → outcome json);
  maxRetries : option Z;
  retryDelay : option Z;
  useExponentialBackoff : bool;
  autoHandleStatusErrors : bool
}.

(** The defaults of the two constructors. *)
Definition defaults (baseUrl : string) : t :=
  {| cacheEnabled := true;
     baseUrl := baseUrl;
     resourcePathTemplate := "resources/{{lang}}/{{ns}}";
     languagesUrl := "languages";
     namespacesUrl := "namespaces";
     getMethod := "GET";
     saveMethod := "PUT";
     headers := None;
     timeout := Some 5000;
     allowSaving := false;
     getResourceUrl := None;
     parseResponse := None;
     handleError := None;
     maxRetries := Some 3;
     retryDelay := Some 300;
     useExponentialBackoff := true;
     autoHandleStatusErrors := true |}.
End Options.

(** [s.endsWith('/')]. *)
Fixpoint ends_with_slash (s : string) : bool :=
  match s with
  | EmptyString => false
  | String c EmptyString => Ascii.eqb c "/"%char
  | String _ s' => ends_with_slash s'
  end.

(** The constructor's two checks on [baseUrl]. *)
Definition HttpAdapter_new (o : Options.t) : outcome Options.t :=
  if String.eqb (Options.baseUrl o) ""
  then inl (Raw (Error "Error" "baseUrl选项是必需的"))
  else if ends_with_slash (Options.baseUrl o) then inr o
  else inr {| Options.cacheEnabled := Options.cacheEnabled o;
              Options.baseUrl := Options.baseUrl o +:+ "/";
              Options.resourcePathTemplate := Options.resourcePathTemplate o;
              Options.languagesUrl := Options.languagesUrl o;
              Options.namespacesUrl := Options.namespacesUrl o;
              Options.getMethod := Options.getMethod o;
              Options.saveMethod := Options.saveMethod o;
              Options.headers := Options.headers o;
              Options.timeout := Options.timeout o;
              Options.allowSaving := Options.allowSaving o;
              Options.getResourceUrl := Options.getResourceUrl o;
              Options.parseResponse := Options.parseResponse o;
              Options.handleError := Options.handleError o;
              Options.maxRetries := Options.maxRetries o;
              Options.retryDelay := Options.retryDelay o;
              Options.useExponentialBackoff := Options.useExponentialBackoff o;
              Options.autoHandleStatusErrors := Options.autoHandleStatusErrors o |}.

(** ** URLs *)

Definition hex_digit (n : nat) : Ascii.ascii :=
  match String.get n "0123456789ABCDEF" with
  | Some c => c
  | None => "0"%char
  end.

(** The characters [encodeURIComponent] leaves alone. *)
Definition uri_unreserved (c : Ascii.ascii) : bool :=
  let n := Ascii.nat_of_ascii c in
  (((65 <=? n) && (n <=? 90)) || ((97 <=? n) && (n <=? 122)) ||
   ((48 <=? n) && (n <=? 57)))%nat ||
  contains (String c EmptyString) "-_.!~*'()".

(** [encodeURIComponent] on a string given by its UTF-8 bytes. *)
Fixpoint encodeURIComponent (s : string) : string :=
  match s with
  | EmptyString => EmptyString
  | String c s' =>
      if uri_unreserved c then String c (encodeURIComponent s')
      else
        let n := Ascii.nat_of_ascii c in
        String "%"%char (String (hex_digit (n / 16)) (String (hex_digit (n mod 16))
          (encodeURIComponent s')))
  end.

(** [s.replace(/pat/g, rep)] for a literal pattern and a replacement
    without [$] (the output of [encodeURIComponent] has none); [skip] counts
    the characters of a match still to be dropped. *)
Fixpoint replace_from (pat rep : string) (skip : nat) (s : string) : string :=
  match s with
  | EmptyString => EmptyString
  | String c s' =>
      match skip with
      | S k => replace_from pat rep k s'
      | O =>
          if String.prefix pat s
          then rep +:+ replace_from pat rep (String.length pat - 1) s'
          else String c (replace_from pat rep 0 s')
      end
  end.

Definition replace_all (pat rep s : string) : string := replace_from pat rep 0 s.

(** [{ ...base, ...extra }] on objects given as association lists. *)
Fixpoint assign (k v : string) (l : list (string * string)) : list (string * string) :=
  match l with
  | [] => [(k, v)]
  | (k', v') :: l' =>
      if String.eqb k k' then (k, v) :: l' else (k', v') :: assign k v l'
  end.

Definition spread (base : list (string * string))
    (extra : option (list (string * string))) : list (string * string) :=
  foldl (λ acc kv, assign (fst kv) (snd kv) acc) base (default [] extra).

(** The first property of an object document with the given key. *)
Fixpoint property (k : string) (fs : list (string * json)) : option json :=
  match fs with
  | [] => None
  | (k', t) :: fs' => if String.eqb k k' then Some t else property k fs'
  end.

(** ** The adapter's state *)

(** The object heap, the base adapter's [cache] (cache key to cached
    payload) and the record of what went over the network. *)
Record state : Type := State {
  heap_of : heap;
  cache : gmap string jval;
  trace : list event
}.

Definition initial : state := {| heap_of := []; cache := ∅; trace := [] |}.

Definition with_heap (h : heap) (s : state) : state :=
  {| heap_of := h; cache := cache s; trace := trace s |}.

Definition with_cache (c : gmap string jval) (s : state) : state :=
  {| heap_of := heap_of s; cache := c; trace := trace s |}.

Definition with_trace (tr : list event) (s : state) : state :=
  {| heap_of := heap_of s; cache := cache s; trace := tr |}.

(** [JSON.stringify] throwing on a cyclic structure. *)
Definition cyclic_error : thrown :=
  Raw (TypeError "Converting circular structure to JSON").

(** The literal [{}]. *)
Definition empty_object (s : state) : jval * state :=
  let '(h, v) := alloc (HObject []) (heap_of s) in (v, with_heap h s).

(** A document arriving from outside, turned into a value. *)
Definition materialize (t : json) (s : state) : jval * state :=
  let '(h, v) := parse t (heap_of s) in (v, with_heap h s).

(** ** BaseStorageAdapter (src/storage/storage-adapter.ts) *)

(** The cache is a plain object used as a map.  Every cache key contains a
    dot, which no property of [Object.prototype] does, so a lookup never
    finds an inherited property: a finite map from keys is exact. *)
Definition getCacheKey (lang namespace : string) : string :=
  lang +:+ "." +:+ namespace.

(** An optional string argument tested by [if (arg)]: the empty string
    counts as absent. *)
Definition given (arg : option string) : option string :=
  match arg with
  | Some s => if String.eqb s "" then None else Some s
  | None => None
  end.

Section BaseStorageAdapter.
Variable cacheEnabled : bool.

(** The two abstract methods, implemented by the subclass. *)
Variable loadResource : string → string → state → outcome jval * state.
Variable persistResource : string → string → jval → state → outcome unit * state.

(** [this.cacheEnabled && this.cache[cacheKey]], when truthy. *)
Definition cached (cacheKey : string) (s : state) : option jval :=
  if cacheEnabled then
    match cache s !! cacheKey with
    | Some v => if truthy v then Some v else None
    | None => None
    end
  else None.

(** The [try] block of [getResource]. *)
Definition getResource_try (lang namespace : string) (s : state)
    : outcome jval * state :=
  let cacheKey := getCacheKey lang namespace in
  match loadResource lang namespace s with
  | (inl error, s1) => (inl error, s1)
  | (inr resources, s1) =>
      let stored :=
        if cacheEnabled then
          match deep_copy resources (heap_of s1) with
          | Some (h, copy) =>
              inr (with_cache (<[cacheKey := copy]> (cache s1)) (with_heap h s1))
          | None => inl cyclic_error
          end
        else inr s1 in
      match stored with
      | inl error => (inl error, s1)
      | inr s2 =>
          match deep_copy resources (heap_of s2) with
          | Some (h, copy) => (inr copy, with_heap h s2)
          | None => (inl cyclic_error, s2)
          end
      end
  end.

Definition getResource (lang namespace : string) (s : state)
    : outcome jval * state :=
  let cacheKey := getCacheKey lang namespace in
  match cached cacheKey s with
  | Some v =>
      match deep_copy v (heap_of s) with
      | Some (h, copy) => (inr copy, with_heap h s)
      | None => (inl cyclic_error, s)
      end
  | None =>
      match getResource_try lang namespace s with
      | (inl _, s1) => let '(v, s2) := empty_object s1 in (inr v, s2)
      | (inr v, s1) => (inr v, s1)
      end
  end.

(** Both the failure of [persistResource] and of the copy are rethrown. *)
Definition saveResource (lang namespace : string) (data : jval) (s : state)
    : outcome unit * state :=
  match persistResource lang namespace data s with
  | (inl error, s1) => (inl error, s1)
  | (inr _, s1) =>
      if cacheEnabled then
        let cacheKey := getCacheKey lang namespace in
        match deep_copy data (heap_of s1) with
        | Some (h, copy) =>
            (inr (), with_cache (<[cacheKey := copy]> (cache s1)) (with_heap h s1))
        | None => (inl cyclic_error, s1)
        end
      else (inr (), s1)
  end.

Definition clearCache (lang namespace : option string) (s : state) : state :=
  match given lang, given namespace with
  | Some l, Some n => with_cache (delete (getCacheKey l n) (cache s)) s
  | Some l, None =>
      let prefix := (l +:+ ".") in
      with_cache (filter (λ kv, String.prefix prefix (fst kv) = false) (cache s)) s
  | None, _ => with_cache ∅ s
  end.
End BaseStorageAdapter.

(** ** HttpAdapter (src/storage/http-adapter.ts) *)

Section HttpAdapter.
Variable options : Options.t.
Variable net : network.

(** The error thrown for a failed attempt that is not retried. *)
Definition fetch_failure (error : JsError) (url : string) : HttpAdapterError.t :=
  if isTimeoutError error then
    let timeout :=
      match Options.timeout options with
      | Some ms => pretty ms
      | None => "undefined"
      end in
    createError (Error "TimeoutError" ("请求超时: 超过" +:+ timeout +:+ "毫秒"))
      url TIMEOUT None
  else
    createError error url
      (if isNetworkError error then NETWORK else UNKNOWN) None.

(** [fetchWithTimeout] with the remaining retries as a natural number:
    [retries > 0] is the successor case, [retries - 1] its predecessor. *)
Fixpoint fetchWithTimeout_from (url : string) (init : RequestInit.t)
    (retries : nat) (delay : Z) (tr : list event)
    : outcome Response.t * list event :=
  let tr1 := tr ++ [EvFetch url init (Options.timeout options)] in
  let nextDelay :=
    if Options.useExponentialBackoff options then delay * 2 else delay in
  match net tr url init with
  | Resolved response =>
      match retries with
      | S retries' =>
          if Options.autoHandleStatusErrors options
             && negb (Response.ok response)
             && isRetryableStatusCode (Response.status response)
          then fetchWithTimeout_from url init retries' nextDelay
                 (tr1 ++ [EvSleep delay])
          else (inr response, tr1)
      | O => (inr response, tr1)
      end
  | Rejected error =>
      match retries with
      | S retries' =>
          if isTimeoutError error || isNetworkError error
          then fetchWithTimeout_from url init retries' nextDelay
                 (tr1 ++ [EvSleep delay])
          else (inl (Structured (fetch_failure error url)), tr1)
      | O => (inl (Structured (fetch_failure error url)), tr1)
      end
  end.

Definition fetchWithTimeout_at (url : string) (init : RequestInit.t)
    (retries delay : Z) (tr : list event) : outcome Response.t * list event :=
  fetchWithTimeout_from url init (Z.to_nat retries) delay tr.

(** The call with [retries] and [delay] left to their defaults. *)
Definition fetchWithTimeout (url : string) (init : RequestInit.t)
    (tr : list event) : outcome Response.t * list event :=
  fetchWithTimeout_at url init
    (or_number (Options.maxRetries options) 3)
    (or_number (Options.retryDelay options) 300) tr.

Definition getResourceUrl (lang namespace : string) : string :=
  match Options.getResourceUrl options with
  | Some f => f lang namespace (Options.baseUrl options)
  | None =>
      let path := Options.resourcePathTemplate options in
      let path := replace_all "{{lang}}" (encodeURIComponent lang) path in
      let path := replace_all "{{ns}}" (encodeURIComponent namespace) path in
      Options.baseUrl options +:+ path
  end.

Definition status_line (response : Response.t) : string :=
  pretty (Response.status response) +:+ " " +:+ Response.statusText response.

(** The [try] block shared by [getLanguages] and [getNamespaces]; [field]
    is the property holding the list when the body is an object. *)
Definition list_try (path field failed : string) (tr : list event)
    : outcome (list json) * list event :=
  let url := (Options.baseUrl options +:+ path) in
  match fetchWithTimeout url
          {| RequestInit.method := Options.getMethod options;
             RequestInit.headers := Options.headers options;
             RequestInit.body := None |} tr with
  | (inl error, tr1) => (inl error, tr1)
  | (inr response, tr1) =>
      if negb (Response.ok response)
      then (inl (Raw (Error "Error" (failed +:+ ": " +:+ status_line response))), tr1)
      else
        match Response.body response with
        | None => (inl (Raw (SyntaxError "Unexpected token")), tr1)
        | Some (JArray items) => (inr items, tr1)
        | Some (JObject props) =>
            match property field props with
            | Some (JArray items) => (inr items, tr1)
            | _ => (inr [], tr1)
            end
        | Some JNull =>
            (inl (Raw (TypeError "Cannot read properties of null")), tr1)
        | Some _ => (inr [], tr1)
        end
  end.

Definition list_or_empty (r : outcome (list json) * list event)
    : list json * list event :=
  match r with
  | (inl _, tr) => ([], tr)
  | (inr items, tr) => (items, tr)
  end.

Definition getLanguages (s : state) : list json * state :=
  let '(items, tr) :=
    list_or_empty (list_try (Options.languagesUrl options) "languages"
                     "获取语言列表失败" (trace s)) in
  (items, with_trace tr s).

Definition getNamespaces (s : state) : list json * state :=
  let '(items, tr) :=
    list_or_empty (list_try (Options.namespacesUrl options) "namespaces"
                     "获取命名空间列表失败" (trace s)) in
  (items, with_trace tr s).

(** How the [try] block of [loadResource] ends: with an exception, which
    the [catch] clause receives, with a value, or by returning the promise
    of the custom parser, whose rejection the [catch] clause does not
    see. *)
Inductive load_end : Type :=
  | Thrown (error : thrown)
  | Loaded (t : json)
  | Parsing (promise : outcome json).

Definition loadResource_try (lang namespace : string) (tr : list event)
    : load_end * list event :=
  let url := getResourceUrl lang namespace in
  match fetchWithTimeout url
          {| RequestInit.method := Options.getMethod options;
             RequestInit.headers := Options.headers options;
             RequestInit.body := None |} tr with
  | (inl error, tr1) => (Thrown error, tr1)
  | (inr response, tr1) =>
      if negb (Response.ok response)
      then (Thrown (Structured (createHttpError (Response.status response)
                      ("加载资源失败: " +:+ status_line response) url)), tr1)
      else
        match Options.parseResponse options with
        | Some parser => (Parsing (parser response), tr1)
        | None =>
            match Response.body response with
            | Some t => (Loaded t, tr1)
            | None =>
                (Thrown (Structured (createError (SyntaxError "Unexpected token")
                           url PARSE (Some "解析响应数据失败"))), tr1)
            end
        end
  end.

(** A settled promise of a document, as the value the caller awaits. *)
Definition settle (p : outcome json) (s : state) : outcome jval * state :=
  match p with
  | inl error => (inl error, s)
  | inr t => let '(v, s1) := materialize t s in (inr v, s1)
  end.

Definition loadResource (lang namespace : string) (s : state)
    : outcome jval * state :=
  let '(e, tr) := loadResource_try lang namespace (trace s) in
  let s1 := with_trace tr s in
  match e with
  | Loaded t => settle (inr t) s1
  | Parsing promise => settle promise s1
  | Thrown error =>
      match Options.handleError options with
      | Some handler => settle (handler error lang namespace) s1
      | None => let '(v, s2) := empty_object s1 in (inr v, s2)
      end
  end.

Definition saving_disabled : thrown :=
  Raw (Error "Error" "HTTP适配器不允许保存资源。设置allowSaving=true以启用此功能。").

Definition persistResource (lang namespace : string) (data : jval) (s : state)
    : outcome unit * state :=
  if negb (Options.allowSaving options) then (inl saving_disabled, s)
  else
    let url := getResourceUrl lang namespace in
    match stringify (heap_of s) data with
    | None => (inl cyclic_error, s)
    | Some body =>
        match fetchWithTimeout url
                {| RequestInit.method := Options.saveMethod options;
                   RequestInit.headers :=
                     Some (spread [("Content-Type", "application/json")]
                             (Options.headers options));
                   RequestInit.body := Some body |} (trace s) with
        | (inl error, tr1) => (inl error, with_trace tr1 s)
        | (inr response, tr1) =>
            if negb (Response.ok response)
            then (inl (Structured (createHttpError (Response.status response)
                         ("保存资源失败: " +:+ status_line response) url)),
                  with_trace tr1 s)
            else (inr (), with_trace tr1 s)
        end
    end.

(** The public methods the subclass inherits. *)
Definition http_getResource : string → string → state → outcome jval * state :=
  getResource (Options.cacheEnabled options) loadResource.

Definition http_saveResource
    : string → string → jval → state → outcome unit * state :=
  saveResource (Options.cacheEnabled options) persistResource.

Definition http_clearCache : option string → option string → state → state :=
  clearCache.
End HttpAdapter.

(** ** Vocabulary for the properties below *)

(** Induction on documents, with the hypothesis for every child. *)
Section JsonInduction.
Variable P : json → Prop.
Hypothesis Hnull : P JNull.
Hypothesis Hbool : ∀ b, P (JBool b).
Hypothesis Hnum : ∀ n, P (JNum n).
Hypothesis Hstr : ∀ s, P (JStr s).
Hypothesis Harr : ∀ ts, Forall P ts → P (JArray ts).
Hypothesis Hobj : ∀ fs, Forall (λ kt, P (snd kt)) fs → P (JObject fs).

Fixpoint json_nested_ind (t : json) : P t :=
  match t with
  | JNull => Hnull
  | JBool b => Hbool b
  | JNum n => Hnum n
  | JStr s => Hstr s
  | JArray ts =>
      Harr ts ((fix go (ts : list json) : Forall P ts :=
                  match ts with
                  | [] => Forall_nil_2 P
                  | t :: ts' => Forall_cons_2 P t ts' (json_nested_ind t) (go ts')
                  end) ts)
  | JObject fs =>
      Hobj fs ((fix go (fs : list (string * json))
                  : Forall (λ kt, P (snd kt)) fs :=
                  match fs with
                  | [] => Forall_nil_2 _
                  | kt :: fs' =>
                      Forall_cons_2 (λ kt, P (snd kt)) kt fs'
                        (json_nested_ind (snd kt)) (go fs')
                  end) fs)
  end.
End JsonInduction.

(** Two heaps agree below [n] when every cell below [n] is the same. *)
Definition agree_below (n : nat) (h1 h2 : heap) : Prop :=
  ∀ l, (l < n)%nat → h2 !! l = h1 !! l.

(** The value of a document reads back as that document, in any heap that
    extends the one [parse] left, with fuel for the cells it allocated. *)
Definition reads_back (t : json) : Prop :=
  ∀ h h' v, parse t h = (h', v) →
  ∀ k n, (length h' - length h ≤ n)%nat →
  stringify_fuel n (h' ++ k) v = Some t.

(** What [JSON.parse] builds is made of cells it allocated, in any heap
    that kept them. *)
Definition allocates_fresh (t : json) : Prop :=
  ∀ h h' v, parse t h = (h', v) →
  ∀ h2 l, agree_below (length h') h' h2 → reach h2 v l →
  (length h ≤ l < length h')%nat.

(** [v] is an element of the cell at [l]. *)
Definition child (h : heap) (l : nat) (v : jval) : Prop :=
  (∃ ps k, h !! l = Some (HObject ps) ∧ (k, v) ∈ ps) ∨
  (∃ vs, h !! l = Some (HArray vs) ∧ v ∈ vs).

(** Writing to a cell reachable from [v] leaves [u] as it reads. *)
Definition independent_of (h : heap) (v u : jval) : Prop :=
  ∀ l o, reach h v l → stringify (<[l:=o]> h) u = stringify h u.

(** Every cached payload reads as a document: it is a tree of cells of the
    current heap. *)
Definition cache_wf (s : state) : Prop :=
  ∀ key w, cache s !! key = Some w → is_Some (stringify (heap_of s) w).

(** An attempt that the transport answers with another attempt while retries
    remain: a timeout, a network failure, or (when status handling is on)
    a response with a retryable status. *)
Definition retryable_failure (options : Options.t) (r : fetch_result) : bool :=
  match r with
  | Rejected error => isTimeoutError error || isNetworkError error
  | Resolved response =>
      Options.autoHandleStatusErrors options
      && negb (Response.ok response)
      && isRetryableStatusCode (Response.status response)
  end.

(** The events of a call whose every attempt fails retryably: an attempt,
    then a wait and an attempt for each retry, the wait growing as
    configured. *)
Fixpoint exhausted (fetch : event) (backoff : bool) (retries : nat) (delay : Z)
    : list event :=
  match retries with
  | O => [fetch]
  | S retries' =>
      fetch :: EvSleep delay
        :: exhausted fetch backoff retries' (if backoff then delay * 2 else delay)
  end.

(** What the caller of the transport holds after a failed call: a
    structured error marked retryable, or the response with the retryable
    status itself. *)
Definition surfaces_retryable (r : outcome Response.t) : Prop :=
  match r with
  | inl (Structured e) =>
      HttpAdapterError.retryable e = true ∧
      (HttpAdapterError.type e = TIMEOUT ∨ HttpAdapterError.type e = NETWORK)
  | inl (Raw _) => False
  | inr response =>
      Response.ok response = false ∧
      isRetryableStatusCode (Response.status response) = true
  end.

(** A string without a dot. *)
Fixpoint dotless (s : string) : bool :=
  match s with
  | EmptyString => true
  | String c s' => negb (Ascii.eqb c ".") && dotless s'
  end.

(** [n] calls of [getResource] for one resource in a row: the documents
    returned ([None] for a rejected call) and the final state. *)
Fixpoint getResource_times (options : Options.t) (net : network)
    (n : nat) (lang namespace : string) (s : state)
    : list (option json) * state :=
  match n with
  | O => ([], s)
  | S n' =>
      let '(r, s1) := http_getResource options net lang namespace s in
      let doc :=
        match r with
        | inr v => stringify (heap_of s1) v
        | inl _ => None
        end in
      let '(docs, s2) := getResource_times options net n' lang namespace s1 in
      (doc :: docs, s2)
  end.

(** ** A running example: one resource behind a healthy server *)

Definition demo_options : Options.t := Options.defaults "https://api.example.com/i18n/".

Definition demo_payload : json :=
  JObject [("hello", JStr "Hello"); ("button", JObject [("save", JStr "Save")])].

Definition demo_init : RequestInit.t :=
  {| RequestInit.method := "GET"; RequestInit.headers := None;
     RequestInit.body := None |}.

(** A server that answers every request with 200 and [demo_payload]. *)
Definition healthy : network :=
  λ _ _ _, Resolved {| Response.status := 200; Response.statusText := "OK";
                       Response.body := Some demo_payload |}.

(** A server that is always down. *)
Definition always_503 : network :=
  λ _ _ _, Resolved {| Response.status := 503;
                       Response.statusText := "Service Unavailable";
                       Response.body := None |}.

(** A server that knows no resource at all. *)
Definition always_404 : network :=
  λ _ _ _, Resolved {| Response.status := 404; Response.statusText := "Not Found";
                       Response.body := None |}.

(** A server that throttles every request. *)
Definition always_429 : network :=
  λ _ _ _, Resolved {| Response.status := 429;
                       Response.statusText := "Too Many Requests";
                       Response.body := None |}.

(** The defaults, with saving switched on. *)
Definition saving_options : Options.t :=
  {| Options.cacheEnabled := true;
     Options.baseUrl := "https://api.example.com/i18n/";
     Options.resourcePathTemplate := "resources/{{lang}}/{{ns}}";
     Options.languagesUrl := "languages";
     Options.namespacesUrl := "namespaces";
     Options.getMethod := "GET";
     Options.saveMethod := "PUT";
     Options.headers := None;
     Options.timeout := Some 5000;
     Options.allowSaving := true;
     Options.getResourceUrl := None;
     Options.parseResponse := None;
     Options.handleError := None;
     Options.maxRetries := Some 3;
     Options.retryDelay := Some 300;
     Options.useExponentialBackoff := true;
     Options.autoHandleStatusErrors := true |}.

(** A caller's heap holding the object [{a: 1}] at reference 0. *)
Definition one_object : state :=
  {| heap_of := [HObject [("a", VNum 1)]]; cache := ∅; trace := [] |}.

(** A network that refuses every connection. *)
Definition unreachable : network :=
  λ _ _ _, Rejected (TypeError "Failed to fetch").

(** A network whose every call fails for a reason of its own. *)
Definition broken : network :=
  λ _ _ _, Rejected (Error "Error" "boom").

(** The defaults with [maxRetries] set to the given value. *)
Definition options_with_maxRetries (maxRetries : option Z) : Options.t :=
  {| Options.cacheEnabled := true;
     Options.baseUrl := "https://api.example.com/i18n/";
     Options.resourcePathTemplate := "resources/{{lang}}/{{ns}}";
     Options.languagesUrl := "languages";
     Options.namespacesUrl := "namespaces";
     Options.getMethod := "GET";
     Options.saveMethod := "PUT";
     Options.headers := None;
     Options.timeout := Some 5000;
     Options.allowSaving := false;
     Options.getResourceUrl := None;
     Options.parseResponse := None;
     Options.handleError := None;
     Options.maxRetries := maxRetries;
     Options.retryDelay := Some 300;
     Options.useExponentialBackoff := true;
     Options.autoHandleStatusErrors := true |}.

(** The defaults with the cache switched off. *)
Definition options_without_cache : Options.t :=
  {| Options.cacheEnabled := false;
     Options.baseUrl := "https://api.example.com/i18n/";
     Options.resourcePathTemplate := "resources/{{lang}}/{{ns}}";
     Options.languagesUrl := "languages";
     Options.namespacesUrl := "namespaces";
     Options.getMethod := "GET";
     Options.saveMethod := "PUT";
     Options.headers := None;
     Options.timeout := Some 5000;
     Options.allowSaving := false;
     Options.getResourceUrl := None;
     Options.parseResponse := None;
     Options.handleError := None;
     Options.maxRetries := Some 3;
     Options.retryDelay := Some 300;
     Options.useExponentialBackoff := true;
     Options.autoHandleStatusErrors := true |}.

(** The defaults with an error handler that answers every failure with
    the payload [{"fallback": true}]. *)
Definition fallback_payload : json := JObject [("fallback", JBool true)].

Definition options_with_handler : Options.t :=
  {| Options.cacheEnabled := true;
     Options.baseUrl := "https://api.example.com/i18n/";
     Options.resourcePathTemplate := "resources/{{lang}}/{{ns}}";
     Options.languagesUrl := "languages";
     Options.namespacesUrl := "namespaces";
     Options.getMethod := "GET";
     Options.saveMethod := "PUT";
     Options.headers := None;
     Options.timeout := Some 5000;
     Options.allowSaving := false;
     Options.getResourceUrl := None;
     Options.parseResponse := None;
     Options.handleError := Some (λ _ _ _, inr fallback_payload);
     Options.maxRetries := Some 3;
     Options.retryDelay := Some 300;
     Options.useExponentialBackoff := true;
     Options.autoHandleStatusErrors := true |}.

(** The same with, in addition, a parser that rejects every response. *)
Definition options_with_rejecting_parser : Options.t :=
  {| Options.cacheEnabled := true;
     Options.baseUrl := "https://api.example.com/i18n/";
     Options.resourcePathTemplate := "resources/{{lang}}/{{ns}}";
     Options.languagesUrl := "languages";
     Options.namespacesUrl := "namespaces";
     Options.getMethod := "GET";
     Options.saveMethod := "PUT";
     Options.headers := None;
     Options.timeout := Some 5000;
     Options.allowSaving := false;
     Options.getResourceUrl := None;
     Options.parseResponse := Some (λ _, inl (Raw (Error "Error" "bad payload")));
     Options.handleError := Some (λ _ _ _, inr fallback_payload);
     Options.maxRetries := Some 3;
     Options.retryDelay := Some 300;
     Options.useExponentialBackoff := true;
     Options.autoHandleStatusErrors := true |}.

(** A server that accepts reads and refuses writes: 200 with
    [demo_payload] for a request without body, 403 for one with a body. *)
Definition read_only : network :=
  λ _ _ init,
    match RequestInit.body init with
    | None => Resolved {| Response.status := 200; Response.statusText := "OK";
                          Response.body := Some demo_payload |}
    | Some _ => Resolved {| Response.status := 403;
                            Response.statusText := "Forbidden";
                            Response.body := None |}
    end.

(** A server whose list endpoints answer with the list wrapped in an
    object. *)
Definition wrapped_lists : network :=
  λ _ _ _, Resolved {| Response.status := 200; Response.statusText := "OK";
                       Response.body :=
                         Some (JObject [("languages", JArray [JStr "en"; JStr "fr"]);
                                        ("namespaces", JArray [JStr "common"])]) |}.

(** ** The rest of SimpleCache *)

(** [size()], that is [keys().length]: [keys] reads the clock once, keeps
    the entries with [expiry === undefined || expiry >= now] and deletes the
    others.  The order of the array [keys] returns is not modelled, its
    length and its effect on the map are. *)
Definition SimpleCache_size `{Countable K} {V : Type}
    (now : Z) (c : SimpleCache.t K V) : nat * SimpleCache.t K V :=
  let live :=
    filter (λ kv, SimpleCache.expired now (snd kv) = false) (SimpleCache.cache c) in
  (size live,
   {| SimpleCache.cache := live;
      SimpleCache.defaultMaxAge := SimpleCache.defaultMaxAge c |}).


(** The time to live [set] gives an entry. *)
Definition effective_ttl `{Countable K} {V : Type}
    (maxAge : option Z) (c : SimpleCache.t K V) : Z :=
  match maxAge with
  | Some m => m
  | None => SimpleCache.defaultMaxAge c
  end.

(** ** Vocabulary for the transport *)

(** The delay that follows [delay] in the retry sequence. *)
Definition next_delay (backoff : bool) (delay : Z) : Z :=
  if backoff then delay * 2 else delay.

(** The events of [k] failed attempts, each followed by its wait. *)
Fixpoint retried (fetch : event) (backoff : bool) (k : nat) (delay : Z)
    : list event :=
  match k with
  | O => []
  | S k' => fetch :: EvSleep delay :: retried fetch backoff k' (next_delay backoff delay)
  end.

(** The first [k] waits of the retry sequence. *)
Fixpoint backoff_waits (backoff : bool) (k : nat) (delay : Z) : list Z :=
  match k with
  | O => []
  | S k' => delay :: backoff_waits backoff k' (next_delay backoff delay)
  end.

(** The delay in force after [k] retries. *)
Fixpoint delay_after (backoff : bool) (k : nat) (delay : Z) : Z :=
  match k with
  | O => delay
  | S k' => delay_after backoff k' (next_delay backoff delay)
  end.

(** What [fetchWithTimeout] hands to its caller for an attempt it does not
    answer with another attempt: the response, or the structured error
    made from the rejection. *)
Definition handed_over (options : Options.t) (url : string) (r : fetch_result)
    : outcome Response.t :=
  match r with
  | Resolved response => inr response
  | Rejected error => inl (Structured (fetch_failure options error url))
  end.

(** ** Vocabulary for URLs *)

(** The string has no occurrence of the character. *)
Fixpoint lacks (c : Ascii.ascii) (s : string) : bool :=
  match s with
  | EmptyString => true
  | String c' s' => negb (Ascii.eqb c' c) && lacks c s'
  end.

(** The value of a hexadecimal digit as [encodeURIComponent] writes it. *)
Definition hex_value (c : Ascii.ascii) : nat :=
  let n := Ascii.nat_of_ascii c in
  if (n <=? 57)%nat then (n - 48)%nat else (n - 55)%nat.

(** The inverse of [encodeURIComponent] on its outputs: every escape
    [%XY] becomes the byte it stands for. *)
Fixpoint percent_decode (s : string) : string :=
  match s with
  | EmptyString => EmptyString
  | String c rest =>
      if Ascii.eqb c "%" then
        match rest with
        | String a (String b rest') =>
            String (Ascii.ascii_of_nat (16 * hex_value a + hex_value b))
              (percent_decode rest')
        | _ => String c (percent_decode rest)
        end
      else String c (percent_decode rest)
  end.

(** ** Vocabulary for the resource client *)

(** Whether the value of a document is truthy. *)
Definition json_truthy (t : json) : bool :=
  match t with
  | JNull => false
  | JBool b => b
  | JNum n => negb (n =? 0)
  | JStr s => negb (String.eqb s "")
  | JArray _ | JObject _ => true
  end.

(** The request [loadResource] and the list endpoints send. *)
Definition get_init (options : Options.t) : RequestInit.t :=
  {| RequestInit.method := Options.getMethod options;
     RequestInit.headers := Options.headers options;
     RequestInit.body := None |}.

(** The request [persistResource] sends for a body. *)
Definition save_init (options : Options.t) (body : json) : RequestInit.t :=
  {| RequestInit.method := Options.saveMethod options;
     RequestInit.headers :=
       Some (spread [("Content-Type", "application/json")] (Options.headers options));
     RequestInit.body := Some body |}.

(** ** MemoryAdapter (src/storage/memory-adapter.ts) *)

(** *** Plain objects used as maps *)

(** The names [Object.prototype] answers for. *)
Definition object_prototype_names : list string :=
  ["constructor"; "__defineGetter__"; "__defineSetter__"; "hasOwnProperty";
   "__lookupGetter__"; "__lookupSetter__"; "isPrototypeOf";
   "propertyIsEnumerable"; "toString"; "valueOf"; "__proto__"; "toLocaleString"].

Fixpoint only_digits (s : string) : bool :=
  match s with
  | EmptyString => true
  | String c s' =>
      let n := Ascii.nat_of_ascii c in
      ((48 <=? n) && (n <=? 57))%nat && only_digits s'
  end.

(** A non-empty string of digits: every array index is one.  An object
    enumerates its array indices first, in numeric order, whenever they
    were added. *)
Definition integer_name (s : string) : bool :=
  negb (String.eqb s "") && only_digits s.

(** A name that a plain object treats as an ordinary own property, kept in
    insertion order: not answered by [Object.prototype], not an integer
    name.  Reads and writes under other names are outside this model: the
    operations below answer [None] for them. *)
Definition plain_name (key : string) : bool :=
  negb (existsb (String.eqb key) object_prototype_names) && negb (integer_name key).

(** The first property of an object with the given key. *)
Fixpoint own_property (key : string) (ps : list (string * jval)) : option jval :=
  match ps with
  | [] => None
  | (k, v) :: ps' => if String.eqb key k then Some v else own_property key ps'
  end.

(** [obj[key] = v] on the list of own properties: in place when the
    property exists, at the end otherwise. *)
Fixpoint set_property (key : string) (v : jval) (ps : list (string * jval))
    : list (string * jval) :=
  match ps with
  | [] => [(key, v)]
  | (k, v') :: ps' =>
      if String.eqb key k then (k, v) :: ps' else (k, v') :: set_property key v ps'
  end.

(** [obj[key]]: [Some None] is [undefined].  [None] when the read is not
    modelled: [obj] is not a plain object, or [key] is not a plain name. *)
Definition get_own (h : heap) (obj : jval) (key : string) : option (option jval) :=
  if plain_name key then
    match obj with
    | VRef l =>
        match h !! l with
        | Some (HObject ps) => Some (own_property key ps)
        | _ => None
        end
    | _ => None
    end
  else None.

(** [obj[key] = v]; [None] when the write is not modelled. *)
Definition put_own (h : heap) (obj : jval) (key : string) (v : jval) : option heap :=
  if plain_name key then
    match obj with
    | VRef l =>
        match h !! l with
        | Some (HObject ps) => Some (<[l := HObject (set_property key v ps)]> h)
        | _ => None
        end
    | _ => None
    end
  else None.

(** [!x] for the result of a property read. *)
Definition falsy (x : option jval) : bool :=
  match x with
  | Some v => negb (truthy v)
  | None => true
  end.

(** *** The adapter *)

(** The base adapter's state and the field [resources]. *)
Record memory : Type := Memory {
  store : state;
  resources : jval
}.

Definition with_store (s : state) (m : memory) : memory :=
  {| store := s; resources := resources m |}.

Section MemoryAdapter.
Variable cacheEnabled : bool.

(** [new MemoryAdapter({ initialResources })] in a given heap: the field
    initialiser allocates an object, which the constructor then replaces by
    a copy of the initial resources if they are truthy, by a second empty
    object otherwise.  The constructor throws when the initial resources
    are cyclic. *)
Definition MemoryAdapter_new (initialResources : option jval) (h : heap)
    : outcome memory :=
  let '(h0, _) := alloc (HObject []) h in
  let fresh :=
    let '(h1, o) := alloc (HObject []) h0 in
    inr {| store := {| heap_of := h1; cache := ∅; trace := [] |};
           resources := o |} in
  match initialResources with
  | Some initial =>
      if truthy initial then
        match deep_copy initial h0 with
        | Some (h1, copy) =>
            inr {| store := {| heap_of := h1; cache := ∅; trace := [] |};
                   resources := copy |}
        | None => inl cyclic_error
        end
      else fresh
  | None => fresh
  end.

(** [Object.keys(this.resources)]. *)
Definition memory_getLanguages (m : memory) : option (list string) :=
  match resources m with
  | VRef l =>
      match heap_of (store m) !! l with
      | Some (HObject ps) => Some (map fst ps)
      | _ => None
      end
  | _ => None
  end.

(** [Object.keys(langResources)] for a language's object. *)
Definition namespaces_of (h : heap) (langResources : jval) : option (list string) :=
  match langResources with
  | VRef l =>
      match h !! l with
      | Some (HObject ps) => Some (map fst ps)
      | _ => None
      end
  | _ => None
  end.

(** [namespaceSet.add(ns)] on the set's elements in insertion order. *)
Definition set_add (ns : string) (seen : list string) : list string :=
  if existsb (String.eqb ns) seen then seen else seen ++ [ns].

Definition memory_getNamespaces (m : memory) : option (list string) :=
  match resources m with
  | VRef l =>
      match heap_of (store m) !! l with
      | Some (HObject ps) =>
          foldl (λ acc kv,
                   match acc, namespaces_of (heap_of (store m)) (snd kv) with
                   | Some seen, Some names => Some (foldl (λ s n, set_add n s) seen names)
                   | _, _ => None
                   end) (Some []) ps
      | _ => None
      end
  | _ => None
  end.

Definition loadResourceSync (lang namespace : string) (m : memory)
    : option (outcome jval * memory) :=
  let s := store m in
  langResources ← get_own (heap_of s) (resources m) lang;
  if falsy langResources then
    let '(v, s1) := empty_object s in Some (inr v, with_store s1 m)
  else
    resource ← get_own (heap_of s) (default VNull langResources) namespace;
    if falsy resource then
      let '(v, s1) := empty_object s in Some (inr v, with_store s1 m)
    else
      match deep_copy (default VNull resource) (heap_of s) with
      | Some (h, copy) => Some (inr copy, with_store (with_heap h s) m)
      | None => Some (inl cyclic_error, m)
      end.

Definition persistResourceSync (lang namespace : string) (data : jval) (m : memory)
    : option (outcome unit * memory) :=
  let s := store m in
  langResources ← get_own (heap_of s) (resources m) lang;
  h1 ← (if falsy langResources then
          let '(h, o) := alloc (HObject []) (heap_of s) in
          put_own h (resources m) lang o
        else Some (heap_of s));
  target ← get_own h1 (resources m) lang;
  match deep_copy data h1 with
  | None => Some (inl cyclic_error, with_store (with_heap h1 s) m)
  | Some (h2, copy) =>
      h3 ← put_own h2 (default VNull target) namespace copy;
      Some (inr (), with_store (with_heap h3 s) m)
  end.

(** [getResource], the synchronous override. *)
Definition memory_getResource (lang namespace : string) (m : memory)
    : option (outcome jval * memory) :=
  let s := store m in
  let cacheKey := getCacheKey lang namespace in
  match cached cacheEnabled cacheKey s with
  | Some v =>
      match deep_copy v (heap_of s) with
      | Some (h, copy) => Some (inr copy, with_store (with_heap h s) m)
      | None => Some (inl cyclic_error, m)
      end
  | None =>
      r ← loadResourceSync lang namespace m;
      let fallback (m1 : memory) :=
        let '(v, s2) := empty_object (store m1) in (inr v, with_store s2 m1) in
      match r with
      | (inl _, m1) => Some (fallback m1)
      | (inr resources, m1) =>
          let s1 := store m1 in
          let stored :=
            if cacheEnabled then
              match deep_copy resources (heap_of s1) with
              | Some (h, copy) =>
                  inr (with_cache (<[cacheKey := copy]> (cache s1)) (with_heap h s1))
              | None => inl cyclic_error
              end
            else inr s1 in
          match stored with
          | inl _ => Some (fallback m1)
          | inr s2 =>
              match deep_copy resources (heap_of s2) with
              | Some (h, copy) => Some (inr copy, with_store (with_heap h s2) m1)
              | None => Some (fallback (with_store s2 m1))
              end
          end
      end
  end.

(** [saveResource], the synchronous override. *)
Definition memory_saveResource (lang namespace : string) (data : jval) (m : memory)
    : option (outcome unit * memory) :=
  r ← persistResourceSync lang namespace data m;
  match r with
  | (inl error, m1) => Some (inl error, m1)
  | (inr _, m1) =>
      let s1 := store m1 in
      if cacheEnabled then
        match deep_copy data (heap_of s1) with
        | Some (h, copy) =>
            Some (inr (),
                  with_store (with_cache (<[getCacheKey lang namespace := copy]> (cache s1))
                                (with_heap h s1)) m1)
        | None => Some (inl cyclic_error, m1)
        end
      else Some (inr (), m1)
  end.

Definition clearResources (m : memory) : memory :=
  let '(h, o) := alloc (HObject []) (heap_of (store m)) in
  {| store := clearCache None None (with_heap h (store m)); resources := o |}.

Definition setInitialResources (initial : jval) (m : memory) : outcome memory :=
  match deep_copy initial (heap_of (store m)) with
  | Some (h, copy) =>
      inr {| store := clearCache None None (with_heap h (store m)); resources := copy |}
  | None => inl cyclic_error
  end.

Definition exportResources (m : memory) : outcome jval * memory :=
  match deep_copy (resources m) (heap_of (store m)) with
  | Some (h, copy) => (inr copy, with_store (with_heap h (store m)) m)
  | None => (inl cyclic_error, m)
  end.
End MemoryAdapter.

(** ** Sample stores *)

Definition demo_resources : json :=
  JObject [("en", JObject [("translation", JObject [("hello", JStr "Hello")]);
                           ("common", JObject [("yes", JStr "Yes")])]);
           ("fr", JObject [("common", JObject [("yes", JStr "Oui")])])].

(** The adapter constructed with [demo_resources] as its initial resources. *)
Definition demo_memory : memory :=
  let '(h, v) := parse demo_resources [] in
  match MemoryAdapter_new (Some v) h with
  | inr m => m
  | inl _ => {| store := initial; resources := VNull |}
  end.

(** [demo_memory] together with an object of the caller's. *)
Definition demo_memory_with_data : memory * jval :=
  let '(h, v) := parse (JObject [("hello", JStr "Bonjour")])
                   (heap_of (store demo_memory)) in
  (with_store (with_heap h (store demo_memory)) demo_memory, v).
(** ** Reasoning about documents, copies and reachability *)


Lemma parse_array ts h :
  parse (JArray ts) h =
    let '(h1, vs) := parse_items ts h in alloc (HArray vs) h1.
Proof. reflexivity. Qed.

Lemma parse_object fs h :
  parse (JObject fs) h =
    let '(h1, ps) := parse_props fs h in alloc (HObject ps) h1.
Proof. reflexivity. Qed.

Lemma traverse_impl {A B} (f g : A → option B) l ys :
  (∀ x y, x ∈ l → f x = Some y → g x = Some y) →
  traverse f l = Some ys → traverse g l = Some ys.
Proof.
  revert ys. induction l as [|x l IH]; intros ys Hfg; simpl; [done|].
  destruct (f x) as [y|] eqn:Hx; [|done].
  destruct (traverse f l) as [ys'|] eqn:Hl; [|done].
  intros [= <-].
  rewrite (Hfg x y); [|by left|done].
  rewrite (IH ys'); [done| |done].
  intros x' y' Hx' Hy'. apply Hfg; [by right|done].
Qed.

Lemma traverse_elem {A B} (f : A → option B) l ys x :
  traverse f l = Some ys → x ∈ l → ∃ y, f x = Some y.
Proof.
  revert ys. induction l as [|a l IH]; intros ys; simpl.
  - intros _ Hx. by apply elem_of_nil in Hx.
  - destruct (f a) as [y|] eqn:Ha; [|done].
    destruct (traverse f l) as [ys'|] eqn:Hl; [|done].
    intros _ [->|Hx]%elem_of_cons; eauto.
Qed.

(** More fuel never changes a document already obtained. *)
Lemma stringify_fuel_mono n h v t :
  stringify_fuel n h v = Some t → ∀ m, (n ≤ m)%nat → stringify_fuel m h v = Some t.
Proof.
  revert v t. induction n as [|n IH]; intros v t Hs m Hm.
  - destruct v; simpl in *; try (by destruct m).
  - destruct v as [| | | |l]; simpl in Hs; try (by destruct m).
    destruct m as [|m]; [lia|]. simpl.
    destruct (h !! l) as [[ps|vs]|]; [| |done].
    + destruct (traverse _ ps) as [fs|] eqn:Hps in Hs; [|done].
      erewrite traverse_impl; [exact Hs| |exact Hps].
      intros [k v] y _. simpl.
      destruct (stringify_fuel n h v) as [t'|] eqn:Hv; [|done].
      by rewrite (IH v t' Hv m) by lia.
    + destruct (traverse _ vs) as [ts|] eqn:Hvs in Hs; [|done].
      erewrite traverse_impl; [exact Hs| |exact Hvs].
      intros v y _ Hv. apply (IH v y Hv m). lia.
Qed.


(** A document read from a heap only depends on the cells of that heap. *)
Lemma stringify_fuel_frame n h h2 v t :
  agree_below (length h) h h2 →
  stringify_fuel n h v = Some t → stringify_fuel n h2 v = Some t.
Proof.
  intros Hag. revert v t. induction n as [|n IH]; intros v t Hs.
  - by destruct v.
  - destruct v as [| | | |l]; simpl in Hs |- *; try done.
    destruct (h !! l) as [o|] eqn:Hl; [|done].
    rewrite Hag, Hl by (by eapply lookup_lt_Some).
    destruct o as [ps|vs].
    + destruct (traverse _ ps) as [fs|] eqn:Hps in Hs; [|done].
      erewrite traverse_impl; [exact Hs| |exact Hps].
      intros [k v] y _. simpl.
      destruct (stringify_fuel n h v) as [t'|] eqn:Hv; [|done].
      by rewrite (IH v t' Hv).
    + destruct (traverse _ vs) as [ts|] eqn:Hvs in Hs; [|done].
      erewrite traverse_impl; [exact Hs| |exact Hvs].
      intros v y _ Hv. by apply IH.
Qed.

Lemma stringify_frame h h2 v t :
  agree_below (length h) h h2 → (length h ≤ length h2)%nat →
  stringify h v = Some t → stringify h2 v = Some t.
Proof.
  unfold stringify. intros Hag Hlen Hs.
  eapply stringify_fuel_mono; [|exact Hlen].
  by eapply stringify_fuel_frame.
Qed.

(** Whatever a well-formed value reaches lies inside the heap it was read
    from, also when that heap has grown or changed elsewhere. *)
Lemma reach_bounded n h h2 v t l :
  agree_below (length h) h h2 →
  stringify_fuel n h v = Some t → reach h2 v l → (l < length h)%nat.
Proof.
  intros Hag Hs Hr. revert n t Hs.
  induction Hr as [l|l ps k v l' Hl Hin Hr IH|l vs v l' Hl Hin Hr IH];
    intros n t Hs.
  - destruct n as [|n]; simpl in Hs; [done|].
    destruct (h !! l) eqn:Hhl; [by eapply lookup_lt_Some|done].
  - destruct n as [|n]; simpl in Hs; [done|].
    destruct (h !! l) as [o|] eqn:Hhl; [|done].
    rewrite Hag, Hhl in Hl by (by eapply lookup_lt_Some).
    injection Hl as ->.
    destruct (traverse _ ps) as [fs|] eqn:Hps in Hs; [|done].
    destruct (traverse_elem _ _ _ _ Hps Hin) as [y Hy]. simpl in Hy.
    destruct (stringify_fuel n h v) as [t'|] eqn:Hv; [|done].
    by eapply IH.
  - destruct n as [|n]; simpl in Hs; [done|].
    destruct (h !! l) as [o|] eqn:Hhl; [|done].
    rewrite Hag, Hhl in Hl by (by eapply lookup_lt_Some).
    injection Hl as ->.
    destruct (traverse _ vs) as [ts|] eqn:Hvs in Hs; [|done].
    destruct (traverse_elem _ _ _ _ Hvs Hin) as [y Hy].
    by eapply IH.
Qed.

Lemma agree_below_app h k : agree_below (length h) h (h ++ k).
Proof. intros l Hl. by apply lookup_app_l. Qed.

Lemma agree_below_insert n h (l : nat) o :
  (n ≤ l)%nat → agree_below n h (<[l:=o]> h).
Proof. intros Hl l' Hl'. apply list_lookup_insert_ne. lia. Qed.

Lemma agree_below_trans n m h1 h2 h3 :
  (n ≤ m)%nat → agree_below n h1 h2 → agree_below m h2 h3 → agree_below n h1 h3.
Proof. intros Hnm H12 H23 l Hl. rewrite H23 by lia. by apply H12. Qed.

(** *** [JSON.parse] only allocates *)

Lemma parse_items_prefix ts :
  Forall (λ t, ∀ h, h `prefix_of` (parse t h).1) ts →
  ∀ h, h `prefix_of` (parse_items ts h).1.
Proof.
  induction 1 as [|t ts Ht _ IH]; intros h; simpl; [done|].
  specialize (Ht h). destruct (parse t h) as [ha v].
  specialize (IH ha). destruct (parse_items ts ha) as [hb vs].
  simpl in *. by etrans.
Qed.

Lemma parse_props_prefix fs :
  Forall (λ kt, ∀ h, h `prefix_of` (parse (snd kt) h).1) fs →
  ∀ h, h `prefix_of` (parse_props fs h).1.
Proof.
  induction 1 as [|[key t] fs Ht _ IH]; intros h; simpl; [done|].
  specialize (Ht h). simpl in Ht. destruct (parse t h) as [ha v].
  specialize (IH ha). destruct (parse_props fs ha) as [hb ps].
  simpl in *. by etrans.
Qed.

Lemma parse_prefix t h : h `prefix_of` (parse t h).1.
Proof.
  revert h. induction t as [|b|z|str|ts IH|fs IH] using json_nested_ind;
    intros h; try done.
  - rewrite parse_array. pose proof (parse_items_prefix ts IH h) as Hp.
    destruct (parse_items ts h) as [h1 vs]. simpl in *.
    etrans; [exact Hp|]. by apply prefix_app_r.
  - rewrite parse_object. pose proof (parse_props_prefix fs IH h) as Hp.
    destruct (parse_props fs h) as [h1 ps]. simpl in *.
    etrans; [exact Hp|]. by apply prefix_app_r.
Qed.

Lemma parse_items_prefix' ts h : h `prefix_of` (parse_items ts h).1.
Proof.
  apply parse_items_prefix, Forall_forall. intros t _ h'. apply parse_prefix.
Qed.

Lemma parse_props_prefix' fs h : h `prefix_of` (parse_props fs h).1.
Proof.
  apply parse_props_prefix, Forall_forall. intros t _ h'. apply parse_prefix.
Qed.

Lemma parse_length t h : (length h ≤ length (parse t h).1)%nat.
Proof. apply prefix_length, parse_prefix. Qed.

Lemma agree_below_prefix (h h' : heap) :
  h `prefix_of` h' → agree_below (length h) h h'.
Proof. intros [k ->]. apply agree_below_app. Qed.

(** *** Reading back what [JSON.parse] built *)


Lemma parse_items_reads_back ts :
  Forall reads_back ts →
  ∀ h h1 vs, parse_items ts h = (h1, vs) →
  ∀ k n, (length h1 - length h ≤ n)%nat →
  traverse (stringify_fuel n (h1 ++ k)) vs = Some ts.
Proof.
  induction 1 as [|t ts Ht _ IH]; intros h h1 vs Hp k n Hn; simpl in Hp.
  - by injection Hp as <- <-.
  - pose proof (parse_length t h) as Hla.
    destruct (parse t h) as [ha v] eqn:Ha.
    pose proof (parse_items_prefix' ts ha) as Hpb.
    destruct (parse_items ts ha) as [hb vs'] eqn:Hb.
    injection Hp as <- <-. simpl in *.
    pose proof (prefix_length _ _ Hpb) as Hlb.
    destruct Hpb as [k' ->].
    rewrite <- (app_assoc ha k' k) at 1.
    rewrite (Ht h ha v Ha (k' ++ k) n) by lia.
    by rewrite (IH ha _ vs' Hb k n) by lia.
Qed.

Lemma parse_props_reads_back fs :
  Forall (λ kt, reads_back (snd kt)) fs →
  ∀ h h1 ps, parse_props fs h = (h1, ps) →
  ∀ k n, (length h1 - length h ≤ n)%nat →
  traverse (λ kv, match stringify_fuel n (h1 ++ k) (snd kv) with
                  | Some t => Some (fst kv, t)
                  | None => None
                  end) ps = Some fs.
Proof.
  induction 1 as [|[key t] fs Ht _ IH]; intros h h1 ps Hp k n Hn; simpl in Hp.
  - by injection Hp as <- <-.
  - pose proof (parse_length t h) as Hla.
    destruct (parse t h) as [ha v] eqn:Ha.
    pose proof (parse_props_prefix' fs ha) as Hpb.
    destruct (parse_props fs ha) as [hb ps'] eqn:Hb.
    injection Hp as <- <-. simpl in *.
    pose proof (prefix_length _ _ Hpb) as Hlb.
    destruct Hpb as [k' ->].
    rewrite <- (app_assoc ha k' k) at 1.
    rewrite (Ht h ha v Ha (k' ++ k) n) by lia.
    by rewrite (IH ha _ ps' Hb k n) by lia.
Qed.

Lemma parse_reads_back t : reads_back t.
Proof.
  induction t as [|b|z|str|ts IH|fs IH] using json_nested_ind;
    intros h h' v Hp k n Hn;
    try (injection Hp as <- <-; by destruct n).
  - rewrite parse_array in Hp.
    pose proof (parse_items_prefix' ts h) as Hl%prefix_length.
    destruct (parse_items ts h) as [h1 vs] eqn:Hi.
    injection Hp as <- <-. simpl in *. rewrite length_app in Hn. simpl in Hn.
    destruct n as [|n]; [lia|]. simpl.
    rewrite <- app_assoc, lookup_app_r, Nat.sub_diag by lia. simpl.
    by rewrite (parse_items_reads_back ts IH h h1 vs Hi _ n) by lia.
  - rewrite parse_object in Hp.
    pose proof (parse_props_prefix' fs h) as Hl%prefix_length.
    destruct (parse_props fs h) as [h1 ps] eqn:Hi.
    injection Hp as <- <-. simpl in *. rewrite length_app in Hn. simpl in Hn.
    destruct n as [|n]; [lia|]. simpl.
    rewrite <- app_assoc, lookup_app_r, Nat.sub_diag by lia. simpl.
    by rewrite (parse_props_reads_back fs IH h h1 ps Hi _ n) by lia.
Qed.

(** [JSON.parse] then [JSON.stringify] gives the document back. *)
Lemma stringify_parse t h h' v :
  parse t h = (h', v) → stringify h' v = Some t.
Proof.
  intros Hp. unfold stringify.
  rewrite <- (app_nil_r h') at 2.
  apply (parse_reads_back t h h' v Hp [] (length h')). lia.
Qed.

(** *** What [JSON.parse] builds is made of fresh cells only *)


Lemma parse_items_fresh ts :
  Forall allocates_fresh ts →
  ∀ h h1 vs, parse_items ts h = (h1, vs) →
  ∀ h2 v l, agree_below (length h1) h1 h2 → v ∈ vs → reach h2 v l →
  (length h ≤ l < length h1)%nat.
Proof.
  induction 1 as [|t ts Ht _ IH]; intros h h1 vs Hp h2 v0 l Hag Hin Hr;
    simpl in Hp.
  - injection Hp as <- <-. by apply elem_of_nil in Hin.
  - pose proof (parse_length t h) as Hla.
    destruct (parse t h) as [ha v] eqn:Ha.
    pose proof (parse_items_prefix' ts ha) as Hpb.
    destruct (parse_items ts ha) as [hb vs'] eqn:Hb.
    injection Hp as <- <-. simpl in *.
    pose proof (prefix_length _ _ Hpb) as Hlb.
    apply elem_of_cons in Hin as [->|Hin].
    + assert (agree_below (length ha) ha h2) as Hag'.
      { eapply agree_below_trans; [exact Hlb|by apply agree_below_prefix|done]. }
      specialize (Ht h ha v Ha h2 l Hag' Hr). lia.
    + specialize (IH ha hb vs' Hb h2 v0 l Hag Hin Hr). lia.
Qed.

Lemma parse_props_fresh fs :
  Forall (λ kt, allocates_fresh (snd kt)) fs →
  ∀ h h1 ps, parse_props fs h = (h1, ps) →
  ∀ h2 key v l, agree_below (length h1) h1 h2 → (key, v) ∈ ps → reach h2 v l →
  (length h ≤ l < length h1)%nat.
Proof.
  induction 1 as [|[key' t] fs Ht _ IH]; intros h h1 ps Hp h2 key v0 l Hag Hin Hr;
    simpl in Hp.
  - injection Hp as <- <-. by apply elem_of_nil in Hin.
  - pose proof (parse_length t h) as Hla.
    destruct (parse t h) as [ha v] eqn:Ha.
    pose proof (parse_props_prefix' fs ha) as Hpb.
    destruct (parse_props fs ha) as [hb ps'] eqn:Hb.
    injection Hp as <- <-. simpl in *.
    pose proof (prefix_length _ _ Hpb) as Hlb.
    apply elem_of_cons in Hin as [[= -> ->]|Hin].
    + assert (agree_below (length ha) ha h2) as Hag'.
      { eapply agree_below_trans; [exact Hlb|by apply agree_below_prefix|done]. }
      specialize (Ht h ha v Ha h2 l Hag' Hr). lia.
    + specialize (IH ha hb ps' Hb h2 key v0 l Hag Hin Hr). lia.
Qed.

Lemma parse_fresh t : allocates_fresh t.
Proof.
  induction t as [|b|z|str|ts IH|fs IH] using json_nested_ind;
    intros h h' v Hp h2 l Hag Hr;
    try (injection Hp as <- <-; by inversion Hr).
  - rewrite parse_array in Hp.
    pose proof (parse_items_prefix' ts h) as Hl%prefix_length.
    destruct (parse_items ts h) as [h1 vs] eqn:Hi.
    injection Hp as <- <-. simpl in *. rewrite length_app in *. simpl in *.
    assert (h2 !! length h1 = Some (HArray vs)) as Hcell.
    { rewrite Hag by lia. by rewrite lookup_app_r, Nat.sub_diag by lia. }
    assert (agree_below (length h1) h1 h2) as Hag1.
    { eapply agree_below_trans; [|apply agree_below_app|exact Hag]. lia. }
    inversion Hr as [|l0 ps key v0 l' Hc Hin Hr'|l0 vs0 v0 l' Hc Hin Hr']; subst.
    + lia.
    + congruence.
    + rewrite Hcell in Hc. injection Hc as <-.
      pose proof (parse_items_fresh ts IH h h1 vs Hi h2 v0 l Hag1 Hin Hr'). lia.
  - rewrite parse_object in Hp.
    pose proof (parse_props_prefix' fs h) as Hl%prefix_length.
    destruct (parse_props fs h) as [h1 ps] eqn:Hi.
    injection Hp as <- <-. simpl in *. rewrite length_app in *. simpl in *.
    assert (h2 !! length h1 = Some (HObject ps)) as Hcell.
    { rewrite Hag by lia. by rewrite lookup_app_r, Nat.sub_diag by lia. }
    assert (agree_below (length h1) h1 h2) as Hag1.
    { eapply agree_below_trans; [|apply agree_below_app|exact Hag]. lia. }
    inversion Hr as [|l0 ps0 key v0 l' Hc Hin Hr'|l0 vs0 v0 l' Hc Hin Hr']; subst.
    + lia.
    + rewrite Hcell in Hc. injection Hc as <-.
      pose proof (parse_props_fresh fs IH h h1 ps Hi h2 key v0 l Hag1 Hin Hr'). lia.
    + congruence.
Qed.

(** *** The copy made at the adapters' boundary *)

Lemma deep_copy_spec v h h' v' :
  deep_copy v h = Some (h', v') →
  ∃ t, stringify h v = Some t ∧ parse t h = (h', v') ∧
       stringify h' v' = Some t ∧ h `prefix_of` h'.
Proof.
  unfold deep_copy. destruct (stringify h v) as [t|] eqn:Hs; [|done].
  intros [= Hp]. exists t. repeat split; [done|by eapply stringify_parse|].
  pose proof (parse_prefix t h) as H. by rewrite Hp in H.
Qed.


(** A value made of cells at or above [n] and a value read from the first
    [n] cells are independent of each other. *)
Lemma independent_above (n : nat) (h0 h : heap) v u t :
  (∀ l, reach h v l → (n ≤ l)%nat) →
  length h0 = n → agree_below n h0 h → (n ≤ length h)%nat →
  stringify h0 u = Some t →
  independent_of h v u.
Proof.
  intros Hv <- Hag Hlen Hu l o Hr.
  rewrite (stringify_frame h0 h u t Hag Hlen Hu).
  apply (stringify_frame h0 (<[l:=o]> h) u t); [|by rewrite length_insert|done].
  apply (agree_below_trans _ (length h0) _ h); [lia|exact Hag|].
  apply agree_below_insert. pose proof (Hv l Hr). lia.
Qed.

(** A document only depends on the cells its value reaches. *)
Lemma stringify_fuel_reach_frame n h h2 v t :
  (∀ l, reach h v l → h2 !! l = h !! l) →
  stringify_fuel n h v = Some t → stringify_fuel n h2 v = Some t.
Proof.
  revert v t. induction n as [|n IH]; intros v t Hag Hs.
  - by destruct v.
  - destruct v as [| | | |l]; simpl in Hs |- *; try done.
    rewrite (Hag l) by constructor.
    destruct (h !! l) as [[ps|vs]|] eqn:Hl; [| |done].
    + destruct (traverse _ ps) as [fs|] eqn:Hps in Hs; [|done].
      erewrite traverse_impl; [exact Hs| |exact Hps].
      intros [k v] y Hin. simpl.
      destruct (stringify_fuel n h v) as [t'|] eqn:Hv; [|done].
      rewrite (IH v t'); [done| |done].
      intros l' Hr. apply Hag. by eapply reach_prop.
    + destruct (traverse _ vs) as [ts|] eqn:Hvs in Hs; [|done].
      erewrite traverse_impl; [exact Hs| |exact Hvs].
      intros v y Hin Hv. apply IH; [|done].
      intros l' Hr. apply Hag. by eapply reach_item.
Qed.

(** The converse of [independent_above]: writing to a cell of the value
    read from the first [n] cells leaves the value above [n] as it reads. *)
Lemma independent_below (n : nat) (h0 h : heap) v u t t' :
  (∀ l, reach h v l → (n ≤ l)%nat) →
  length h0 = n → agree_below n h0 h →
  stringify h0 u = Some t → stringify h v = Some t' →
  independent_of h u v.
Proof.
  intros Hv <- Hag Hu Hs l o Hr.
  assert (l < length h0)%nat as Hl by (by eapply reach_bounded).
  rewrite Hs. unfold stringify in *. rewrite length_insert.
  eapply stringify_fuel_reach_frame; [|exact Hs].
  intros l' Hr'. apply list_lookup_insert_ne. pose proof (Hv l' Hr'). lia.
Qed.

(** *** The fuel of [stringify] is enough *)

Lemma stringify_fuel_child n h l v t :
  stringify_fuel (S n) h (VRef l) = Some t → child h l v →
  ∃ t', stringify_fuel n h v = Some t'.
Proof.
  simpl. intros Hs [(ps & k & Hl & Hin)|(vs & Hl & Hin)]; rewrite Hl in Hs.
  - destruct (traverse _ ps) as [fs|] eqn:Hps in Hs; [|done].
    destruct (traverse_elem _ _ _ _ Hps Hin) as [y Hy]. simpl in Hy.
    destruct (stringify_fuel n h v) as [t'|]; [by exists t'|done].
  - destruct (traverse _ vs) as [ts|] eqn:Hvs in Hs; [|done].
    by destruct (traverse_elem _ _ _ _ Hvs Hin) as [y Hy]; exists y.
Qed.

Lemma reach_child h l v l' : child h l v → reach h v l' → reach h (VRef l) l'.
Proof.
  intros [(ps & k & Hl & Hin)|(vs & Hl & Hin)] Hr.
  - by eapply reach_prop.
  - by eapply reach_item.
Qed.

(** Whatever a value that reads as a document reaches reads as a document
    too, with the same fuel. *)
Lemma stringify_fuel_reach h v l :
  reach h v l → ∀ n t, stringify_fuel n h v = Some t →
  ∃ t', stringify_fuel n h (VRef l) = Some t'.
Proof.
  induction 1 as [l|l ps k v l' Hl Hin Hr IH|l vs v l' Hl Hin Hr IH];
    intros n t Hs.
  - by exists t.
  - destruct n as [|n]; [done|].
    destruct (stringify_fuel_child n h l v t Hs) as [t1 H1].
    { left. by exists ps, k. }
    destruct (IH n t1 H1) as [t2 H2]. exists t2.
    eapply stringify_fuel_mono; [exact H2|lia].
  - destruct n as [|n]; [done|].
    destruct (stringify_fuel_child n h l v t Hs) as [t1 H1].
    { right. by exists vs. }
    destruct (IH n t1 H1) as [t2 H2]. exists t2.
    eapply stringify_fuel_mono; [exact H2|lia].
Qed.

(** A cell that reads as a document is not reachable from its own
    elements. *)
Lemma stringify_fuel_acyclic n h l v t :
  stringify_fuel n h (VRef l) = Some t → child h l v → ¬ reach h v l.
Proof.
  revert t. induction n as [|n IH]; intros t Hs Hc Hr; [done|].
  destruct (stringify_fuel_child n h l v t Hs Hc) as [t1 H1].
  destruct (stringify_fuel_reach h v l Hr n t1 H1) as [t2 H2].
  by eapply IH.
Qed.

Lemma size_below (S : gset nat) (n : nat) :
  (∀ l, l ∈ S → (l < n)%nat) → (size S ≤ n)%nat.
Proof.
  intros HS. rewrite <- (size_set_seq (C := gset nat) 0 n).
  apply subseteq_size. intros l Hl. apply elem_of_set_seq.
  specialize (HS l Hl). lia.
Qed.

(** With a set [S] of cells that the value does not reach set aside, the
    remaining cells bound the fuel needed. *)
Lemma stringify_fuel_enough_gen h n :
  ∀ v t (S : gset nat) m,
    stringify_fuel n h v = Some t →
    (∀ l, l ∈ S → (l < length h)%nat) →
    (∀ l, l ∈ S → ¬ reach h v l) →
    (size S + m = length h)%nat →
    stringify_fuel m h v = Some t.
Proof.
  induction n as [|n IH]; intros v t S m Hs Hin Hout Hsize.
  - destruct v; by destruct m.
  - destruct v as [| | | |l]; try (by destruct m).
    assert (l ∉ S) as HlS by (intros Hl; by apply (Hout l Hl), reach_here).
    assert (l < length h)%nat as Hl.
    { simpl in Hs. destruct (h !! l) eqn:Hhl; [by eapply lookup_lt_Some|done]. }
    set (S' := {[l]} ∪ S).
    assert (size S' = Datatypes.S (size S)) as HS'.
    { unfold S'. rewrite size_union by set_solver. by rewrite size_singleton. }
    assert (size S' ≤ length h)%nat as Hle.
    { apply size_below. intros l0 [->%elem_of_singleton|Hl0]%elem_of_union; auto. }
    destruct m as [|m]; [lia|].
    assert (∀ v' y, child h l v' → stringify_fuel n h v' = Some y →
                    stringify_fuel m h v' = Some y) as Hchild.
    { intros v' y Hc Hy. apply (IH v' y S' m Hy).
      - intros l0 [->%elem_of_singleton|Hl0]%elem_of_union; auto.
      - intros l0 [->%elem_of_singleton|Hl0]%elem_of_union Hr.
        + by eapply stringify_fuel_acyclic.
        + apply (Hout l0 Hl0). by eapply reach_child.
      - lia. }
    simpl in Hs |- *.
    destruct (h !! l) as [[ps|vs]|] eqn:Hhl; [| |done].
    + destruct (traverse _ ps) as [fs|] eqn:Hps in Hs; [|done].
      erewrite traverse_impl; [exact Hs| |exact Hps].
      intros [k v'] y Hmem. simpl.
      destruct (stringify_fuel n h v') as [t'|] eqn:Hv'; [|done].
      rewrite (Hchild v' t'); [done| |done].
      left. by exists ps, k.
    + destruct (traverse _ vs) as [ts|] eqn:Hvs in Hs; [|done].
      erewrite traverse_impl; [exact Hs| |exact Hvs].
      intros v' y Hmem Hy. apply Hchild; [|done].
      right. by exists vs.
Qed.

(** No amount of fuel reads a document that [stringify] does not: its
    [None] is a cyclic (or dangling) structure. *)
Lemma stringify_fuel_enough n h v t :
  stringify_fuel n h v = Some t → stringify h v = Some t.
Proof.
  intros Hs. apply (stringify_fuel_enough_gen h n v t ∅ (length h) Hs).
  - intros l Hl. by apply not_elem_of_empty in Hl.
  - intros l Hl. by apply not_elem_of_empty in Hl.
  - by rewrite size_empty.
Qed.

(** ** The base adapter's cache *)


Lemma cache_wf_initial : cache_wf initial.
Proof. intros key w Hw. unfold initial in Hw. simpl in Hw. by rewrite lookup_empty in Hw. Qed.

Lemma stringify_prefix h h' v t :
  h `prefix_of` h' → stringify h v = Some t → stringify h' v = Some t.
Proof.
  intros Hp. apply stringify_frame; [by apply agree_below_prefix|].
  by apply prefix_length.
Qed.

Lemma reach_empty_object h l :
  reach (h ++ [HObject []]) (VRef (length h)) l → l = length h.
Proof.
  assert ((h ++ [HObject []]) !! length h = Some (HObject [])) as Hcell.
  { by rewrite lookup_app_r, Nat.sub_diag by lia. }
  inversion 1 as [|l0 ps key v0 l' Hc Hin _|l0 vs0 v0 l' Hc Hin _]; subst.
  - done.
  - rewrite Hcell in Hc. injection Hc as <-. by apply elem_of_nil in Hin.
  - congruence.
Qed.

Lemma stringify_empty_object h :
  stringify (h ++ [HObject []]) (VRef (length h)) = Some (JObject []).
Proof.
  unfold stringify. rewrite length_app. simpl.
  rewrite Nat.add_1_r. simpl.
  by rewrite lookup_app_r, Nat.sub_diag by lia.
Qed.

(** What a copy is: it reads as the original, is made of fresh cells, and
    leaves the old heap in place. *)
Lemma deep_copy_fresh v h h' v' :
  deep_copy v h = Some (h', v') →
  ∀ h2 l, agree_below (length h') h' h2 → reach h2 v' l →
  (length h ≤ l < length h')%nat.
Proof.
  intros (t & _ & Hp & _)%deep_copy_spec. by apply (parse_fresh t).
Qed.

Lemma deep_copy_again v h h1 c h2 :
  deep_copy v h = Some (h1, c) → h1 `prefix_of` h2 →
  ∃ h3 c', deep_copy v h2 = Some (h3, c') ∧
           stringify h3 c' = stringify h1 c.
Proof.
  intros (t & Hs & Hp & Hc & Hpre)%deep_copy_spec Hpre2.
  assert (stringify h2 v = Some t) as Hs2.
  { eapply stringify_prefix; [|exact Hs]. by etrans. }
  unfold deep_copy. rewrite Hs2.
  destruct (parse t h2) as [h3 c'] eqn:Hp2.
  exists h3, c'. split; [done|].
  by rewrite Hc, (stringify_parse t h2 h3 c' Hp2).
Qed.

Section BaseStorageAdapterFacts.
Variable cacheEnabled : bool.
Variable loadResource : string → string → state → outcome jval * state.
Variable persistResource : string → string → jval → state → outcome unit * state.

(** The subclass's methods allocate at most; the cache is the base
    class's own. *)
Hypothesis load_frame : ∀ lang namespace s r s1,
  loadResource lang namespace s = (r, s1) →
  heap_of s `prefix_of` heap_of s1 ∧ cache s1 = cache s.
Hypothesis persist_frame : ∀ lang namespace data s r s1,
  persistResource lang namespace data s = (r, s1) →
  heap_of s `prefix_of` heap_of s1 ∧ cache s1 = cache s.

Local Abbreviation get := (getResource cacheEnabled loadResource).
Local Abbreviation get_try := (getResource_try cacheEnabled loadResource).
Local Abbreviation save := (saveResource cacheEnabled persistResource).
Local Abbreviation hit := (cached cacheEnabled).

(** A cache hit: the result is a copy of the entry, nothing else
    changes. *)
Lemma getResource_hit lang namespace s w :
  hit (getCacheKey lang namespace) s = Some w →
  get lang namespace s =
    match deep_copy w (heap_of s) with
    | Some (h, copy) => (inr copy, with_heap h s)
    | None => (inl cyclic_error, s)
    end.
Proof. intros Hc. unfold getResource. by rewrite Hc. Qed.

(** How the [try] block ends when it returns a value: the loaded
    payload was copied (into the cache, when enabled) and copied again
    for the caller. *)
Lemma getResource_try_inr lang namespace s v s3 :
  get_try lang namespace s = (inr v, s3) →
  ∃ resources s1 s2,
    loadResource lang namespace s = (inr resources, s1) ∧
    deep_copy resources (heap_of s2) = Some (heap_of s3, v) ∧
    cache s3 = cache s2 ∧ trace s3 = trace s1 ∧ trace s2 = trace s1 ∧
    (if cacheEnabled
     then ∃ h2 c, deep_copy resources (heap_of s1) = Some (h2, c) ∧
                  heap_of s2 = h2 ∧
                  cache s2 = <[getCacheKey lang namespace := c]> (cache s1)
     else s2 = s1).
Proof.
  unfold getResource_try.
  destruct (loadResource lang namespace s) as [[e|resources] s1] eqn:Hl; [done|].
  destruct cacheEnabled.
  - destruct (deep_copy resources (heap_of s1)) as [[h2 c]|] eqn:Hc1; [|done].
    simpl. destruct (deep_copy resources h2) as [[h3 c']|] eqn:Hc2; [|done].
    intros [= <- <-].
    exists resources, s1,
      (with_cache (<[getCacheKey lang namespace := c]> (cache s1)) (with_heap h2 s1)).
    split; [done|]. split; [exact Hc2|]. repeat split. by exists h2, c.
  - destruct (deep_copy resources (heap_of s1)) as [[h3 c']|] eqn:Hc2; [|done].
    intros [= <- <-]. exists resources, s1, s1. done.
Qed.

(** When the [try] block throws, the cache is as before the call. *)
Lemma getResource_try_inl lang namespace s e s1 :
  get_try lang namespace s = (inl e, s1) →
  heap_of s `prefix_of` heap_of s1 ∧ cache s1 = cache s.
Proof.
  unfold getResource_try.
  destruct (loadResource lang namespace s) as [[e'|resources] s1'] eqn:Hl.
  - intros [= <- <-]. by eapply load_frame.
  - apply load_frame in Hl as [Hpre Hcache].
    destruct cacheEnabled.
    + destruct (deep_copy resources (heap_of s1')) as [[h2 c]|] eqn:Hc1.
      * simpl.
        destruct (deep_copy_again _ _ _ _ h2 Hc1) as (h3 & c' & Hc2 & _); [done|].
        by rewrite Hc2.
      * by intros [= <- <-].
    + destruct (deep_copy resources (heap_of s1')) as [[h3 c']|] eqn:Hc2; [done|].
      by intros [= <- <-].
Qed.

Lemma cached_ext key s s' :
  cache s' = cache s → hit key s' = hit key s.
Proof. unfold cached. by intros ->. Qed.

Lemma cached_lookup key s w :
  hit key s = Some w →
  cacheEnabled = true ∧ cache s !! key = Some w ∧ truthy w = true.
Proof.
  unfold cached. destruct cacheEnabled; [|done].
  destruct (cache s !! key) as [w'|]; [|done].
  destruct (truthy w') eqn:Ht; [|done]. by intros [= <-].
Qed.

(** The shape of every successful [getResource]: there is a moment [hm]
    of the heap, at or after the call's start, at which every payload in
    the resulting cache was complete, and after which every cell of the
    returned payload was allocated. *)
Lemma getResource_copy lang namespace s v s' :
  cache_wf s → get lang namespace s = (inr v, s') →
  ∃ hm, heap_of s `prefix_of` hm ∧ hm `prefix_of` heap_of s' ∧
        (∀ key w, cache s' !! key = Some w → is_Some (stringify hm w)) ∧
        (∀ l, reach (heap_of s') v l → (length hm ≤ l)%nat) ∧
        is_Some (stringify (heap_of s') v).
Proof.
  intros Hwf. unfold getResource.
  destruct (hit (getCacheKey lang namespace) s) as [w|] eqn:Hhit.
  - destruct (deep_copy w (heap_of s)) as [[h c]|] eqn:Hc; [|done].
    intros [= <- <-]. exists (heap_of s). simpl.
    pose proof (deep_copy_fresh _ _ _ _ Hc) as Hfresh.
    apply deep_copy_spec in Hc as (t & _ & _ & Hs & Hpre).
    split_and!; [done|done|exact Hwf| |by eexists].
    intros l Hr. by apply (Hfresh h l).
  - destruct (get_try lang namespace s) as [[e|v'] s1] eqn:Htry.
    + apply getResource_try_inl in Htry as [Hpre Hcache].
      intros [= <- <-]. exists (heap_of s1). simpl.
      split; [done|]. split; [by apply prefix_app_r|].
      split; [|split].
      * intros key w Hw. rewrite Hcache in Hw.
        destruct (Hwf key w Hw) as [t Ht]. exists t.
        by eapply stringify_prefix.
      * intros l ->%reach_empty_object. done.
      * rewrite stringify_empty_object. by eexists.
    + intros [= <- <-].
      apply getResource_try_inr in Htry
        as (resources & s1' & s2 & Hl & Hc & Hcache & _ & _ & Hstore).
      apply load_frame in Hl as [Hpre1 Hcache1].
      pose proof (deep_copy_fresh _ _ _ _ Hc) as Hfresh.
      apply deep_copy_spec in Hc as (t & _ & _ & Hs & Hpre3).
      exists (heap_of s2).
      assert (heap_of s1' `prefix_of` heap_of s2 ∧
              ∀ key w, cache s2 !! key = Some w →
                       is_Some (stringify (heap_of s2) w)) as [Hpre2 Hwf2].
      { destruct cacheEnabled.
        - destruct Hstore as (h2 & c & Hc2 & Hh2 & Hcache2).
          apply deep_copy_spec in Hc2 as (t2 & _ & _ & Hs2 & Hpre2).
          rewrite Hh2. split; [done|].
          intros key w. rewrite Hcache2, lookup_insert.
          case_decide.
          + intros [= <-]. by eexists.
          + rewrite Hcache1. intros Hw.
            destruct (Hwf key w Hw) as [tw Htw]. exists tw.
            eapply stringify_prefix; [|exact Htw]. by etrans.
        - subst s2. split; [done|].
          intros key w. rewrite Hcache1. intros Hw.
          destruct (Hwf key w Hw) as [tw Htw]. exists tw.
          by eapply stringify_prefix. }
      split; [by etrans|]. split; [done|].
      split; [by rewrite Hcache|].
      split; [|by eexists].
      intros l Hr. by apply (Hfresh (heap_of s1) l).
Qed.

(** [getResource] keeps the cache well formed, whatever it returns. *)
Lemma getResource_wf lang namespace s r s' :
  cache_wf s → get lang namespace s = (r, s') → cache_wf s'.
Proof.
  intros Hwf Hget. destruct r as [e|v].
  - unfold getResource in Hget.
    destruct (hit (getCacheKey lang namespace) s) as [w|].
    + destruct (deep_copy w (heap_of s)) as [[h c]|]; [done|].
      by injection Hget as _ <-.
    + destruct (get_try lang namespace s) as [[e'|v'] s1]; [|done].
      by destruct (empty_object s1).
  - destruct (getResource_copy _ _ _ _ _ Hwf Hget) as (hm & _ & Hpre & Hc & _).
    intros key w Hw. destruct (Hc key w Hw) as [t Ht].
    exists t. by eapply stringify_prefix.
Qed.

(** A second [getResource] served from the cache: no call of the
    subclass, the same cache, a payload that reads the same. *)
Lemma getResource_again lang namespace s v s' w :
  get lang namespace s = (inr v, s') →
  hit (getCacheKey lang namespace) s' = Some w →
  ∃ v2 s2, get lang namespace s' = (inr v2, s2) ∧
           stringify (heap_of s2) v2 = stringify (heap_of s') v ∧
           cache s2 = cache s' ∧ trace s2 = trace s'.
Proof.
  intros Hget Hhit. rewrite (getResource_hit _ _ _ _ Hhit).
  enough ((∃ h0, deep_copy w h0 = Some (heap_of s', v))
          ∨ (∃ x h0 h1, deep_copy x h0 = Some (h1, w) ∧
                        deep_copy x h1 = Some (heap_of s', v))) as Hcase.
  { destruct Hcase as [[h0 Hc]|(x & h1 & h2 & Hc1 & Hc2)].
    - destruct (deep_copy_again _ _ _ _ (heap_of s') Hc) as (h3 & c' & -> & Hs);
        [done|].
      exists c', (with_heap h3 s'). simpl. by rewrite Hs.
    - apply deep_copy_spec in Hc1 as (t1 & Hx1 & _ & Hw1 & Hp1).
      apply deep_copy_spec in Hc2 as (t2 & Hx2 & _ & Hv2 & Hp2).
      assert (t2 = t1) as ->.
      { rewrite (stringify_prefix _ _ _ _ Hp1 Hx1) in Hx2. congruence. }
      assert (stringify (heap_of s') w = Some t1) as Hw'
        by (by eapply stringify_prefix).
      unfold deep_copy. rewrite Hw'.
      destruct (parse t1 (heap_of s')) as [h3 c'] eqn:Hp.
      exists c', (with_heap h3 s'). simpl.
      by rewrite (stringify_parse _ _ _ _ Hp), Hv2. }
  unfold getResource in Hget.
  destruct (hit (getCacheKey lang namespace) s) as [w0|] eqn:Hhit0.
  - destruct (deep_copy w0 (heap_of s)) as [[h c]|] eqn:Hc; [|done].
    injection Hget as <- <-.
    rewrite (cached_ext _ s) in Hhit by done.
    assert (w0 = w) as -> by congruence.
    left. by exists (heap_of s).
  - destruct (get_try lang namespace s) as [[e|v'] s1] eqn:Htry.
    + apply getResource_try_inl in Htry as [_ Hcache].
      destruct (empty_object s1) as [v0 s0] eqn:He.
      injection Hget as <- <-.
      assert (cache s0 = cache s) as Hc0.
      { unfold empty_object in He. simpl in He. by injection He as <- <-. }
      rewrite (cached_ext _ s) in Hhit by done. congruence.
    + injection Hget as <- <-.
      apply getResource_try_inr in Htry
        as (resources & s1' & s2 & _ & Hc & Hcache & _ & _ & Hstore).
      apply cached_lookup in Hhit as (Hen & Hw & _).
      rewrite Hen in Hstore. destruct Hstore as (h2 & c & Hc2 & Hh2 & Hcache2).
      rewrite Hcache, Hcache2, lookup_insert_eq in Hw. injection Hw as ->.
      right. exists resources, (heap_of s1'), h2. subst h2. by split.
Qed.
End BaseStorageAdapterFacts.

(** ** The HTTP adapter's methods and the heap *)

Lemma materialize_frame t s v s1 :
  materialize t s = (v, s1) →
  heap_of s `prefix_of` heap_of s1 ∧ cache s1 = cache s ∧ trace s1 = trace s ∧
  stringify (heap_of s1) v = Some t.
Proof.
  unfold materialize. pose proof (parse_prefix t (heap_of s)) as Hp.
  destruct (parse t (heap_of s)) as [h v'] eqn:Hparse.
  intros [= <- <-]. simpl in *. split_and!; try done.
  by eapply stringify_parse.
Qed.

Lemma settle_frame p s r s1 :
  settle p s = (r, s1) →
  heap_of s `prefix_of` heap_of s1 ∧ cache s1 = cache s ∧ trace s1 = trace s.
Proof.
  unfold settle. destruct p as [e|t].
  - by intros [= <- <-].
  - destruct (materialize t s) as [v s2] eqn:Hm. intros [= <- <-].
    by apply materialize_frame in Hm as (? & ? & ? & _).
Qed.

Lemma empty_object_frame s v s1 :
  empty_object s = (v, s1) →
  heap_of s `prefix_of` heap_of s1 ∧ cache s1 = cache s ∧ trace s1 = trace s ∧
  stringify (heap_of s1) v = Some (JObject []).
Proof.
  unfold empty_object. simpl. intros [= <- <-]. simpl.
  split_and!; try done; [by apply prefix_app_r|apply stringify_empty_object].
Qed.

Lemma http_load_frame options net lang namespace s r s1 :
  loadResource options net lang namespace s = (r, s1) →
  heap_of s `prefix_of` heap_of s1 ∧ cache s1 = cache s.
Proof.
  unfold loadResource.
  destruct (loadResource_try options net lang namespace (trace s)) as [e tr].
  destruct e as [error|t|promise].
  - destruct (Options.handleError options) as [handler|].
    + intros (? & ? & _)%settle_frame. done.
    + destruct (empty_object _) as [v s2] eqn:He. intros [= <- <-].
      by apply empty_object_frame in He as (? & ? & _).
  - intros (? & ? & _)%settle_frame. done.
  - intros (? & ? & _)%settle_frame. done.
Qed.

Lemma http_persist_frame options net lang namespace data s r s1 :
  persistResource options net lang namespace data s = (r, s1) →
  heap_of s `prefix_of` heap_of s1 ∧ cache s1 = cache s.
Proof.
  unfold persistResource.
  destruct (negb (Options.allowSaving options)); [by intros [= <- <-]|].
  destruct (stringify (heap_of s) data); [|by intros [= <- <-]].
  destruct (fetchWithTimeout _ _ _ _ _) as [[e|response] tr].
  - by intros [= <- <-].
  - by destruct (negb (Response.ok response)); intros [= <- <-].
Qed.

(** ** What a load that succeeds leaves behind *)

Section BaseStorageAdapterReads.
Variable cacheEnabled : bool.
Variable loadResource : string → string → state → outcome jval * state.

Local Abbreviation get := (getResource cacheEnabled loadResource).
Local Abbreviation get_try := (getResource_try cacheEnabled loadResource).
Local Abbreviation hit := (cached cacheEnabled).

(** When the subclass loads a payload reading [t], the caller gets a
    payload reading [t], and with the cache enabled a third copy reading
    [t] is stored under the cache key. *)
Lemma getResource_try_reads lang namespace s resources s1 t :
  loadResource lang namespace s = (inr resources, s1) →
  stringify (heap_of s1) resources = Some t →
  ∃ v s3,
    get_try lang namespace s = (inr v, s3) ∧
    stringify (heap_of s3) v = Some t ∧
    trace s3 = trace s1 ∧
    heap_of s1 `prefix_of` heap_of s3 ∧
    cache s3 =
      (if cacheEnabled
       then <[getCacheKey lang namespace := snd (parse t (heap_of s1))]> (cache s1)
       else cache s1) ∧
    (cacheEnabled = true →
     stringify (heap_of s3) (snd (parse t (heap_of s1))) = Some t).
Proof.
  intros Hl Hs. unfold getResource_try. rewrite Hl.
  destruct cacheEnabled.
  - unfold deep_copy at 1.
    rewrite Hs. destruct (parse t (heap_of s1)) as [h2 c] eqn:Hp. simpl.
    assert (heap_of s1 `prefix_of` h2) as Hpre.
    { pose proof (parse_prefix t (heap_of s1)) as H. by rewrite Hp in H. }
    unfold deep_copy. rewrite (stringify_prefix _ _ _ _ Hpre Hs).
    destruct (parse t h2) as [h3 v] eqn:Hp3.
    assert (h2 `prefix_of` h3) as Hpre3.
    { pose proof (parse_prefix t h2) as H. by rewrite Hp3 in H. }
    exists v, (with_heap h3
      (with_cache (<[getCacheKey lang namespace := c]> (cache s1)) (with_heap h2 s1))).
    simpl. split_and!; try done; [by eapply stringify_parse|by etrans|].
    intros _. eapply stringify_prefix; [exact Hpre3|].
    by eapply stringify_parse.
  - unfold deep_copy.
    rewrite Hs. destruct (parse t (heap_of s1)) as [h3 v] eqn:Hp3.
    assert (heap_of s1 `prefix_of` h3) as Hpre.
    { pose proof (parse_prefix t (heap_of s1)) as H. by rewrite Hp3 in H. }
    exists v, (with_heap h3 s1). simpl.
    split_and!; try done. by eapply stringify_parse.
Qed.

Lemma getResource_miss lang namespace s :
  hit (getCacheKey lang namespace) s = None →
  get lang namespace s =
    match get_try lang namespace s with
    | (inl _, s1) => let '(v, s2) := empty_object s1 in (inr v, s2)
    | (inr v, s1) => (inr v, s1)
    end.
Proof. intros Hmiss. unfold getResource. by rewrite Hmiss. Qed.

(** A cached payload that reads [t] is served as a payload reading [t],
    and the state only grows by the copy. *)
Lemma getResource_hit_reads lang namespace s w t :
  hit (getCacheKey lang namespace) s = Some w →
  stringify (heap_of s) w = Some t →
  ∃ v s1,
    get lang namespace s = (inr v, s1) ∧
    stringify (heap_of s1) v = Some t ∧
    cache s1 = cache s ∧ trace s1 = trace s ∧
    heap_of s `prefix_of` heap_of s1.
Proof.
  intros Hhit Hs. unfold getResource. rewrite Hhit.
  unfold deep_copy. rewrite Hs.
  destruct (parse t (heap_of s)) as [h v] eqn:Hp.
  exists v, (with_heap h s). simpl. split_and!; try done.
  - by eapply stringify_parse.
  - pose proof (parse_prefix t (heap_of s)) as H. by rewrite Hp in H.
Qed.
End BaseStorageAdapterReads.

(** A reference reads as an object or an array, whose value is again a
    reference, hence truthy. *)
Lemma stringify_ref_truthy h l t h0 :
  stringify h (VRef l) = Some t → truthy (snd (parse t h0)) = true.
Proof.
  unfold stringify. destruct (length h) as [|n]; simpl; [done|].
  destruct (h !! l) as [[ps|vs]|]; [| |done].
  - destruct (traverse _ ps) as [fs|]; [|done]. intros [= <-].
    rewrite parse_object. by destruct (parse_props fs h0).
  - destruct (traverse _ vs) as [ts|]; [|done]. intros [= <-].
    rewrite parse_array. by destruct (parse_items ts h0).
Qed.

(** The [catch] clause of [loadResource] without a custom handler: the
    load succeeds with a fresh empty object. *)
Lemma loadResource_swallows options net lang namespace s e tr :
  Options.handleError options = None →
  loadResource_try options net lang namespace (trace s) = (Thrown e, tr) →
  ∃ v s1,
    loadResource options net lang namespace s = (inr v, s1) ∧
    stringify (heap_of s1) v = Some (JObject []) ∧
    trace s1 = tr ∧ cache s1 = cache s.
Proof.
  intros Hnone Htry. unfold loadResource. rewrite Htry, Hnone.
  destruct (empty_object (with_trace tr s)) as [v s1] eqn:He.
  apply empty_object_frame in He as (_ & Hc & Ht & Hs).
  by exists v, s1.
Qed.

(** When the [try] block of [loadResource] throws: the transport rejected,
    or handed over a response that is not ok, or (without a custom parser)
    one whose body does not decode. *)
Lemma loadResource_try_thrown options net lang namespace tr :
  let url := getResourceUrl options lang namespace in
  let init := {| RequestInit.method := Options.getMethod options;
                 RequestInit.headers := Options.headers options;
                 RequestInit.body := None |} in
  ∀ r tr1, fetchWithTimeout options net url init tr = (r, tr1) →
  match r with
  | inl _ => True
  | inr response =>
      Response.ok response = false ∨
      (Options.parseResponse options = None ∧ Response.body response = None)
  end →
  ∃ e, loadResource_try options net lang namespace tr = (Thrown e, tr1).
Proof.
  intros url init r tr1 Hf Hr. unfold loadResource_try.
  fold url. fold init. rewrite Hf.
  destruct r as [e|response]; [by eexists|].
  destruct (Response.ok response) eqn:Hok; simpl; [|by eexists].
  destruct Hr as [|[-> ->]]; [done|]. by eexists.
Qed.

(** ** Well-formedness of the cache is an invariant *)

Lemma cache_wf_grow s s' :
  cache_wf s → heap_of s `prefix_of` heap_of s' →
  (∀ key w, cache s' !! key = Some w →
            cache s !! key = Some w ∨ is_Some (stringify (heap_of s') w)) →
  cache_wf s'.
Proof.
  intros Hwf Hpre Hc key w Hw. destruct (Hc key w Hw) as [Hold|Hnew]; [|done].
  destruct (Hwf key w Hold) as [t Ht]. exists t. by eapply stringify_prefix.
Qed.

Section BaseStorageAdapterInvariant.
Variable cacheEnabled : bool.
Variable persistResource : string → string → jval → state → outcome unit * state.

Hypothesis persist_frame : ∀ lang namespace data s r s1,
  persistResource lang namespace data s = (r, s1) →
  heap_of s `prefix_of` heap_of s1 ∧ cache s1 = cache s.

Lemma saveResource_wf lang namespace data s r s' :
  cache_wf s →
  saveResource cacheEnabled persistResource lang namespace data s = (r, s') →
  cache_wf s'.
Proof.
  intros Hwf. unfold saveResource.
  destruct (persistResource lang namespace data s) as [[e|[]] s0] eqn:Hp;
    apply persist_frame in Hp as [Hpre Hcache].
  - intros [= <- <-]. apply (cache_wf_grow s); [done|done|].
    intros key w. rewrite Hcache. by left.
  - destruct cacheEnabled.
    + destruct (deep_copy data (heap_of s0)) as [[h c]|] eqn:Hc.
      * intros [= <- <-].
        apply deep_copy_spec in Hc as (t & _ & _ & Hs & Hpre2).
        apply (cache_wf_grow s); [done|by etrans|]. simpl.
        intros key w. rewrite lookup_insert, Hcache.
        case_decide; [|by left]. intros [= <-]. right. by exists t.
      * intros [= <- <-]. apply (cache_wf_grow s); [done|done|].
        intros key w. rewrite Hcache. by left.
    + intros [= <- <-]. apply (cache_wf_grow s); [done|done|].
      intros key w. rewrite Hcache. by left.
Qed.
End BaseStorageAdapterInvariant.

Lemma clearCache_wf lang namespace s :
  cache_wf s → cache_wf (clearCache lang namespace s).
Proof.
  intros Hwf key w. unfold clearCache.
  destruct (given lang) as [l|]; [destruct (given namespace) as [n|]|]; simpl.
  - intros [_ Hw]%lookup_delete_Some. by apply (Hwf key).
  - intros [Hw _]%map_lookup_filter_Some. by apply (Hwf key).
  - by rewrite lookup_empty.
Qed.

(** A caller writing to a payload it was handed keeps the cache well
    formed: the state after [getResource], with any cell of the returned
    payload overwritten, is well formed again. *)
Lemma caller_write_wf options net lang namespace s v s' l o :
  cache_wf s →
  http_getResource options net lang namespace s = (inr v, s') →
  reach (heap_of s') v l →
  cache_wf (with_heap (<[l:=o]> (heap_of s')) s').
Proof.
  intros Hwf Hget Hr key w Hw. simpl in *.
  unfold http_getResource in Hget.
  destruct (getResource_copy _ _ (http_load_frame options net) _ _ _ _ _ Hwf Hget)
    as (hm & _ & Hpre & Hcache & Hfresh & _).
  destruct (Hcache key w Hw) as [t Ht]. exists t.
  apply (stringify_frame hm); [|by rewrite length_insert; apply prefix_length|done].
  apply (agree_below_trans _ (length hm) _ (heap_of s')); [lia| |].
  - by apply agree_below_prefix.
  - apply agree_below_insert. by apply Hfresh.
Qed.

(** ** Cache keys *)

Lemma dotless_cons c s :
  dotless (String c s) = true ↔ c ≠ "."%char ∧ dotless s = true.
Proof.
  simpl. rewrite andb_true_iff, negb_true_iff.
  split; intros [Hc Hs]; (split; [|done]).
  - intros ->. by rewrite Ascii.eqb_refl in Hc.
  - by apply Ascii.eqb_neq.
Qed.

Lemma append_empty (s : string) : "" +:+ s = s.
Proof. reflexivity. Qed.

Lemma append_cons c (s t : string) : String c s +:+ t = String c (s +:+ t).
Proof. reflexivity. Qed.

(** The first dot of a key ends the language, when languages have none. *)
Lemma getCacheKey_inj_dotless l1 n1 l2 n2 :
  dotless l1 = true → dotless l2 = true →
  getCacheKey l1 n1 = getCacheKey l2 n2 → l1 = l2 ∧ n1 = n2.
Proof.
  unfold getCacheKey. revert l2.
  induction l1 as [|c1 l1 IH]; intros [|c2 l2] H1 H2 Heq;
    rewrite ?append_cons, ?append_empty in Heq.
  - by injection Heq as ->.
  - apply dotless_cons in H2 as [Hc _]. by injection Heq as <- _.
  - apply dotless_cons in H1 as [Hc _]. by injection Heq as -> _.
  - apply dotless_cons in H1 as [_ H1]. apply dotless_cons in H2 as [_ H2].
    injection Heq as -> Heq. destruct (IH l2 H1 H2 Heq) as [-> ->]. done.
Qed.

Lemma prefix_empty (s : string) : String.prefix "" s = true.
Proof. by destruct s. Qed.

Lemma prefix_cons a b (s1 s2 : string) :
  String.prefix (String a s1) (String b s2) =
    if ascii_dec a b then String.prefix s1 s2 else false.
Proof. reflexivity. Qed.

(** A key starts with a language and a dot exactly when it is a key of
    that language. *)
Lemma prefix_getCacheKey l1 l n :
  dotless l1 = true → dotless l = true →
  String.prefix (l1 +:+ ".") (getCacheKey l n) = true ↔ l = l1.
Proof.
  unfold getCacheKey. revert l.
  induction l1 as [|c1 l1 IH]; intros [|c l] H1 H;
    rewrite ?append_cons, ?append_empty, prefix_cons.
  - destruct (ascii_dec "." "."); [|done]. by rewrite prefix_empty.
  - apply dotless_cons in H as [Hc _].
    destruct (ascii_dec "." c) as [<-|_]; [done|]. split; done.
  - apply dotless_cons in H1 as [Hc _].
    destruct (ascii_dec c1 ".") as [->|_]; [done|]. split; done.
  - apply dotless_cons in H1 as [_ H1]. apply dotless_cons in H as [_ H].
    destruct (ascii_dec c1 c) as [->|Hne].
    + rewrite (IH l H1 H). split; [by intros ->|by intros [= ->]].
    + split; [done|]. intros [= -> _]. done.
Qed.

Section BaseStorageAdapterKeys.
Variable cacheEnabled : bool.
Variable loadResource : string → string → state → outcome jval * state.
Variable persistResource : string → string → jval → state → outcome unit * state.

Hypothesis load_cache : ∀ lang namespace s r s1,
  loadResource lang namespace s = (r, s1) → cache s1 = cache s.
Hypothesis persist_cache : ∀ lang namespace data s r s1,
  persistResource lang namespace data s = (r, s1) → cache s1 = cache s.

(** [getResource] touches the entry under its own key at most. *)
Lemma getResource_cache_other lang namespace s r s' key :
  key ≠ getCacheKey lang namespace →
  getResource cacheEnabled loadResource lang namespace s = (r, s') →
  cache s' !! key = cache s !! key.
Proof.
  intros Hne. unfold getResource.
  destruct (cached cacheEnabled (getCacheKey lang namespace) s) as [w|].
  { destruct (deep_copy w (heap_of s)) as [[h c]|]; by intros [= <- <-]. }
  assert (∀ r1 s1, getResource_try cacheEnabled loadResource lang namespace s
                     = (r1, s1) → cache s1 !! key = cache s !! key) as Htry.
  { intros r1 s1. unfold getResource_try.
    destruct (loadResource lang namespace s) as [[e|resources] s0] eqn:Hl.
    - intros [= <- <-]. by rewrite (load_cache _ _ _ _ _ Hl).
    - apply load_cache in Hl.
      destruct cacheEnabled.
      + destruct (deep_copy resources (heap_of s0)) as [[h2 c]|].
        * simpl. destruct (deep_copy resources h2) as [[h3 c']|];
            intros [= <- <-]; simpl; by rewrite lookup_insert_ne, Hl.
        * intros [= <- <-]. by rewrite Hl.
      + destruct (deep_copy resources (heap_of s0)) as [[h3 c']|];
          intros [= <- <-]; simpl; by rewrite Hl. }
  destruct (getResource_try cacheEnabled loadResource lang namespace s)
    as [[e|v] s1] eqn:Hget.
  - specialize (Htry _ _ eq_refl). intros [= <- <-]. done.
  - specialize (Htry _ _ eq_refl). by intros [= <- <-].
Qed.

(** So does [saveResource]. *)
Lemma saveResource_cache_other lang namespace data s r s' key :
  key ≠ getCacheKey lang namespace →
  saveResource cacheEnabled persistResource lang namespace data s = (r, s') →
  cache s' !! key = cache s !! key.
Proof.
  intros Hne. unfold saveResource.
  destruct (persistResource lang namespace data s) as [[e|[]] s0] eqn:Hp;
    apply persist_cache in Hp.
  - intros [= <- <-]. by rewrite Hp.
  - destruct cacheEnabled.
    + destruct (deep_copy data (heap_of s0)) as [[h c]|]; intros [= <- <-]; simpl.
      * by rewrite lookup_insert_ne, Hp.
      * by rewrite Hp.
    + intros [= <- <-]. by rewrite Hp.
Qed.
End BaseStorageAdapterKeys.

Lemma given_nonempty s : s ≠ "" → given (Some s) = Some s.
Proof.
  intros Hs. unfold given. destruct (String.eqb_spec s ""); [done|done].
Qed.

Lemma clearCache_pair l n s key :
  l ≠ "" → n ≠ "" →
  cache (clearCache (Some l) (Some n) s) !! key =
    if decide (key = getCacheKey l n) then None else cache s !! key.
Proof.
  intros Hl Hn. unfold clearCache. rewrite !given_nonempty by done. simpl.
  case_decide as Hk.
  - subst. apply lookup_delete_eq.
  - by apply lookup_delete_ne.
Qed.

Lemma clearCache_language l s key :
  l ≠ "" →
  cache (clearCache (Some l) None s) !! key =
    if String.prefix (l +:+ ".") key then None else cache s !! key.
Proof.
  intros Hl. unfold clearCache. rewrite given_nonempty by done. simpl.
  destruct (String.prefix (l +:+ ".") key) eqn:Hp.
  - apply map_lookup_filter_None. right. intros w _. simpl. by rewrite Hp.
  - destruct (cache s !! key) as [w|] eqn:Hw.
    + by apply map_lookup_filter_Some.
    + apply map_lookup_filter_None. by left.
Qed.

(** ** C1: payloads cross the boundary as independent copies *)

(** C1, as amended: [getResource] of the base adapter, as the HTTP adapter
    inherits it, returns an independent deep copy.  Whenever it returns a
    payload [v], that payload is a complete document; writing to any cell
    reachable from it changes no cached entry and nothing that was complete
    before the call (an earlier copy, say), and writing to a cell of such
    an earlier value does not change [v]; and when the entry is cached
    afterwards, the next [getResource] returns a payload that reads the
    same. *)
Theorem getResource_returns_independent_copy
    options net lang namespace s v s' :
  cache_wf s →
  http_getResource options net lang namespace s = (inr v, s') →
  is_Some (stringify (heap_of s') v) ∧
  (∀ key w, cache s' !! key = Some w → independent_of (heap_of s') v w) ∧
  (∀ u, is_Some (stringify (heap_of s) u) →
        independent_of (heap_of s') v u ∧ independent_of (heap_of s') u v) ∧
  (∀ w, cached (Options.cacheEnabled options) (getCacheKey lang namespace) s' = Some w →
        ∃ v2 s2, http_getResource options net lang namespace s' = (inr v2, s2) ∧
                 stringify (heap_of s2) v2 = stringify (heap_of s') v).
Proof.
  intros Hwf Hget. unfold http_getResource in *.
  destruct (getResource_copy _ _ (http_load_frame options net) _ _ _ _ _ Hwf Hget)
    as (hm & Hpre1 & Hpre2 & Hcache & Hfresh & [t Ht]).
  split_and!.
  - by exists t.
  - intros key w Hw. destruct (Hcache key w Hw) as [tw Htw].
    apply (independent_above (length hm) hm _ v w tw); try done.
    + by apply agree_below_prefix.
    + by apply prefix_length.
  - intros u [tu Htu].
    assert (stringify hm u = Some tu) as Hu by (by eapply stringify_prefix).
    split.
    + apply (independent_above (length hm) hm _ v u tu); try done.
      * by apply agree_below_prefix.
      * by apply prefix_length.
    + apply (independent_below (length hm) hm _ v u tu t); try done.
      by apply agree_below_prefix.
  - intros w Hw.
    destruct (getResource_again _ _ (http_load_frame options net) _ _ _ _ _ _ Hget Hw)
      as (v2 & s2 & Hget2 & Hsame & _).
    by exists v2, s2.
Qed.

Lemma getResource_returns_independent_copy_witness :
  ∃ v s',
    http_getResource demo_options healthy "en" "translation" initial = (inr v, s') ∧
    is_Some (stringify (heap_of s') v) ∧
    (∀ key w, cache s' !! key = Some w → independent_of (heap_of s') v w) ∧
    (∀ u, is_Some (stringify (heap_of initial) u) →
          independent_of (heap_of s') v u ∧ independent_of (heap_of s') u v) ∧
    (∀ w, cached true (getCacheKey "en" "translation") s' = Some w →
          ∃ v2 s2, http_getResource demo_options healthy "en" "translation" s'
                     = (inr v2, s2) ∧
                   stringify (heap_of s2) v2 = stringify (heap_of s') v).
Proof.
  eexists _, _. split; [vm_compute; reflexivity|].
  apply (getResource_returns_independent_copy demo_options healthy
           "en" "translation" initial).
  - exact cache_wf_initial.
  - vm_compute; reflexivity.
Defined.

(** C1, as stated, fails for [SimpleCache]: [get] hands out the very
    reference [set] stored.  With an object stored under ["k"], writing to
    the object that [get] returned changes what the stored entry reads. *)
Lemma SimpleCache_get_returns_alias :
  let h : heap := [HObject [("a", VNum 1)]] in
  let c : SimpleCache.t string jval :=
    SimpleCache.set 0 "k" (VRef 0) None (SimpleCache.new None) in
  ¬ (∀ v c' i,
       SimpleCache.get 0 "k" c = (Some v, c') →
       SimpleCache.cache c' !! "k" = Some i →
       independent_of h v (SimpleCache.value i)).
Proof.
  intros h c Hcopy.
  specialize (Hcopy (VRef 0) c (SimpleCache.Item (VRef 0) None) eq_refl eq_refl
                0%nat (HObject [("a", VNum 2)]) (reach_here h 0)).
  vm_compute in Hcopy. discriminate.
Qed.

(** ** The retrying transport *)

Section Transport.
Variable options : Options.t.
Variable net : network.

Local Abbreviation fetch_event url init :=
  (EvFetch url init (Options.timeout options)).

Lemma fetch_retry url init retries delay tr :
  retryable_failure options (net tr url init) = true →
  fetchWithTimeout_from options net url init (S retries) delay tr =
    fetchWithTimeout_from options net url init retries
      (if Options.useExponentialBackoff options then delay * 2 else delay)
      ((tr ++ [fetch_event url init]) ++ [EvSleep delay]).
Proof.
  simpl. destruct (net tr url init) as [response|error]; simpl; by intros ->.
Qed.

Lemma fetch_failure_retryable error url :
  isTimeoutError error || isNetworkError error = true →
  surfaces_retryable (inl (Structured (fetch_failure options error url))).
Proof.
  unfold fetch_failure. intros Hr.
  destruct (isTimeoutError error); simpl; [by auto|].
  simpl in Hr. rewrite Hr. simpl. by auto.
Qed.

Lemma fetch_last url init delay tr :
  retryable_failure options (net tr url init) = true →
  ∃ r, fetchWithTimeout_from options net url init 0 delay tr
         = (r, tr ++ [fetch_event url init]) ∧
       surfaces_retryable r.
Proof.
  simpl. destruct (net tr url init) as [response|error]; simpl; intros Hr.
  - exists (inr response). split; [done|].
    apply andb_prop in Hr as [[_ Hok%negb_true_iff]%andb_prop Hst]. done.
  - eexists. split; [done|]. by apply fetch_failure_retryable.
Qed.

(** With every attempt failing retryably, a call with [retries] retries
    left makes [retries + 1] attempts, waits between them as configured,
    and only then hands the failure over. *)
Lemma fetch_exhausts url init retries :
  (∀ tr, retryable_failure options (net tr url init) = true) →
  ∀ delay tr,
  ∃ r, fetchWithTimeout_from options net url init retries delay tr
         = (r, tr ++ exhausted (fetch_event url init)
                       (Options.useExponentialBackoff options) retries delay) ∧
       surfaces_retryable r.
Proof.
  intros Hfail. induction retries as [|retries IH]; intros delay tr.
  - by apply fetch_last.
  - rewrite fetch_retry by done.
    destruct (IH (if Options.useExponentialBackoff options
                  then delay * 2 else delay)
                 ((tr ++ [fetch_event url init]) ++ [EvSleep delay]))
      as (r & -> & Hr).
    exists r. split; [|done]. simpl.
    by rewrite <- !app_assoc.
Qed.

Lemma attempts_app tr1 tr2 :
  attempts (tr1 ++ tr2) = (attempts tr1 + attempts tr2)%nat.
Proof. unfold attempts. by rewrite filter_app, length_app. Qed.

Lemma waits_app tr1 tr2 : waits (tr1 ++ tr2) = waits tr1 ++ waits tr2.
Proof. unfold waits. apply omap_app. Qed.
End Transport.

(** C2: with [maxRetries = 3], [retryDelay = 300] and exponential backoff,
    a call whose every attempt fails retryably makes exactly four
    attempts, waits 300, 600 and 1200 ms between them, and only then
    surfaces the failure. *)
Theorem fetchWithTimeout_exhausts_budget options net url init tr :
  Options.maxRetries options = Some 3 →
  Options.retryDelay options = Some 300 →
  Options.useExponentialBackoff options = true →
  (∀ tr', retryable_failure options (net tr' url init) = true) →
  ∃ r,
    fetchWithTimeout options net url init tr =
      (r, tr ++ [EvFetch url init (Options.timeout options); EvSleep 300;
                 EvFetch url init (Options.timeout options); EvSleep 600;
                 EvFetch url init (Options.timeout options); EvSleep 1200;
                 EvFetch url init (Options.timeout options)]) ∧
    surfaces_retryable r ∧
    attempts (snd (fetchWithTimeout options net url init tr)) = (attempts tr + 4)%nat ∧
    waits (snd (fetchWithTimeout options net url init tr)) = waits tr ++ [300; 600; 1200].
Proof.
  intros Hmax Hdelay Hbackoff Hfail.
  unfold fetchWithTimeout, fetchWithTimeout_at. rewrite Hmax, Hdelay. simpl.
  destruct (fetch_exhausts options net url init 3 Hfail 300 tr) as (r & Hr & Hsurf).
  rewrite Hbackoff in Hr. simpl in Hr.
  change (Z.to_nat 3) with 3%nat. rewrite Hr. simpl.
  exists r. split_and!; [done|done| |].
  - by rewrite attempts_app.
  - by rewrite waits_app.
Qed.

Lemma fetchWithTimeout_exhausts_budget_witness :
  ∃ r,
    fetchWithTimeout demo_options always_503 "u" demo_init [] =
      (r, [] ++ [EvFetch "u" demo_init (Some 5000); EvSleep 300;
                 EvFetch "u" demo_init (Some 5000); EvSleep 600;
                 EvFetch "u" demo_init (Some 5000); EvSleep 1200;
                 EvFetch "u" demo_init (Some 5000)]) ∧
    surfaces_retryable r ∧
    attempts (snd (fetchWithTimeout demo_options always_503 "u" demo_init [])) = (0 + 4)%nat ∧
    waits (snd (fetchWithTimeout demo_options always_503 "u" demo_init [])) = [] ++ [300; 600; 1200].
Proof.
  apply (fetchWithTimeout_exhausts_budget demo_options always_503 "u" demo_init []);
    reflexivity.
Defined.

(** C3, as stated, fails: for status 429 the classifier does not answer
    with kind [too_many_requests] and [retryable = true]. *)
Lemma createHttpError_429_not_too_many_requests :
  ¬ (HttpErrorType_value (HttpAdapterError.type (createHttpError 429 "m" "u"))
       = "too_many_requests" ∧
     HttpAdapterError.retryable (createHttpError 429 "m" "u") = true).
Proof. intros [Hkind _]. vm_compute in Hkind. discriminate. Qed.

(** C3, as amended: no member of [HttpErrorType] is [too_many_requests];
    for status 429 [createHttpError] answers with kind [unknown] and the
    status; and the transport counts 429 among the statuses it retries:
    with status handling on and a retry left, a 429 is followed by the wait
    and the next attempt. *)
Theorem status_429_is_unknown_and_retried options net :
  (∀ t, HttpErrorType_value t ≠ "too_many_requests") ∧
  (∀ message url,
     HttpAdapterError.type (createHttpError 429 message url) = UNKNOWN ∧
     HttpAdapterError.status (createHttpError 429 message url) = Some 429) ∧
  isRetryableStatusCode 429 = true ∧
  (∀ url init retries delay tr response,
     Options.autoHandleStatusErrors options = true →
     net tr url init = Resolved response →
     Response.status response = 429 →
     fetchWithTimeout_from options net url init (S retries) delay tr =
       fetchWithTimeout_from options net url init retries
         (if Options.useExponentialBackoff options then delay * 2 else delay)
         ((tr ++ [EvFetch url init (Options.timeout options)]) ++ [EvSleep delay])).
Proof.
  split_and!.
  - by intros [].
  - done.
  - done.
  - intros url init retries delay tr response Hauto Hnet Hst.
    apply fetch_retry. rewrite Hnet. simpl.
    unfold Response.ok. by rewrite Hauto, Hst.
Qed.

Lemma status_429_is_unknown_and_retried_witness :
  fetchWithTimeout_from demo_options always_429 "u" demo_init 1 300 [] =
    fetchWithTimeout_from demo_options always_429 "u" demo_init 0 600
      (([] ++ [EvFetch "u" demo_init (Some 5000)]) ++ [EvSleep 300]).
Proof.
  exact (proj2 (proj2 (proj2
    (status_429_is_unknown_and_retried demo_options always_429)))
    "u" demo_init 0%nat 300 []
    {| Response.status := 429; Response.statusText := "Too Many Requests";
       Response.body := None |} eq_refl eq_refl eq_refl).
Defined.

(** C4: a request answered with status 404 costs exactly one attempt,
    whatever retries and delay remain: the transport hands the response
    over at once; [createHttpError] classifies it as [not_found], not
    retryable; and that is the error [loadResource] and [persistResource]
    raise for it. *)
Theorem status_404_is_not_retried options net :
  (∀ url init retries delay tr response,
     net tr url init = Resolved response →
     Response.status response = 404 →
     fetchWithTimeout_at options net url init retries delay tr =
       (inr response, tr ++ [EvFetch url init (Options.timeout options)])) ∧
  (∀ message url,
     HttpAdapterError.type (createHttpError 404 message url) = NOT_FOUND ∧
     HttpAdapterError.retryable (createHttpError 404 message url) = false ∧
     HttpAdapterError.status (createHttpError 404 message url) = Some 404) ∧
  (∀ lang namespace tr response,
     net tr (getResourceUrl options lang namespace)
       {| RequestInit.method := Options.getMethod options;
          RequestInit.headers := Options.headers options;
          RequestInit.body := None |} = Resolved response →
     Response.status response = 404 →
     ∃ e tr',
       loadResource_try options net lang namespace tr = (Thrown (Structured e), tr') ∧
       attempts tr' = (attempts tr + 1)%nat ∧ waits tr' = waits tr ∧
       HttpAdapterError.type e = NOT_FOUND ∧
       HttpAdapterError.retryable e = false) ∧
  (∀ lang namespace data s body response,
     Options.allowSaving options = true →
     stringify (heap_of s) data = Some body →
     net (trace s) (getResourceUrl options lang namespace)
       {| RequestInit.method := Options.saveMethod options;
          RequestInit.headers :=
            Some (spread [("Content-Type", "application/json")]
                    (Options.headers options));
          RequestInit.body := Some body |} = Resolved response →
     Response.status response = 404 →
     ∃ e s',
       persistResource options net lang namespace data s = (inl (Structured e), s') ∧
       attempts (trace s') = (attempts (trace s) + 1)%nat ∧
       waits (trace s') = waits (trace s) ∧
       HttpAdapterError.type e = NOT_FOUND ∧
       HttpAdapterError.retryable e = false).
Proof.
  assert (∀ url init retries delay tr response,
     net tr url init = Resolved response →
     Response.status response = 404 →
     fetchWithTimeout_at options net url init retries delay tr =
       (inr response, tr ++ [EvFetch url init (Options.timeout options)])) as Hone.
  { intros url init retries delay tr response Hnet Hst.
    unfold fetchWithTimeout_at.
    destruct (Z.to_nat retries) as [|k]; simpl; rewrite Hnet; [done|].
    unfold Response.ok. rewrite Hst. simpl. by rewrite andb_false_r. }
  split_and!; [exact Hone|done| |].
  - intros lang namespace tr response Hnet Hst.
    unfold loadResource_try, fetchWithTimeout.
    rewrite (Hone _ _ _ _ _ _ Hnet Hst).
    unfold Response.ok. rewrite Hst. simpl.
    eexists _, _. split; [done|].
    rewrite attempts_app, waits_app. simpl. by rewrite app_nil_r.
  - intros lang namespace data s body response Hallow Hbody Hnet Hst.
    unfold persistResource, fetchWithTimeout.
    rewrite Hallow, Hbody. simpl.
    rewrite (Hone _ _ _ _ _ _ Hnet Hst).
    unfold Response.ok. rewrite Hst. simpl.
    eexists _, _. split; [done|]. simpl.
    rewrite attempts_app, waits_app. simpl. by rewrite app_nil_r.
Qed.

Lemma status_404_is_not_retried_witness :
  fetchWithTimeout_at demo_options always_404 "u" demo_init 3 300 [] =
    (inr {| Response.status := 404; Response.statusText := "Not Found";
            Response.body := None |},
     [] ++ [EvFetch "u" demo_init (Some 5000)]) ∧
  ∃ e tr',
    loadResource_try demo_options always_404 "fr" "translation" [] =
      (Thrown (Structured e), tr') ∧
    attempts tr' = (attempts [] + 1)%nat ∧ waits tr' = waits [] ∧
    HttpAdapterError.type e = NOT_FOUND ∧
    HttpAdapterError.retryable e = false.
Proof.
  split.
  - exact (proj1 (status_404_is_not_retried demo_options always_404)
             "u" demo_init 3 300 [] _ eq_refl eq_refl).
  - exact (proj1 (proj2 (proj2 (status_404_is_not_retried demo_options always_404)))
             "fr" "translation" [] _ eq_refl eq_refl).
Defined.

(** ** The resource client *)

(** C5: read paths degrade to empty results.  Without a custom error
    handler, a [getResource] whose fetch fails (the [try] block of
    [loadResource] throws, for whatever reason) returns a payload reading
    [{}] instead of rejecting; [getLanguages] and [getNamespaces] return
    the empty list whenever their [try] block throws. *)
Theorem read_paths_degrade_to_empty options net s :
  (∀ lang namespace e tr,
     Options.handleError options = None →
     cached (Options.cacheEnabled options) (getCacheKey lang namespace) s = None →
     loadResource_try options net lang namespace (trace s) = (Thrown e, tr) →
     ∃ v s', http_getResource options net lang namespace s = (inr v, s') ∧
             stringify (heap_of s') v = Some (JObject []) ∧
             trace s' = tr) ∧
  (∀ e tr,
     list_try options net (Options.languagesUrl options) "languages"
       "获取语言列表失败" (trace s) = (inl e, tr) →
     getLanguages options net s = ([], with_trace tr s)) ∧
  (∀ e tr,
     list_try options net (Options.namespacesUrl options) "namespaces"
       "获取命名空间列表失败" (trace s) = (inl e, tr) →
     getNamespaces options net s = ([], with_trace tr s)).
Proof.
  split_and!.
  - intros lang namespace e tr Hnone Hmiss Htry.
    destruct (loadResource_swallows _ _ _ _ _ _ _ Hnone Htry)
      as (v0 & s1 & Hload & Hs & Htr & _).
    destruct (getResource_try_reads (Options.cacheEnabled options) _ _ _ _ _ _ _
                Hload Hs) as (v & s3 & Hget & Hv & Htr3 & _).
    exists v, s3. unfold http_getResource.
    rewrite (getResource_miss _ _ _ _ _ Hmiss), Hget.
    split_and!; [done|done|congruence].
  - intros e tr Htry. unfold getLanguages. by rewrite Htry.
  - intros e tr Htry. unfold getNamespaces. by rewrite Htry.
Qed.

Lemma read_paths_degrade_to_empty_witness :
  (∃ v s', http_getResource demo_options always_404 "fr" "translation" initial
             = (inr v, s') ∧
           stringify (heap_of s') v = Some (JObject []) ∧
           trace s' = [EvFetch "https://api.example.com/i18n/resources/fr/translation"
                         demo_init (Some 5000)]) ∧
  getLanguages demo_options always_404 initial =
    ([], with_trace [EvFetch "https://api.example.com/i18n/languages"
                       demo_init (Some 5000)] initial).
Proof.
  split.
  - eapply (proj1 (read_paths_degrade_to_empty demo_options always_404 initial));
      vm_compute; reflexivity.
  - eapply (proj1 (proj2 (read_paths_degrade_to_empty demo_options always_404 initial)));
      vm_compute; reflexivity.
Defined.

(** C6: with [allowSaving] off, [saveResource] rejects with the
    configuration error and leaves the whole state as it was: no network
    event, no change to the cache. *)
Theorem saveResource_requires_allowSaving options net lang namespace data s :
  Options.allowSaving options = false →
  http_saveResource options net lang namespace data s = (inl saving_disabled, s).
Proof.
  intros Hoff. unfold http_saveResource, saveResource, persistResource.
  by rewrite Hoff.
Qed.

Lemma saveResource_requires_allowSaving_witness :
  http_saveResource demo_options healthy "en" "t" (VRef 0) one_object
    = (inl saving_disabled, one_object).
Proof.
  apply (saveResource_requires_allowSaving demo_options healthy "en" "t"
           (VRef 0) one_object).
  reflexivity.
Defined.

Lemma persistResource_heap options net lang namespace data s r s1 :
  persistResource options net lang namespace data s = (r, s1) →
  heap_of s1 = heap_of s ∧ cache s1 = cache s.
Proof.
  unfold persistResource.
  destruct (negb (Options.allowSaving options)); [by intros [= <- <-]|].
  destruct (stringify (heap_of s) data); [|by intros [= <- <-]].
  destruct (fetchWithTimeout _ _ _ _ _) as [[e|response] tr].
  - by intros [= <- <-].
  - by destruct (negb (Response.ok response)); intros [= <- <-].
Qed.

(** C7: write-through.  With the cache enabled, after a [saveResource] of
    an object that succeeded, [getResource] for the same pair returns a
    payload that reads as the saved one did, leaves the cache as it is, and
    adds nothing to the network trace. *)
Theorem saveResource_then_getResource options net lang namespace l s s1 :
  Options.cacheEnabled options = true →
  http_saveResource options net lang namespace (VRef l) s = (inr (), s1) →
  ∃ t v s2,
    stringify (heap_of s) (VRef l) = Some t ∧
    http_getResource options net lang namespace s1 = (inr v, s2) ∧
    stringify (heap_of s2) v = Some t ∧
    trace s2 = trace s1 ∧ cache s2 = cache s1.
Proof.
  intros Hen. unfold http_saveResource, saveResource. rewrite Hen.
  destruct (persistResource options net lang namespace (VRef l) s)
    as [[e|[]] s0] eqn:Hp; [done|].
  apply persistResource_heap in Hp as [Hheap Hcache].
  destruct (deep_copy (VRef l) (heap_of s0)) as [[h copy]|] eqn:Hc; [|done].
  intros [= <-].
  apply deep_copy_spec in Hc as (t & Hs & Hparse & Hcopy & _).
  rewrite Hheap in Hs.
  assert (truthy copy = true) as Htruthy.
  { pose proof (stringify_ref_truthy _ _ _ (heap_of s0) Hs) as H.
    by rewrite Hparse in H. }
  destruct (getResource_hit_reads true (loadResource options net) lang namespace
              (with_cache (<[getCacheKey lang namespace := copy]> (cache s0))
                 (with_heap h s0)) copy t)
    as (v & s2 & Hget & Hv & Hc2 & Htr & _).
  { unfold cached. simpl. by rewrite lookup_insert_eq, Htruthy. }
  { done. }
  exists t, v, s2. unfold http_getResource. rewrite Hen. done.
Qed.

Lemma saveResource_then_getResource_witness :
  ∃ s1,
    http_saveResource saving_options healthy "en" "t" (VRef 0) one_object = (inr (), s1) ∧
    ∃ t v s2,
      stringify (heap_of one_object) (VRef 0) = Some t ∧
      http_getResource saving_options healthy "en" "t" s1 = (inr v, s2) ∧
      stringify (heap_of s2) v = Some t ∧
      trace s2 = trace s1 ∧ cache s2 = cache s1.
Proof.
  eexists. split; [vm_compute; reflexivity|].
  apply (saveResource_then_getResource saving_options healthy "en" "t" 0 one_object).
  - reflexivity.
  - vm_compute; reflexivity.
Defined.

(** Once a pair's entry reads [{}], every [getResource] for it is served
    from the cache. *)
Lemma getResource_times_empty options net lang namespace n :
  ∀ s w,
    cached (Options.cacheEnabled options) (getCacheKey lang namespace) s = Some w →
    stringify (heap_of s) w = Some (JObject []) →
    ∃ s2, getResource_times options net n lang namespace s
            = (replicate n (Some (JObject [])), s2) ∧
          trace s2 = trace s ∧ cache s2 = cache s.
Proof.
  induction n as [|n IH]; intros s w Hhit Hw; simpl.
  - by exists s.
  - destruct (getResource_hit_reads _ (loadResource options net) _ _ _ _ _ Hhit Hw)
      as (v & s1 & Hget & Hv & Hc & Htr & Hpre).
    unfold http_getResource. rewrite Hget, Hv.
    destruct (IH s1 w) as (s2 & Htimes & Htr2 & Hc2).
    { by rewrite (cached_ext _ _ s s1). }
    { by eapply stringify_prefix. }
    unfold http_getResource in Htimes. rewrite Htimes.
    exists s2. split_and!; [done|congruence|congruence].
Qed.

(** C10: with the cache enabled and no custom error handler, a
    [getResource] whose fetch fails returns [{}] and stores an entry
    reading [{}] under the pair's key; from then on any number of
    [getResource] calls for the pair return [{}], add nothing to the
    network trace and leave the cache as it is. *)
Theorem failed_fetch_is_cached_as_empty options net lang namespace s e tr :
  Options.cacheEnabled options = true →
  Options.handleError options = None →
  cached true (getCacheKey lang namespace) s = None →
  loadResource_try options net lang namespace (trace s) = (Thrown e, tr) →
  ∃ v s1,
    http_getResource options net lang namespace s = (inr v, s1) ∧
    stringify (heap_of s1) v = Some (JObject []) ∧
    trace s1 = tr ∧
    (∃ w, cache s1 !! getCacheKey lang namespace = Some w ∧
          stringify (heap_of s1) w = Some (JObject [])) ∧
    ∀ n, ∃ s2,
      getResource_times options net n lang namespace s1
        = (replicate n (Some (JObject [])), s2) ∧
      trace s2 = tr ∧ cache s2 = cache s1.
Proof.
  intros Hen Hnone Hmiss Htry.
  destruct (loadResource_swallows _ _ _ _ _ _ _ Hnone Htry)
    as (v0 & s0 & Hload & Hs & Htr & _).
  destruct (getResource_try_reads true _ _ _ _ _ _ _ Hload Hs)
    as (v & s1 & Hget & Hv & Htr1 & Hpre & Hcache & Hstored).
  exists v, s1. unfold http_getResource. rewrite Hen.
  rewrite (getResource_miss _ _ _ _ _ Hmiss), Hget.
  set (w := snd (parse (JObject []) (heap_of s0))) in *.
  assert (cache s1 !! getCacheKey lang namespace = Some w) as Hw
    by (by rewrite Hcache, lookup_insert_eq).
  assert (stringify (heap_of s1) w = Some (JObject [])) as Hsw
    by (by apply Hstored).
  split_and!; [done|done|congruence|by exists w|].
  intros n.
  destruct (getResource_times_empty options net lang namespace n s1 w)
    as (s2 & Htimes & Htr2 & Hc2).
  { rewrite Hen. unfold cached. by rewrite Hw. }
  { done. }
  exists s2. split_and!; [done|congruence|done].
Qed.

Lemma failed_fetch_is_cached_as_empty_witness :
  ∃ v s1,
    http_getResource demo_options always_404 "fr" "translation" initial = (inr v, s1) ∧
    stringify (heap_of s1) v = Some (JObject []) ∧
    trace s1 = [EvFetch "https://api.example.com/i18n/resources/fr/translation"
                  demo_init (Some 5000)] ∧
    (∃ w, cache s1 !! getCacheKey "fr" "translation" = Some w ∧
          stringify (heap_of s1) w = Some (JObject [])) ∧
    ∀ n, ∃ s2,
      getResource_times demo_options always_404 n "fr" "translation" s1
        = (replicate n (Some (JObject [])), s2) ∧
      trace s2 = [EvFetch "https://api.example.com/i18n/resources/fr/translation"
                    demo_init (Some 5000)] ∧
      cache s2 = cache s1.
Proof.
  eapply (failed_fetch_is_cached_as_empty demo_options always_404
            "fr" "translation" initial);
    vm_compute; reflexivity.
Defined.

(** ** Expiry in SimpleCache *)

(** C8, as stated, fails where the time to live is omitted: the entry then
    takes the cache's default, here one second, and is gone after it. *)
Lemma SimpleCache_omitted_ttl_expires :
  let c : SimpleCache.t string Z :=
    SimpleCache.set 0 "k" 42 None (SimpleCache.new (Some 1000)) in
  ¬ (∀ t, fst (SimpleCache.get t "k" c) = Some 42).
Proof. intros c Hnever. specialize (Hnever 1001). vm_compute in Hnever. discriminate. Qed.

(** C8, as amended: after [set(k, v, 500)] at time [now], a [get] before
    [now + 500] returns [v] and changes nothing, a [get] after [now + 500]
    returns nothing and removes the entry; an entry set with a time to
    live of 0 never expires; an entry set without one takes the cache's
    [defaultMaxAge]: it never expires when that is 0 (the constructor's
    default) or less, and is gone once more than that time has passed
    otherwise. *)
Theorem SimpleCache_expiry `{Countable K} {V : Type}
    (c : SimpleCache.t K V) (now : Z) (k : K) (v : V) :
  (∀ t, t < now + 500 →
     SimpleCache.get t k (SimpleCache.set now k v (Some 500) c)
       = (Some v, SimpleCache.set now k v (Some 500) c)) ∧
  (∀ t, now + 500 < t →
     ∃ c', SimpleCache.get t k (SimpleCache.set now k v (Some 500) c) = (None, c') ∧
           SimpleCache.cache c' !! k = None) ∧
  (∀ t, SimpleCache.get t k (SimpleCache.set now k v (Some 0) c)
          = (Some v, SimpleCache.set now k v (Some 0) c)) ∧
  (∀ t, SimpleCache.defaultMaxAge c ≤ 0 →
     SimpleCache.get t k (SimpleCache.set now k v None c)
       = (Some v, SimpleCache.set now k v None c)) ∧
  (∀ t, 0 < SimpleCache.defaultMaxAge c → now + SimpleCache.defaultMaxAge c < t →
     fst (SimpleCache.get t k (SimpleCache.set now k v None c)) = None).
Proof.
  split_and!.
  - intros t Ht. unfold SimpleCache.get, SimpleCache.set. simpl.
    rewrite lookup_insert_eq. unfold SimpleCache.expired. simpl.
    by rewrite (proj2 (Z.ltb_ge _ _)) by lia.
  - intros t Ht. unfold SimpleCache.get, SimpleCache.set. simpl.
    rewrite lookup_insert_eq. unfold SimpleCache.expired. simpl.
    rewrite (proj2 (Z.ltb_lt _ _)) by lia.
    eexists. split; [done|]. simpl. apply lookup_delete_eq.
  - intros t. unfold SimpleCache.get, SimpleCache.set. simpl.
    by rewrite lookup_insert_eq.
  - intros t Hd. unfold SimpleCache.get, SimpleCache.set. simpl.
    rewrite lookup_insert_eq. unfold SimpleCache.expired. simpl.
    by rewrite (proj2 (Z.ltb_ge _ _)) by lia.
  - intros t Hd Ht. unfold SimpleCache.get, SimpleCache.set. simpl.
    rewrite lookup_insert_eq. unfold SimpleCache.expired. simpl.
    rewrite (proj2 (Z.ltb_lt 0 _)) by lia. simpl.
    by rewrite (proj2 (Z.ltb_lt _ _)) by lia.
Qed.

Lemma SimpleCache_expiry_witness :
  let c : SimpleCache.t string Z := SimpleCache.new None in
  SimpleCache.get 499 "k" (SimpleCache.set 0 "k" 42 (Some 500) c)
    = (Some 42, SimpleCache.set 0 "k" 42 (Some 500) c) ∧
  (∃ c', SimpleCache.get 501 "k" (SimpleCache.set 0 "k" 42 (Some 500) c) = (None, c') ∧
         SimpleCache.cache c' !! "k" = None) ∧
  SimpleCache.get 1000000 "k" (SimpleCache.set 0 "k" 42 None c)
    = (Some 42, SimpleCache.set 0 "k" 42 None c).
Proof.
  intros c.
  pose proof (SimpleCache_expiry c 0 "k" 42) as (Hbefore & Hafter & _ & Hdefault & _).
  split_and!.
  - apply Hbefore. lia.
  - apply Hafter. lia.
  - apply Hdefault. simpl. lia.
Defined.

(** ** Cache keys of distinct resources *)

(** C9, as stated, fails: the key is the language, a dot and the
    namespace, so two distinct pairs that only differ in where the dot
    falls share one cache key, hence one entry. *)
Lemma getCacheKey_not_injective :
  ("a.b", "c") ≠ ("a", "b.c") ∧ getCacheKey "a.b" "c" = getCacheKey "a" "b.c".
Proof. split; [discriminate|reflexivity]. Qed.

(** C9, as amended: among pairs whose language has no dot, distinct pairs
    have distinct cache keys; a lookup for one pair does not depend on the
    entry of the other; [getResource], [saveResource] and, for a non-empty
    language and namespace, [clearCache(lang, namespace)] for one pair leave
    the entry of the other as it is; and [clearCache(lang)] for a non-empty
    language removes the entries of that language and no other. *)
Theorem cache_keys_of_dotless_languages options net l1 n1 l2 n2 s :
  dotless l1 = true → dotless l2 = true → (l1, n1) ≠ (l2, n2) →
  getCacheKey l1 n1 ≠ getCacheKey l2 n2 ∧
  (∀ w, cached (Options.cacheEnabled options) (getCacheKey l1 n1)
          (with_cache (<[getCacheKey l2 n2 := w]> (cache s)) s)
        = cached (Options.cacheEnabled options) (getCacheKey l1 n1) s) ∧
  (∀ r s', http_getResource options net l1 n1 s = (r, s') →
           cache s' !! getCacheKey l2 n2 = cache s !! getCacheKey l2 n2) ∧
  (∀ data r s', http_saveResource options net l1 n1 data s = (r, s') →
                cache s' !! getCacheKey l2 n2 = cache s !! getCacheKey l2 n2) ∧
  (l1 ≠ "" → n1 ≠ "" →
   cache (http_clearCache (Some l1) (Some n1) s) !! getCacheKey l2 n2
     = cache s !! getCacheKey l2 n2) ∧
  (l1 ≠ "" →
   cache (http_clearCache (Some l1) None s) !! getCacheKey l1 n1 = None ∧
   cache (http_clearCache (Some l1) None s) !! getCacheKey l2 n2
     = if decide (l2 = l1) then None else cache s !! getCacheKey l2 n2).
Proof.
  intros H1 H2 Hne.
  assert (getCacheKey l1 n1 ≠ getCacheKey l2 n2) as Hkey.
  { intros Heq. destruct (getCacheKey_inj_dotless _ _ _ _ H1 H2 Heq) as [-> ->].
    done. }
  split_and!.
  - done.
  - intros w. unfold cached. simpl. by rewrite lookup_insert_ne.
  - intros r s' Hget. unfold http_getResource in Hget.
    eapply getResource_cache_other; [|by apply not_eq_sym|exact Hget].
    intros lang namespace s0 r0 s1 Hl. by apply http_load_frame in Hl as [_ ?].
  - intros data r s' Hsave. unfold http_saveResource in Hsave.
    eapply saveResource_cache_other; [|by apply not_eq_sym|exact Hsave].
    intros lang namespace d s0 r0 s1 Hp. by apply persistResource_heap in Hp as [_ ?].
  - intros Hl Hn. unfold http_clearCache.
    rewrite clearCache_pair by done. case_decide; [by subst|done].
  - intros Hl. unfold http_clearCache. rewrite !clearCache_language by done.
    split.
    + by rewrite (proj2 (prefix_getCacheKey l1 l1 n1 H1 H1)).
    + case_decide as Hl2.
      * by rewrite (proj2 (prefix_getCacheKey l1 l2 n2 H1 H2)).
      * destruct (String.prefix (l1 +:+ ".") (getCacheKey l2 n2)) eqn:Hp; [|done].
        by apply prefix_getCacheKey in Hp.
Qed.

Lemma cache_keys_of_dotless_languages_witness :
  getCacheKey "en" "common" ≠ getCacheKey "zh-CN" "translation" ∧
  cache (http_clearCache (Some "en") (Some "common") initial)
    !! getCacheKey "zh-CN" "translation"
    = cache initial !! getCacheKey "zh-CN" "translation" ∧
  cache (http_clearCache (Some "en") None initial) !! getCacheKey "en" "common" = None.
Proof.
  pose proof (cache_keys_of_dotless_languages demo_options healthy
                "en" "common" "zh-CN" "translation" initial
                eq_refl eq_refl) as (Hkey & _ & _ & _ & Hpair & Hlang).
  { discriminate. }
  split_and!.
  - exact Hkey.
  - apply Hpair; discriminate.
  - apply Hlang. discriminate.
Defined.

(** ** More about SimpleCache *)

Section SimpleCacheFacts.
Context `{Countable K} {V : Type}.
Implicit Types (c : SimpleCache.t K V) (k : K) (v : V).

(** Reading a key just set: the entry is there unless its time to live is
    positive and has run out. *)
Lemma SimpleCache_get_set c now k v maxAge t :
  fst (SimpleCache.get t k (SimpleCache.set now k v maxAge c)) =
    if (0 <? effective_ttl maxAge c) && (now + effective_ttl maxAge c <? t)
    then None else Some v.
Proof.
  unfold SimpleCache.get, SimpleCache.set, effective_ttl. simpl.
  rewrite lookup_insert_eq. unfold SimpleCache.expired. simpl.
  destruct maxAge as [m|]; simpl.
  - destruct (0 <? m); simpl; [|done]. by destruct (now + m <? t).
  - destruct (0 <? SimpleCache.defaultMaxAge c); simpl; [|done].
    by destruct (now + SimpleCache.defaultMaxAge c <? t).
Qed.

(** X1: an entry set with a positive time to live is served up to and
    including the instant it expires and never after; one set with a time
    to live of zero or less is served forever.  The time to live is the
    argument of [set], or the cache's default when the argument is
    omitted. *)
Theorem SimpleCache_get_after_set c now k v maxAge t :
  fst (SimpleCache.get t k (SimpleCache.set now k v maxAge c)) =
    if (0 <? effective_ttl maxAge c) && (now + effective_ttl maxAge c <? t)
    then None else Some v.
Proof. exact (SimpleCache_get_set c now k v maxAge t). Qed.


(** X3: [set] on one key changes nothing for another key, and a second
    [set] on the same key replaces the first altogether, its expiry
    included: only the last time to live counts. *)
Theorem SimpleCache_set_frame c now k v maxAge :
  (∀ k' t, k' ≠ k →
     fst (SimpleCache.get t k' (SimpleCache.set now k v maxAge c))
       = fst (SimpleCache.get t k' c)) ∧
  (∀ now' v' maxAge',
     SimpleCache.set now' k v' maxAge' (SimpleCache.set now k v maxAge c)
       = SimpleCache.set now' k v' maxAge' c).
Proof.
  split.
  - intros k' t Hne. unfold SimpleCache.get, SimpleCache.set. simpl.
    rewrite lookup_insert_ne by done.
    destruct (SimpleCache.cache c !! k') as [i|]; [|done].
    by destruct (SimpleCache.expired t i).
  - intros now' v' maxAge'. unfold SimpleCache.set. simpl.
    by rewrite insert_insert_eq.
Qed.

(** X4: [delete] reports whether the map held the key, whether or not the
    entry had expired: for an expired entry that no read has evicted yet
    it answers true although [has] answers false.  After it the key is
    absent at every instant, and no other key is touched. *)
Theorem SimpleCache_delete c k :
  (fst (SimpleCache.delete k c) = true ↔ is_Some (SimpleCache.cache c !! k)) ∧
  (∀ i t, SimpleCache.cache c !! k = Some i → SimpleCache.expired t i = true →
          fst (SimpleCache.has t k c) = false ∧ fst (SimpleCache.delete k c) = true) ∧
  (∀ t, SimpleCache.get t k (snd (SimpleCache.delete k c))
          = (None, snd (SimpleCache.delete k c))) ∧
  (∀ k', k' ≠ k →
     SimpleCache.cache (snd (SimpleCache.delete k c)) !! k' = SimpleCache.cache c !! k').
Proof.
  unfold SimpleCache.delete. simpl. split_and!.
  - apply bool_decide_eq_true.
  - intros i t Hk Hexp. split.
    + unfold SimpleCache.has. by rewrite Hk, Hexp.
    + apply bool_decide_eq_true. by exists i.
  - intros t. unfold SimpleCache.get. simpl. by rewrite lookup_delete_eq.
  - intros k' Hne. by apply lookup_delete_ne.
Qed.
End SimpleCacheFacts.

Lemma SimpleCache_set_frame_witness :
  let c : SimpleCache.t string Z := SimpleCache.set 0 "b" 2 None (SimpleCache.new None) in
  fst (SimpleCache.get 5 "b" (SimpleCache.set 0 "a" 1 (Some 3) c))
    = fst (SimpleCache.get 5 "b" c).
Proof.
  intros c. apply (proj1 (SimpleCache_set_frame c 0 "a" 1 (Some 3)) "b" 5).
  discriminate.
Defined.

Lemma SimpleCache_delete_witness :
  let c : SimpleCache.t string Z :=
    SimpleCache.set 0 "k" 42 (Some 10) (SimpleCache.new None) in
  fst (SimpleCache.has 11 "k" c) = false ∧ fst (SimpleCache.delete "k" c) = true.
Proof.
  intros c.
  apply (proj1 (proj2 (SimpleCache_delete c "k")) (SimpleCache.Item 42 (Some 10)) 11);
    reflexivity.
Defined.

Section SimpleCacheMore.
Context `{Countable K} {V : Type}.
Implicit Types (c : SimpleCache.t K V) (k : K) (v : V).

Lemma SimpleCache_size_lookup c now k :
  SimpleCache.cache (snd (SimpleCache_size now c)) !! k =
    match SimpleCache.cache c !! k with
    | Some i => if SimpleCache.expired now i then None else Some i
    | None => None
    end.
Proof.
  unfold SimpleCache_size. simpl.
  destruct (SimpleCache.cache c !! k) as [i|] eqn:Hk.
  - destruct (SimpleCache.expired now i) eqn:Hexp.
    + apply map_lookup_filter_None. right. intros i' Hi'. simpl.
      assert (i' = i) as -> by congruence. by rewrite Hexp.
    + by apply map_lookup_filter_Some.
  - apply map_lookup_filter_None. by left.
Qed.

(** X5: [size] counts the entries that have not expired and evicts the
    others: the keys it keeps are exactly those [has] accepts at that
    instant, a [get] at that instant reads the same before and after, the
    count never exceeds the number of entries held, counting again at once
    changes nothing, and after [clear] the count is zero. *)
Theorem SimpleCache_size_evicts c now :
  (∀ k, is_Some (SimpleCache.cache (snd (SimpleCache_size now c)) !! k)
        ↔ fst (SimpleCache.has now k c) = true) ∧
  (∀ k, fst (SimpleCache.get now k (snd (SimpleCache_size now c)))
        = fst (SimpleCache.get now k c)) ∧
  fst (SimpleCache_size now c) = size (SimpleCache.cache (snd (SimpleCache_size now c))) ∧
  (fst (SimpleCache_size now c) ≤ size (SimpleCache.cache c))%nat ∧
  SimpleCache_size now (snd (SimpleCache_size now c)) = SimpleCache_size now c ∧
  fst (SimpleCache_size now (SimpleCache.clear c)) = 0%nat.
Proof.
  split_and!.
  - intros k. rewrite SimpleCache_size_lookup. unfold SimpleCache.has.
    destruct (SimpleCache.cache c !! k) as [i|]; simpl.
    + destruct (SimpleCache.expired now i); simpl; split; try done;
        by intros [? ?].
    + split; try done; by intros [? ?].
  - intros k. unfold SimpleCache.get at 1. rewrite SimpleCache_size_lookup.
    unfold SimpleCache.get.
    destruct (SimpleCache.cache c !! k) as [i|]; simpl; [|done].
    destruct (SimpleCache.expired now i) eqn:Hexp; simpl; [done|].
    by rewrite Hexp.
  - done.
  - unfold SimpleCache_size. simpl. apply map_subseteq_size, map_filter_subseteq.
  - unfold SimpleCache_size. simpl. f_equal.
    + f_equal. apply map_filter_filter_l. by intros ? ? ?.
    + f_equal. apply map_filter_filter_l. by intros ? ? ?.
  - unfold SimpleCache_size, SimpleCache.clear. simpl.
    by rewrite map_filter_empty, map_size_empty.
Qed.

End SimpleCacheMore.


(** ** More about the retrying transport *)

Section TransportRuns.
Variable options : Options.t.
Variable net : network.

Local Abbreviation backoff := (Options.useExponentialBackoff options).
Local Abbreviation fetch_event url init :=
  (EvFetch url init (Options.timeout options)).

Lemma fetch_stop url init retries delay tr :
  retryable_failure options (net tr url init) = false ∨ retries = 0%nat →
  fetchWithTimeout_from options net url init retries delay tr =
    (handed_over options url (net tr url init), tr ++ [fetch_event url init]).
Proof.
  intros Hstop. destruct retries as [|retries]; simpl.
  - by destruct (net tr url init).
  - destruct Hstop as [Hno|]; [|done].
    destruct (net tr url init) as [response|error]; simpl in *; by rewrite Hno.
Qed.

Lemma retried_snoc fetch b k delay :
  retried fetch b (S k) delay =
    retried fetch b k delay ++ [fetch; EvSleep (delay_after b k delay)].
Proof.
  revert delay. induction k as [|k IH]; intros delay; [done|].
  change (retried fetch b (S (S k)) delay)
    with (fetch :: EvSleep delay :: retried fetch b (S k) (next_delay b delay)).
  rewrite IH. done.
Qed.

(** The shape of every run of the transport. *)
Lemma fetchWithTimeout_from_runs url init retries delay tr :
  ∃ k, (k ≤ retries)%nat ∧
    fetchWithTimeout_from options net url init retries delay tr =
      (handed_over options url
         (net (tr ++ retried (fetch_event url init) backoff k delay) url init),
       (tr ++ retried (fetch_event url init) backoff k delay)
         ++ [fetch_event url init]) ∧
    (∀ j, (j < k)%nat →
       retryable_failure options
         (net (tr ++ retried (fetch_event url init) backoff j delay) url init) = true) ∧
    ((k < retries)%nat →
       retryable_failure options
         (net (tr ++ retried (fetch_event url init) backoff k delay) url init) = false).
Proof.
  revert delay tr. induction retries as [|retries IH]; intros delay tr.
  - exists 0%nat. cbn [retried]. rewrite app_nil_r.
    split_and!; [done| |intros; lia|intros; lia].
    by apply fetch_stop; right.
  - destruct (retryable_failure options (net tr url init)) eqn:Hfirst.
    + rewrite fetch_retry by done.
      destruct (IH (next_delay backoff delay)
                  ((tr ++ [fetch_event url init]) ++ [EvSleep delay]))
        as (k & Hk & Hrun & Hbefore & Hlast).
      exists (S k). cbn [retried].
      replace (tr ++ fetch_event url init :: EvSleep delay
                  :: retried (fetch_event url init) backoff k (next_delay backoff delay))
        with (((tr ++ [fetch_event url init]) ++ [EvSleep delay])
                ++ retried (fetch_event url init) backoff k (next_delay backoff delay))
        by (by rewrite <- !app_assoc).
      split_and!; [lia|exact Hrun| |intros; apply Hlast; lia].
      intros [|j] Hj; cbn [retried].
      * by rewrite app_nil_r.
      * replace (tr ++ fetch_event url init :: EvSleep delay
                   :: retried (fetch_event url init) backoff j (next_delay backoff delay))
          with (((tr ++ [fetch_event url init]) ++ [EvSleep delay])
                  ++ retried (fetch_event url init) backoff j (next_delay backoff delay))
          by (by rewrite <- !app_assoc).
        apply Hbefore. lia.
    + exists 0%nat. cbn [retried]. rewrite app_nil_r.
      split_and!; [lia| |intros; lia|done].
      by apply fetch_stop; left.
Qed.

(** X7: how every call of the transport runs, whatever the network does.
    It stops at the first attempt that is not a retryable failure, or at
    the attempt that spends the last retry; it hands over the outcome of
    that attempt; and before it the trace holds one attempt and one wait
    per retry, the waits following the backoff from [delay]. *)
Theorem fetchWithTimeout_runs url init retries delay tr :
  ∃ k, (k ≤ retries)%nat ∧
    fetchWithTimeout_from options net url init retries delay tr =
      (handed_over options url
         (net (tr ++ retried (fetch_event url init) backoff k delay) url init),
       (tr ++ retried (fetch_event url init) backoff k delay)
         ++ [fetch_event url init]) ∧
    (∀ j, (j < k)%nat →
       retryable_failure options
         (net (tr ++ retried (fetch_event url init) backoff j delay) url init) = true) ∧
    ((k < retries)%nat →
       retryable_failure options
         (net (tr ++ retried (fetch_event url init) backoff k delay) url init) = false).
Proof. exact (fetchWithTimeout_from_runs url init retries delay tr). Qed.

Lemma attempts_retried fetch b k delay :
  is_fetch fetch = true → attempts (retried fetch b k delay) = k.
Proof.
  intros Hf. revert delay. induction k as [|k IH]; intros delay; [done|].
  change (retried fetch b (S k) delay)
    with ([fetch] ++ [EvSleep delay] ++ retried fetch b k (next_delay b delay)).
  rewrite !attempts_app, IH. by destruct fetch.
Qed.

Lemma waits_retried fetch b k delay :
  is_fetch fetch = true → waits (retried fetch b k delay) = backoff_waits b k delay.
Proof.
  intros Hf. revert delay. induction k as [|k IH]; intros delay; [done|].
  change (retried fetch b (S k) delay)
    with ([fetch] ++ [EvSleep delay] ++ retried fetch b k (next_delay b delay)).
  rewrite !waits_app, IH. by destruct fetch.
Qed.

Lemma backoff_waits_lookup b k delay i :
  (i < k)%nat →
  backoff_waits b k delay !! i = Some (if b then delay * 2 ^ Z.of_nat i else delay).
Proof.
  revert delay i. induction k as [|k IH]; intros delay i Hi; [lia|].
  destruct i as [|i]; simpl.
  - destruct b; [|done]. f_equal. lia.
  - rewrite IH by lia. unfold next_delay. destruct b; [|done].
    f_equal. rewrite Nat2Z.inj_succ, Z.pow_succ_r by lia. lia.
Qed.

Lemma backoff_waits_length b k delay : length (backoff_waits b k delay) = k.
Proof. revert delay. induction k as [|k IH]; intros delay; simpl; by rewrite ?IH. Qed.

(** Attempts and waits of every run of the transport. *)
Lemma fetchWithTimeout_from_budget url init retries delay tr :
  let tr' := snd (fetchWithTimeout_from options net url init retries delay tr) in
  ∃ k, (k ≤ retries)%nat ∧
    attempts tr' = (attempts tr + k + 1)%nat ∧
    length (waits tr') = (length (waits tr) + k)%nat ∧
    ∀ i, (i < k)%nat →
      waits tr' !! (length (waits tr) + i)%nat =
        Some (if backoff then delay * 2 ^ Z.of_nat i else delay).
Proof.
  destruct (fetchWithTimeout_from_runs url init retries delay tr)
    as (k & Hk & Hrun & _). simpl.
  exists k. rewrite Hrun. simpl. split; [done|].
  rewrite !attempts_app, !waits_app, attempts_retried, waits_retried by done.
  simpl. rewrite app_nil_r. split_and!.
  - unfold attempts. simpl. lia.
  - by rewrite length_app, backoff_waits_length.
  - intros i Hi. rewrite lookup_app_r by lia.
    replace (length (waits tr) + i - length (waits tr))%nat with i by lia.
    by apply backoff_waits_lookup.
Qed.

(** X8: the budget of a call, whatever the network does: at least one and
    at most [retries + 1] attempts, one wait fewer than attempts, and the
    wait after the [i]-th attempt (counting from 0) is [delay * 2^i] with
    exponential backoff and [delay] without. *)
Theorem fetchWithTimeout_budget url init retries delay tr :
  let tr' := snd (fetchWithTimeout_from options net url init retries delay tr) in
  ∃ k, (k ≤ retries)%nat ∧
    attempts tr' = (attempts tr + k + 1)%nat ∧
    length (waits tr') = (length (waits tr) + k)%nat ∧
    ∀ i, (i < k)%nat →
      waits tr' !! (length (waits tr) + i)%nat =
        Some (if backoff then delay * 2 ^ Z.of_nat i else delay).
Proof. exact (fetchWithTimeout_from_budget url init retries delay tr). Qed.

End TransportRuns.

Lemma fetchWithTimeout_budget_witness :
  ∃ k, (k ≤ 3)%nat ∧
    attempts (snd (fetchWithTimeout_from demo_options always_503 "u" demo_init 3 300 []))
      = (attempts [] + k + 1)%nat ∧
    waits (snd (fetchWithTimeout_from demo_options always_503 "u" demo_init 3 300 []))
      !! 2%nat = Some 1200.
Proof.
  destruct (fetchWithTimeout_budget demo_options always_503 "u" demo_init 3 300 [])
    as (k & Hk & Hatt & Hlen & Hwait).
  exists k. split_and!; [done|done|].
  assert (attempts (snd (fetchWithTimeout_from demo_options always_503
                           "u" demo_init 3 300 [])) = 4%nat) as H4
    by (vm_compute; reflexivity).
  rewrite H4 in Hatt. change (attempts []) with 0%nat in Hatt.
  apply (Hwait 2%nat). lia.
Defined.

(** X9: what the transport never retries.  An attempt that is not a
    retryable failure (a response that is ok or has a status other than
    429 and below 500, any response at all when status handling is off, a
    rejection that is neither an abort nor a network error) ends the call
    at once, whatever retries are left: one attempt, no wait, its outcome
    handed over. *)
Theorem fetchWithTimeout_stops_at_once options net url init retries delay tr :
  retryable_failure options (net tr url init) = false →
  fetchWithTimeout_at options net url init retries delay tr =
    (handed_over options url (net tr url init),
     tr ++ [EvFetch url init (Options.timeout options)]).
Proof.
  intros Hno. unfold fetchWithTimeout_at. apply fetch_stop. by left.
Qed.

Lemma fetchWithTimeout_stops_at_once_witness :
  fetchWithTimeout_at demo_options broken "u" demo_init 3 300 [] =
    (handed_over demo_options "u" (broken [] "u" demo_init),
     [] ++ [EvFetch "u" demo_init (Some 5000)]).
Proof.
  apply (fetchWithTimeout_stops_at_once demo_options broken "u" demo_init 3 300 []).
  reflexivity.
Defined.

(** X10: what the transport throws.  A rejected call always carries a
    structured error, of kind [timeout], [network] or [unknown], for the
    requested URL, without a status code; it is marked retryable exactly
    when its kind is not [unknown]; and a retryable one is thrown only
    once every retry has been spent. *)
Theorem fetchWithTimeout_throws options net url init retries delay tr e tr' :
  fetchWithTimeout_from options net url init retries delay tr = (inl e, tr') →
  ∃ err,
    e = Structured err ∧
    (HttpAdapterError.type err = TIMEOUT ∨ HttpAdapterError.type err = NETWORK ∨
     HttpAdapterError.type err = UNKNOWN) ∧
    HttpAdapterError.url err = url ∧
    HttpAdapterError.status err = None ∧
    (HttpAdapterError.retryable err = true ↔ HttpAdapterError.type err ≠ UNKNOWN) ∧
    (HttpAdapterError.retryable err = true →
     attempts tr' = (attempts tr + retries + 1)%nat).
Proof.
  intros Hthrow.
  destruct (fetchWithTimeout_from_runs options net url init retries delay tr)
    as (k & Hk & Hrun & _ & Hlast).
  rewrite Hrun in Hthrow.
  set (trk := tr ++ retried _ _ k delay) in *.
  destruct (net trk url init) as [response|error] eqn:Hnet; [done|].
  simpl in Hthrow. injection Hthrow as <- <-.
  eexists. split; [done|].
  unfold fetch_failure.
  destruct (isTimeoutError error) eqn:Htimeout; simpl.
  - split_and!; try done; [by left|].
    intros _. destruct (decide (k < retries)%nat) as [Hlt|Hge].
    + specialize (Hlast Hlt). simpl in Hlast. by rewrite Htimeout in Hlast.
    + subst trk. rewrite !attempts_app, attempts_retried by done.
      unfold attempts. simpl. lia.
  - destruct (isNetworkError error) eqn:Hnetwork; simpl.
    + split_and!; try done; [by right; left|].
      intros _. destruct (decide (k < retries)%nat) as [Hlt|Hge].
      * specialize (Hlast Hlt). simpl in Hlast.
        by rewrite Htimeout, Hnetwork in Hlast.
      * subst trk. rewrite !attempts_app, attempts_retried by done.
        unfold attempts. simpl. lia.
    + split_and!; try done; by right; right.
Qed.

Lemma fetchWithTimeout_throws_witness :
  ∃ err,
    Structured (fetch_failure demo_options (TypeError "Failed to fetch") "u")
      = Structured err ∧
    (HttpAdapterError.type err = TIMEOUT ∨ HttpAdapterError.type err = NETWORK ∨
     HttpAdapterError.type err = UNKNOWN) ∧
    HttpAdapterError.url err = "u" ∧
    HttpAdapterError.status err = None ∧
    (HttpAdapterError.retryable err = true ↔ HttpAdapterError.type err ≠ UNKNOWN) ∧
    (HttpAdapterError.retryable err = true →
     attempts (snd (fetchWithTimeout_from demo_options unreachable "u" demo_init 3 300 []))
       = (attempts [] + 3 + 1)%nat).
Proof.
  apply (fetchWithTimeout_throws demo_options unreachable "u" demo_init 3 300 []).
  vm_compute. reflexivity.
Defined.

(** X11: [maxRetries] cannot switch retries off by being 0: an omitted
    [maxRetries] and one of 0 both mean three retries (and an omitted or
    zero [retryDelay] means 300 ms), so a call whose every attempt fails
    retryably still makes four attempts; only a negative [maxRetries]
    gives a single attempt, whatever the network does. *)
Theorem maxRetries_zero_means_three options net url init tr :
  ((Options.maxRetries options = None ∨ Options.maxRetries options = Some 0) →
   fetchWithTimeout options net url init tr =
     fetchWithTimeout_at options net url init 3
       (or_number (Options.retryDelay options) 300) tr ∧
   ((∀ tr', retryable_failure options (net tr' url init) = true) →
    attempts (snd (fetchWithTimeout options net url init tr)) = (attempts tr + 4)%nat)) ∧
  ((Options.retryDelay options = None ∨ Options.retryDelay options = Some 0) →
   or_number (Options.retryDelay options) 300 = 300) ∧
  (∀ n, Options.maxRetries options = Some n → n < 0 →
        fetchWithTimeout options net url init tr =
          (handed_over options url (net tr url init),
           tr ++ [EvFetch url init (Options.timeout options)])).
Proof.
  split_and!.
  - intros Hmax.
    assert (or_number (Options.maxRetries options) 3 = 3) as H3
      by (by destruct Hmax as [-> | ->]).
    unfold fetchWithTimeout. rewrite H3. split; [done|].
    intros Hfail. unfold fetchWithTimeout_at. change (Z.to_nat 3) with 3%nat.
    destruct (fetch_exhausts options net url init 3 Hfail
                (or_number (Options.retryDelay options) 300) tr) as (r & -> & _).
    simpl. rewrite attempts_app.
    by destruct (Options.useExponentialBackoff options).
  - by intros [-> | ->].
  - intros n Hn Hneg. unfold fetchWithTimeout, fetchWithTimeout_at.
    rewrite Hn. unfold or_number at 1.
    rewrite (proj2 (Z.eqb_neq n 0)) by lia.
    apply fetch_stop. right. lia.
Qed.

Lemma maxRetries_zero_means_three_witness :
  attempts (snd (fetchWithTimeout (options_with_maxRetries (Some 0)) always_503
                   "u" demo_init [])) = (attempts [] + 4)%nat ∧
  fetchWithTimeout (options_with_maxRetries (Some (-1))) always_503 "u" demo_init [] =
    (handed_over (options_with_maxRetries (Some (-1))) "u" (always_503 [] "u" demo_init),
     [] ++ [EvFetch "u" demo_init (Some 5000)]).
Proof.
  split.
  - apply (proj1 (maxRetries_zero_means_three (options_with_maxRetries (Some 0))
                    always_503 "u" demo_init [])).
    + by right.
    + reflexivity.
  - apply (proj2 (proj2 (maxRetries_zero_means_three (options_with_maxRetries (Some (-1)))
                           always_503 "u" demo_init [])) (-1)).
    + reflexivity.
    + lia.
Defined.

(** X12: the classifier and the transport agree on which statuses are
    retryable, except at 429: for every other status the [retryable] field
    [createHttpError] sets is the answer of [isRetryableStatusCode]; and
    the kinds follow the status: [not_found] for 404 only, [authentication]
    for 401 and 403 only, [server] from 500 on, [unknown] for the rest. *)
Theorem createHttpError_classifies statusCode message url :
  let e := createHttpError statusCode message url in
  (statusCode ≠ 429 →
   HttpAdapterError.retryable e = isRetryableStatusCode statusCode) ∧
  (HttpAdapterError.type e = NOT_FOUND ↔ statusCode = 404) ∧
  (HttpAdapterError.type e = AUTH ↔ statusCode = 401 ∨ statusCode = 403) ∧
  (HttpAdapterError.type e = SERVER ↔ 500 ≤ statusCode) ∧
  (HttpAdapterError.type e = UNKNOWN ↔
     statusCode < 500 ∧ statusCode ≠ 404 ∧ statusCode ≠ 401 ∧ statusCode ≠ 403) ∧
  HttpAdapterError.status e = Some statusCode ∧
  HttpAdapterError.message e = message ∧ HttpAdapterError.url e = url.
Proof.
  unfold createHttpError, isRetryableStatusCode.
  destruct (Z.eqb_spec statusCode 404) as [->|H404];
    [|destruct (Z.eqb_spec statusCode 401) as [->|H401];
      [|destruct (Z.eqb_spec statusCode 403) as [->|H403];
        [|destruct (Z.leb_spec 500 statusCode) as [H500|H500]]]];
    simpl; split_and!; try done;
    try (intros H429; by rewrite ?(proj2 (Z.eqb_neq _ _) H429));
    try (split; [intros; first [done|lia|by left|by right]
                |intros; first [done|lia|intuition lia]]).
Qed.

Lemma createHttpError_classifies_witness :
  HttpAdapterError.retryable (createHttpError 503 "m" "u") = isRetryableStatusCode 503.
Proof.
  apply (proj1 (createHttpError_classifies 503 "m" "u")). lia.
Defined.

(** ** URLs *)

Lemma append_nil_r (s : string) : s +:+ "" = s.
Proof. induction s as [|c s IH]; [done|]. by rewrite append_cons, IH. Qed.

Lemma append_assoc (s1 s2 s3 : string) : (s1 +:+ s2) +:+ s3 = s1 +:+ s2 +:+ s3.
Proof. induction s1 as [|c s1 IH]; [done|]. by rewrite !append_cons, IH. Qed.

Lemma append_inj_l (s t1 t2 : string) : s +:+ t1 = s +:+ t2 → t1 = t2.
Proof.
  induction s as [|c s IH]; [done|]. rewrite !append_cons. intros [= Heq]. auto.
Qed.

Lemma lacks_cons c c' s :
  lacks c (String c' s) = true ↔ c' ≠ c ∧ lacks c s = true.
Proof.
  simpl. rewrite andb_true_iff, negb_true_iff. split; intros [Hc Hs]; (split; [|done]).
  - intros ->. by rewrite Ascii.eqb_refl in Hc.
  - by apply Ascii.eqb_neq.
Qed.

Lemma lacks_append c s1 s2 :
  lacks c (s1 +:+ s2) = lacks c s1 && lacks c s2.
Proof.
  induction s1 as [|c1 s1 IH]; [done|]. rewrite append_cons. simpl.
  by rewrite IH, andb_assoc.
Qed.

(** Two strings cut at a separator that neither first part contains have
    the same parts. *)
Lemma separator_inj c s1 s2 t1 t2 :
  lacks c s1 = true → lacks c t1 = true →
  s1 +:+ String c s2 = t1 +:+ String c t2 → s1 = t1 ∧ s2 = t2.
Proof.
  revert t1. induction s1 as [|a s1 IH]; intros [|b t1] Hs Ht Heq;
    rewrite ?append_cons, ?append_empty in Heq.
  - by injection Heq as ->.
  - apply lacks_cons in Ht as [Hb _]. by injection Heq as <- _.
  - apply lacks_cons in Hs as [Ha _]. by injection Heq as -> _.
  - apply lacks_cons in Hs as [_ Hs]. apply lacks_cons in Ht as [_ Ht].
    injection Heq as -> Heq. by destruct (IH t1 Hs Ht Heq) as [-> ->].
Qed.

(** What [encodeURIComponent] writes for one byte. *)
Lemma encodeURIComponent_cons c s :
  encodeURIComponent (String c s) =
    (if uri_unreserved c then String c EmptyString
     else String "%" (String (hex_digit (Ascii.nat_of_ascii c / 16))
                        (String (hex_digit (Ascii.nat_of_ascii c mod 16)) EmptyString)))
    +:+ encodeURIComponent s.
Proof. simpl. by destruct (uri_unreserved c). Qed.

Lemma encode_byte_decodes c :
  uri_unreserved c = false →
  Ascii.ascii_of_nat
    (16 * hex_value (hex_digit (Ascii.nat_of_ascii c / 16))
     + hex_value (hex_digit (Ascii.nat_of_ascii c mod 16))) = c.
Proof. destruct c as [[] [] [] [] [] [] [] []]; vm_compute; done. Qed.

Lemma encode_byte_lacks c sep :
  uri_unreserved sep = false → sep ≠ "%"%char →
  lacks sep
    (if uri_unreserved c then String c EmptyString
     else String "%" (String (hex_digit (Ascii.nat_of_ascii c / 16))
                        (String (hex_digit (Ascii.nat_of_ascii c mod 16)) EmptyString)))
    = true.
Proof.
  intros Hsep Hpct. destruct (uri_unreserved c) eqn:Hc.
  - apply lacks_cons. split; [|done]. intros ->. congruence.
  - assert (∀ n, uri_unreserved (hex_digit n) = true) as Hhex.
    { intros n. do 16 (destruct n as [|n]; [done|]). done. }
    repeat (apply lacks_cons; split); try done.
    + intros Heq. specialize (Hhex (Ascii.nat_of_ascii c / 16)%nat). congruence.
    + intros Heq. specialize (Hhex (Ascii.nat_of_ascii c mod 16)%nat). congruence.
Qed.

(** The output of [encodeURIComponent] has no character that is reserved
    and not [%]: no slash, no brace. *)
Lemma encodeURIComponent_lacks sep s :
  uri_unreserved sep = false → sep ≠ "%"%char →
  lacks sep (encodeURIComponent s) = true.
Proof.
  intros Hsep Hpct. induction s as [|c s IH]; [done|].
  rewrite encodeURIComponent_cons, lacks_append, IH, andb_true_r.
  by apply encode_byte_lacks.
Qed.

Lemma percent_decode_escape a b r :
  percent_decode (String "%" (String a (String b r))) =
    String (Ascii.ascii_of_nat (16 * hex_value a + hex_value b)) (percent_decode r).
Proof. reflexivity. Qed.

(** [encodeURIComponent] loses nothing: decoding the escapes gives the
    string back, so two different strings never encode to the same text;
    and the text holds no slash and no brace. *)
Lemma encodeURIComponent_injective s :
  percent_decode (encodeURIComponent s) = s ∧
  (∀ s', encodeURIComponent s = encodeURIComponent s' → s = s') ∧
  lacks "/" (encodeURIComponent s) = true ∧
  lacks "{" (encodeURIComponent s) = true.
Proof.
  assert (∀ s, percent_decode (encodeURIComponent s) = s) as Hdec.
  { clear s. induction s as [|c s IH]; [done|].
    rewrite encodeURIComponent_cons.
    destruct (uri_unreserved c) eqn:Hc.
    - rewrite append_cons, append_empty. simpl.
      destruct (Ascii.eqb_spec c "%") as [->|_]; [done|]. by rewrite IH.
    - rewrite !append_cons, append_empty.
      by rewrite percent_decode_escape, IH, encode_byte_decodes. }
  split_and!.
  - apply Hdec.
  - intros s' Heq. by rewrite <- (Hdec s), <- (Hdec s'), Heq.
  - by apply encodeURIComponent_lacks.
  - by apply encodeURIComponent_lacks.
Qed.

(** Replacing a pattern leaves alone a prefix without the pattern's first
    character. *)
Lemma replace_from_skip p pat rep s1 s2 :
  lacks p s1 = true →
  replace_from (String p pat) rep 0 (s1 +:+ s2) =
    s1 +:+ replace_from (String p pat) rep 0 s2.
Proof.
  induction s1 as [|c s1 IH]; intros Hl; [done|].
  apply lacks_cons in Hl as [Hc Hl].
  rewrite !append_cons. simpl.
  destruct (ascii_dec p c) as [->|_]; [done|]. by rewrite IH.
Qed.

(** X13: with the default path template and no custom URL function, the
    URL of a resource is the base URL, [resources/], the encoded language,
    a slash and the encoded namespace; so two different (language,
    namespace) pairs never share a URL. *)
Theorem default_resource_url options lang namespace :
  Options.getResourceUrl options = None →
  Options.resourcePathTemplate options = "resources/{{lang}}/{{ns}}" →
  getResourceUrl options lang namespace =
    Options.baseUrl options +:+ "resources/" +:+ encodeURIComponent lang
      +:+ "/" +:+ encodeURIComponent namespace ∧
  (∀ lang' namespace',
     getResourceUrl options lang namespace = getResourceUrl options lang' namespace' →
     lang = lang' ∧ namespace = namespace').
Proof.
  intros Hnone Htemplate.
  assert (∀ l n, getResourceUrl options l n =
            Options.baseUrl options +:+ "resources/" +:+ encodeURIComponent l
              +:+ "/" +:+ encodeURIComponent n) as Hshape.
  { intros l n. unfold getResourceUrl. rewrite Hnone, Htemplate. f_equal.
    unfold replace_all.
    change "resources/{{lang}}/{{ns}}" with ("resources/" +:+ "{{lang}}/{{ns}}").
    rewrite (replace_from_skip "{" "{lang}}") by done.
    change (replace_from "{{lang}}" (encodeURIComponent l) 0 "{{lang}}/{{ns}}")
      with (encodeURIComponent l +:+ "/{{ns}}").
    rewrite <- append_assoc.
    rewrite (replace_from_skip "{" "{ns}}").
    - change (replace_from "{{ns}}" (encodeURIComponent n) 0 "/{{ns}}")
        with ("/" +:+ encodeURIComponent n +:+ "").
      by rewrite append_nil_r, append_assoc.
    - rewrite lacks_append. simpl.
      by rewrite (encodeURIComponent_lacks "{"). }
  split; [apply Hshape|].
  intros lang' namespace'. rewrite !Hshape. intros Heq.
  apply append_inj_l, append_inj_l in Heq.
  apply (separator_inj "/") in Heq as [Hl Hn];
    [|by apply encodeURIComponent_lacks..].
  split; by apply encodeURIComponent_injective.
Qed.

Lemma default_resource_url_witness :
  getResourceUrl demo_options "zh CN" "a/b" =
    "https://api.example.com/i18n/" +:+ "resources/" +:+ encodeURIComponent "zh CN"
      +:+ "/" +:+ encodeURIComponent "a/b".
Proof.
  apply (proj1 (default_resource_url demo_options "zh CN" "a/b" eq_refl eq_refl)).
Defined.

Lemma ends_with_slash_append (s : string) : ends_with_slash (s +:+ "/") = true.
Proof.
  induction s as [|c s IH]; [done|]. rewrite append_cons.
  destruct s as [|c' s]; [done|]. rewrite append_cons in *. exact IH.
Qed.

(** X14: the constructor refuses an empty base URL; otherwise the adapter
    it builds has a base URL that ends with a slash (the given one, with a
    slash appended when it had none) and the other options as given; and
    building again from the result changes nothing. *)
Theorem HttpAdapter_new_normalizes o :
  (Options.baseUrl o = "" → ∃ e, HttpAdapter_new o = inl e) ∧
  (Options.baseUrl o ≠ "" →
   ∃ o', HttpAdapter_new o = inr o' ∧
         ends_with_slash (Options.baseUrl o') = true ∧
         Options.baseUrl o' =
           (if ends_with_slash (Options.baseUrl o) then Options.baseUrl o
            else Options.baseUrl o +:+ "/") ∧
         HttpAdapter_new o' = inr o' ∧
         Options.maxRetries o' = Options.maxRetries o ∧
         Options.retryDelay o' = Options.retryDelay o ∧
         Options.allowSaving o' = Options.allowSaving o ∧
         Options.cacheEnabled o' = Options.cacheEnabled o ∧
         Options.resourcePathTemplate o' = Options.resourcePathTemplate o).
Proof.
  unfold HttpAdapter_new. split.
  - intros ->. by eexists.
  - intros Hne. destruct (String.eqb_spec (Options.baseUrl o) "") as [|_]; [done|].
    destruct (ends_with_slash (Options.baseUrl o)) eqn:Hslash.
    + exists o. split_and!; try done.
      destruct (String.eqb_spec (Options.baseUrl o) ""); [done|]. by rewrite Hslash.
    + eexists. split; [done|]. simpl.
      rewrite ends_with_slash_append. split_and!; try done.
      destruct (String.eqb_spec (Options.baseUrl o +:+ "/") "") as [Hempty|_]; [|done].
      destruct (Options.baseUrl o); discriminate.
Qed.

Lemma HttpAdapter_new_normalizes_witness :
  ∃ o', HttpAdapter_new (Options.defaults "https://api.example.com/i18n") = inr o' ∧
        Options.baseUrl o' = "https://api.example.com/i18n" +:+ "/" ∧
        HttpAdapter_new o' = inr o'.
Proof.
  destruct (proj2 (HttpAdapter_new_normalizes (Options.defaults "https://api.example.com/i18n")))
    as (o' & Hnew & _ & Hbase & Hagain & _).
  { discriminate. }
  exists o'. split_and!; [exact Hnew|exact Hbase|exact Hagain].
Defined.

(** ** More about the resource client *)

Lemma truthy_parse t h : truthy (snd (parse t h)) = json_truthy t.
Proof.
  destruct t as [|b|n|s|ts|fs]; try done.
  - rewrite parse_array. by destruct (parse_items ts h).
  - rewrite parse_object. by destruct (parse_props fs h).
Qed.

(** Once a pair's entry reads [t], every [getResource] for it is served
    from the cache. *)
Lemma getResource_times_cached options net lang namespace t n :
  ∀ s w,
    cached (Options.cacheEnabled options) (getCacheKey lang namespace) s = Some w →
    stringify (heap_of s) w = Some t →
    ∃ s2, getResource_times options net n lang namespace s
            = (replicate n (Some t), s2) ∧
          trace s2 = trace s ∧ cache s2 = cache s.
Proof.
  induction n as [|n IH]; intros s w Hhit Hw; simpl.
  - by exists s.
  - destruct (getResource_hit_reads _ (loadResource options net) _ _ _ _ _ Hhit Hw)
      as (v & s1 & Hget & Hv & Hc & Htr & Hpre).
    unfold http_getResource. rewrite Hget, Hv.
    destruct (IH s1 w) as (s2 & Htimes & Htr2 & Hc2).
    { by rewrite (cached_ext _ _ s s1). }
    { by eapply stringify_prefix. }
    unfold http_getResource in Htimes. rewrite Htimes.
    exists s2. split_and!; [done|congruence|congruence].
Qed.

Lemma loadResource_try_loaded options net lang namespace tr response tr1 t :
  fetchWithTimeout options net (getResourceUrl options lang namespace)
    (get_init options) tr = (inr response, tr1) →
  Response.ok response = true →
  Options.parseResponse options = None →
  Response.body response = Some t →
  loadResource_try options net lang namespace tr = (Loaded t, tr1).
Proof.
  intros Hf Hok Hparser Hbody. unfold loadResource_try.
  change {| RequestInit.method := Options.getMethod options;
            RequestInit.headers := Options.headers options;
            RequestInit.body := None |} with (get_init options).
  by rewrite Hf, Hok, Hparser, Hbody.
Qed.

(** What [getResource] does with whatever [loadResource] resolves to. *)
Lemma getResource_miss_reads options net lang namespace s resources s1 t :
  cached (Options.cacheEnabled options) (getCacheKey lang namespace) s = None →
  loadResource options net lang namespace s = (inr resources, s1) →
  stringify (heap_of s1) resources = Some t →
  ∃ v s3,
    http_getResource options net lang namespace s = (inr v, s3) ∧
    stringify (heap_of s3) v = Some t ∧
    trace s3 = trace s1 ∧
    cache s3 =
      (if Options.cacheEnabled options
       then <[getCacheKey lang namespace := snd (parse t (heap_of s1))]> (cache s1)
       else cache s1) ∧
    (Options.cacheEnabled options = true →
     stringify (heap_of s3) (snd (parse t (heap_of s1))) = Some t).
Proof.
  intros Hmiss Hload Hs.
  destruct (getResource_try_reads (Options.cacheEnabled options) _ _ _ _ _ _ _
              Hload Hs) as (v & s3 & Hget & Hv & Htr & _ & Hcache & Hstored).
  exists v, s3. unfold http_getResource.
  by rewrite (getResource_miss _ _ _ _ _ Hmiss), Hget.
Qed.

(** X15: a resource that was loaded is served from the cache.  With the
    cache enabled and the default parser, a [getResource] that misses the
    cache and whose fetch ends with an ok response returns the document of
    the body; when that document is truthy (every object and array is),
    any number of further calls for the pair return it again, add nothing
    to the network trace and leave the cache alone; when it is falsy
    ([null], [false], [0] or the empty string) the pair is still not
    cached after the call. *)
Theorem loaded_resource_is_cached options net lang namespace s response tr t :
  Options.cacheEnabled options = true →
  Options.parseResponse options = None →
  cached true (getCacheKey lang namespace) s = None →
  fetchWithTimeout options net (getResourceUrl options lang namespace)
    (get_init options) (trace s) = (inr response, tr) →
  Response.ok response = true →
  Response.body response = Some t →
  ∃ v s1,
    http_getResource options net lang namespace s = (inr v, s1) ∧
    stringify (heap_of s1) v = Some t ∧
    trace s1 = tr ∧
    (json_truthy t = true →
     ∀ n, ∃ s2,
       getResource_times options net n lang namespace s1 = (replicate n (Some t), s2) ∧
       trace s2 = tr ∧ cache s2 = cache s1) ∧
    (json_truthy t = false →
     cached true (getCacheKey lang namespace) s1 = None).
Proof.
  intros Hen Hparser Hmiss Hfetch Hok Hbody.
  pose proof (loadResource_try_loaded _ _ _ _ _ _ _ _ Hfetch Hok Hparser Hbody) as Htry.
  assert (∃ v0 s0, loadResource options net lang namespace s = (inr v0, s0) ∧
                   stringify (heap_of s0) v0 = Some t ∧ trace s0 = tr)
    as (v0 & s0 & Hload & Hs0 & Htr0).
  { unfold loadResource. rewrite Htry. unfold settle.
    destruct (materialize t (with_trace tr s)) as [v0 s0] eqn:Hm.
    apply materialize_frame in Hm as (_ & _ & Htr0 & Hs0). by exists v0, s0. }
  rewrite <- Hen in Hmiss.
  destruct (getResource_miss_reads _ _ _ _ _ _ _ _ Hmiss Hload Hs0)
    as (v & s1 & Hget & Hv & Htr1 & Hcache & Hstored).
  rewrite Hen in Hcache. specialize (Hstored Hen).
  set (w := snd (parse t (heap_of s0))) in *.
  assert (cache s1 !! getCacheKey lang namespace = Some w) as Hw
    by (by rewrite Hcache, lookup_insert_eq).
  assert (truthy w = json_truthy t) as Htruthy by apply truthy_parse.
  exists v, s1. split_and!; [done|done|congruence| |].
  - intros Ht n.
    destruct (getResource_times_cached options net lang namespace t n s1 w)
      as (s2 & Htimes & Htr2 & Hc2).
    { rewrite Hen. unfold cached. by rewrite Hw, Htruthy, Ht. }
    { done. }
    exists s2. split_and!; [done|congruence|done].
  - intros Hf. unfold cached. by rewrite Hw, Htruthy, Hf.
Qed.

Lemma loaded_resource_is_cached_witness :
  ∃ v s1,
    http_getResource demo_options healthy "en" "translation" initial = (inr v, s1) ∧
    stringify (heap_of s1) v = Some demo_payload ∧
    trace s1 = [EvFetch "https://api.example.com/i18n/resources/en/translation"
                  demo_init (Some 5000)] ∧
    (json_truthy demo_payload = true →
     ∀ n, ∃ s2,
       getResource_times demo_options healthy n "en" "translation" s1
         = (replicate n (Some demo_payload), s2) ∧
       trace s2 = [EvFetch "https://api.example.com/i18n/resources/en/translation"
                     demo_init (Some 5000)] ∧
       cache s2 = cache s1) ∧
    (json_truthy demo_payload = false →
     cached true (getCacheKey "en" "translation") s1 = None).
Proof.
  eapply (loaded_resource_is_cached demo_options healthy "en" "translation" initial);
    vm_compute; reflexivity.
Defined.

(** *** Traces *)

Lemma getResource_try_trace cacheEnabled loadResource lang namespace s r s' :
  getResource_try cacheEnabled loadResource lang namespace s = (r, s') →
  trace s' = trace (snd (loadResource lang namespace s)) ∧
  (cacheEnabled = false → cache s' = cache (snd (loadResource lang namespace s))).
Proof.
  unfold getResource_try.
  destruct (loadResource lang namespace s) as [[e|resources] s1]; simpl.
  - by intros [= <- <-].
  - destruct cacheEnabled.
    + destruct (deep_copy resources (heap_of s1)) as [[h2 c]|]; simpl.
      * destruct (deep_copy resources h2) as [[h3 c']|]; by intros [= <- <-].
      * by intros [= <- <-].
    + destruct (deep_copy resources (heap_of s1)) as [[h3 c']|];
        by intros [= <- <-].
Qed.

Lemma fetchWithTimeout_attempts options net url init tr :
  (attempts tr < attempts (snd (fetchWithTimeout options net url init tr)))%nat.
Proof.
  unfold fetchWithTimeout, fetchWithTimeout_at.
  destruct (fetchWithTimeout_from_budget options net url init
              (Z.to_nat (or_number (Options.maxRetries options) 3))
              (or_number (Options.retryDelay options) 300) tr)
    as (k & _ & Hatt & _).
  simpl in Hatt. lia.
Qed.

Lemma settle_trace p s : trace (snd (settle p s)) = trace s.
Proof.
  destruct (settle p s) as [r s1] eqn:Hs.
  by apply settle_frame in Hs as (_ & _ & ?).
Qed.

Lemma loadResource_try_trace options net lang namespace tr :
  snd (loadResource_try options net lang namespace tr) =
    snd (fetchWithTimeout options net (getResourceUrl options lang namespace)
           (get_init options) tr).
Proof.
  unfold loadResource_try.
  change {| RequestInit.method := Options.getMethod options;
            RequestInit.headers := Options.headers options;
            RequestInit.body := None |} with (get_init options).
  destruct (fetchWithTimeout _ _ _ _ _) as [[e|response] tr1]; [done|].
  destruct (negb (Response.ok response)); [done|].
  destruct (Options.parseResponse options); [done|].
  by destruct (Response.body response).
Qed.

Lemma loadResource_trace options net lang namespace s :
  trace (snd (loadResource options net lang namespace s)) =
    snd (fetchWithTimeout options net (getResourceUrl options lang namespace)
           (get_init options) (trace s)).
Proof.
  rewrite <- loadResource_try_trace. unfold loadResource.
  destruct (loadResource_try options net lang namespace (trace s)) as [e tr].
  destruct e as [error|t|promise]; rewrite ?settle_trace; try done.
  destruct (Options.handleError options) as [handler|]; by rewrite ?settle_trace.
Qed.

(** A [getResource] that misses the cache goes to the network: its trace
    is that of one call of the transport. *)
Lemma getResource_miss_trace options net lang namespace s r s' :
  cached (Options.cacheEnabled options) (getCacheKey lang namespace) s = None →
  http_getResource options net lang namespace s = (r, s') →
  trace s' = snd (fetchWithTimeout options net (getResourceUrl options lang namespace)
                    (get_init options) (trace s)) ∧
  ∃ v, r = inr v.
Proof.
  intros Hmiss. unfold http_getResource. rewrite (getResource_miss _ _ _ _ _ Hmiss).
  destruct (getResource_try _ _ lang namespace s) as [[e|v] s1] eqn:Htry;
    apply getResource_try_trace in Htry as [Htr _];
    rewrite loadResource_trace in Htr.
  - intros [= <- <-]. simpl. split; [done|by eexists].
  - intros [= <- <-]. split; [done|by eexists].
Qed.

(** X16: with the cache disabled every [getResource] goes to the network:
    it makes at least one attempt, returns a payload and never touches the
    cache. *)
Theorem cache_disabled_always_fetches options net lang namespace s r s' :
  Options.cacheEnabled options = false →
  http_getResource options net lang namespace s = (r, s') →
  (attempts (trace s) < attempts (trace s'))%nat ∧
  cache s' = cache s ∧
  ∃ v, r = inr v.
Proof.
  intros Hoff Hget.
  assert (cached (Options.cacheEnabled options) (getCacheKey lang namespace) s = None)
    as Hmiss by (unfold cached; by rewrite Hoff).
  destruct (getResource_miss_trace _ _ _ _ _ _ _ Hmiss Hget) as [Htr Hv].
  split_and!; [|  |done].
  - rewrite Htr. apply fetchWithTimeout_attempts.
  - unfold http_getResource in Hget.
    rewrite (getResource_miss _ _ _ _ _ Hmiss) in Hget.
    destruct (getResource_try _ _ lang namespace s) as [[e|v] s1] eqn:Htry;
      apply getResource_try_trace in Htry as [_ Hc]; rewrite Hoff in Hc;
      specialize (Hc eq_refl).
    + injection Hget as _ <-. simpl. rewrite Hc.
      destruct (loadResource options net lang namespace s) as [r0 s0] eqn:Hl.
      by apply http_load_frame in Hl as [_ ?].
    + injection Hget as _ <-. rewrite Hc.
      destruct (loadResource options net lang namespace s) as [r0 s0] eqn:Hl.
      by apply http_load_frame in Hl as [_ ?].
Qed.

Lemma cache_disabled_always_fetches_witness :
  let o := options_without_cache in
  (attempts (trace initial)
     < attempts (trace (snd (http_getResource o healthy "en" "t" initial))))%nat ∧
  cache (snd (http_getResource o healthy "en" "t" initial)) = cache initial ∧
  ∃ v, fst (http_getResource o healthy "en" "t" initial) = inr v.
Proof.
  intros o.
  apply (cache_disabled_always_fetches o healthy "en" "t" initial).
  - reflexivity.
  - apply surjective_pairing.
Defined.

(** X17: [getResource] never rejects.  On a cache miss it returns a
    payload whatever the network, the parser and the error handler do; on
    a hit it returns a payload as long as the cached entry is a complete
    document, which a well-formed cache guarantees. *)
Theorem getResource_never_rejects options net lang namespace s :
  cache_wf s →
  ∃ v s', http_getResource options net lang namespace s = (inr v, s').
Proof.
  intros Hwf.
  destruct (cached (Options.cacheEnabled options) (getCacheKey lang namespace) s)
    as [w|] eqn:Hhit.
  - destruct (cached_lookup _ _ _ _ Hhit) as (_ & Hw & _).
    destruct (Hwf _ _ Hw) as [t Ht].
    destruct (getResource_hit_reads _ (loadResource options net) _ _ _ _ _ Hhit Ht)
      as (v & s1 & Hget & _).
    by exists v, s1.
  - destruct (http_getResource options net lang namespace s) as [r s'] eqn:Hget.
    destruct (getResource_miss_trace _ _ _ _ _ _ _ Hhit Hget) as [_ [v ->]].
    by exists v, s'.
Qed.

Lemma getResource_never_rejects_witness :
  ∃ v s', http_getResource demo_options unreachable "en" "t" initial = (inr v, s').
Proof.
  apply (getResource_never_rejects demo_options unreachable "en" "t" initial).
  exact cache_wf_initial.
Defined.

(** When [loadResource] rejects, [getResource] answers [{}] and the cache
    stays as [loadResource] left it. *)
Lemma getResource_load_rejected options net lang namespace s e s1 :
  cached (Options.cacheEnabled options) (getCacheKey lang namespace) s = None →
  loadResource options net lang namespace s = (inl e, s1) →
  ∃ v s2,
    http_getResource options net lang namespace s = (inr v, s2) ∧
    stringify (heap_of s2) v = Some (JObject []) ∧
    trace s2 = trace s1 ∧ cache s2 = cache s.
Proof.
  intros Hmiss Hload. unfold http_getResource.
  rewrite (getResource_miss _ _ _ _ _ Hmiss). unfold getResource_try.
  rewrite Hload.
  destruct (empty_object s1) as [v s2] eqn:He.
  apply empty_object_frame in He as (_ & Hc & Ht & Hs).
  apply http_load_frame in Hload as [_ Hc1].
  exists v, s2. split_and!; [done|done|done|congruence].
Qed.

(** X18: a custom error handler substitutes the payload.  When the fetch
    of a resource fails and a handler is configured, [getResource] returns
    the payload the handler resolves to, and stores it when the cache is
    enabled; when the handler itself rejects, [getResource] returns [{}]
    and stores nothing. *)
Theorem custom_handler_substitutes options net lang namespace s handler e tr :
  Options.handleError options = Some handler →
  cached (Options.cacheEnabled options) (getCacheKey lang namespace) s = None →
  loadResource_try options net lang namespace (trace s) = (Thrown e, tr) →
  (∀ t, handler e lang namespace = inr t →
     ∃ v s1,
       http_getResource options net lang namespace s = (inr v, s1) ∧
       stringify (heap_of s1) v = Some t ∧ trace s1 = tr ∧
       (Options.cacheEnabled options = true →
        ∃ w, cache s1 !! getCacheKey lang namespace = Some w ∧
             stringify (heap_of s1) w = Some t)) ∧
  (∀ e', handler e lang namespace = inl e' →
     ∃ v s1,
       http_getResource options net lang namespace s = (inr v, s1) ∧
       stringify (heap_of s1) v = Some (JObject []) ∧ trace s1 = tr ∧
       cache s1 = cache s).
Proof.
  intros Hhandler Hmiss Htry. split.
  - intros t Ht.
    assert (∃ v0 s0, loadResource options net lang namespace s = (inr v0, s0) ∧
                     stringify (heap_of s0) v0 = Some t ∧ trace s0 = tr)
      as (v0 & s0 & Hload & Hs0 & Htr0).
    { unfold loadResource. rewrite Htry, Hhandler, Ht. unfold settle.
      destruct (materialize t (with_trace tr s)) as [v0 s0] eqn:Hm.
      apply materialize_frame in Hm as (_ & _ & Htr0 & Hs0). by exists v0, s0. }
    destruct (getResource_miss_reads _ _ _ _ _ _ _ _ Hmiss Hload Hs0)
      as (v & s1 & Hget & Hv & Htr1 & Hcache & Hstored).
    exists v, s1. split_and!; [done|done|congruence|].
    intros Hen. rewrite Hen in Hcache. eexists. split; [|by apply Hstored].
    by rewrite Hcache, lookup_insert_eq.
  - intros e' He'.
    assert (loadResource options net lang namespace s = (inl e', with_trace tr s))
      as Hload by (unfold loadResource; by rewrite Htry, Hhandler, He').
    destruct (getResource_load_rejected _ _ _ _ _ _ _ Hmiss Hload)
      as (v & s2 & Hget & Hv & Htr2 & Hc).
    by exists v, s2.
Qed.

Lemma custom_handler_substitutes_witness :
  ∃ v s1,
    http_getResource options_with_handler always_404 "fr" "t" initial = (inr v, s1) ∧
    stringify (heap_of s1) v = Some fallback_payload ∧
    trace s1 = [EvFetch "https://api.example.com/i18n/resources/fr/t"
                  demo_init (Some 5000)] ∧
    (Options.cacheEnabled options_with_handler = true →
     ∃ w, cache s1 !! getCacheKey "fr" "t" = Some w ∧
          stringify (heap_of s1) w = Some fallback_payload).
Proof.
  refine (proj1 (custom_handler_substitutes options_with_handler always_404
                   "fr" "t" initial _ _ _ eq_refl eq_refl _) fallback_payload eq_refl).
  vm_compute; reflexivity.
Defined.

(** X19: a custom parser that rejects is not an error the handler sees.
    When the fetch succeeds and the custom [parseResponse] rejects,
    [getResource] returns [{}] and stores nothing, whether or not an error
    handler is configured; when the parser resolves, its payload is
    returned. *)
Theorem parser_rejection_bypasses_handler options net lang namespace s parser response tr :
  Options.parseResponse options = Some parser →
  cached (Options.cacheEnabled options) (getCacheKey lang namespace) s = None →
  fetchWithTimeout options net (getResourceUrl options lang namespace)
    (get_init options) (trace s) = (inr response, tr) →
  Response.ok response = true →
  (∀ e, parser response = inl e →
     ∃ v s1,
       http_getResource options net lang namespace s = (inr v, s1) ∧
       stringify (heap_of s1) v = Some (JObject []) ∧ trace s1 = tr ∧
       cache s1 = cache s) ∧
  (∀ t, parser response = inr t →
     ∃ v s1,
       http_getResource options net lang namespace s = (inr v, s1) ∧
       stringify (heap_of s1) v = Some t ∧ trace s1 = tr).
Proof.
  intros Hparser Hmiss Hfetch Hok.
  assert (loadResource_try options net lang namespace (trace s)
            = (Parsing (parser response), tr)) as Htry.
  { unfold loadResource_try.
    change {| RequestInit.method := Options.getMethod options;
              RequestInit.headers := Options.headers options;
              RequestInit.body := None |} with (get_init options).
    by rewrite Hfetch, Hok, Hparser. }
  split.
  - intros e He.
    assert (loadResource options net lang namespace s = (inl e, with_trace tr s))
      as Hload by (unfold loadResource; by rewrite Htry, He).
    destruct (getResource_load_rejected _ _ _ _ _ _ _ Hmiss Hload)
      as (v & s2 & Hget & Hv & Htr2 & Hc).
    by exists v, s2.
  - intros t Ht.
    assert (∃ v0 s0, loadResource options net lang namespace s = (inr v0, s0) ∧
                     stringify (heap_of s0) v0 = Some t ∧ trace s0 = tr)
      as (v0 & s0 & Hload & Hs0 & Htr0).
    { unfold loadResource. rewrite Htry, Ht. unfold settle.
      destruct (materialize t (with_trace tr s)) as [v0 s0] eqn:Hm.
      apply materialize_frame in Hm as (_ & _ & Htr0 & Hs0). by exists v0, s0. }
    destruct (getResource_miss_reads _ _ _ _ _ _ _ _ Hmiss Hload Hs0)
      as (v & s1 & Hget & Hv & Htr1 & _).
    exists v, s1. split_and!; [done|done|congruence].
Qed.

Lemma parser_rejection_bypasses_handler_witness :
  ∃ v s1,
    http_getResource options_with_rejecting_parser healthy "en" "t" initial
      = (inr v, s1) ∧
    stringify (heap_of s1) v = Some (JObject []) ∧
    trace s1 = [EvFetch "https://api.example.com/i18n/resources/en/t"
                  demo_init (Some 5000)] ∧
    cache s1 = cache initial.
Proof.
  refine (proj1 (parser_rejection_bypasses_handler options_with_rejecting_parser
                   healthy "en" "t" initial _ _ _ eq_refl eq_refl _ _)
            (Raw (Error "Error" "bad payload")) eq_refl);
    vm_compute; reflexivity.
Defined.

(** X20: a save that fails never reaches the cache.  Whenever
    [saveResource] rejects, the cache and the heap are as before the call;
    and when saving is allowed and the transport hands over a response that
    is not ok, [saveResource] rejects with the structured error made from
    its status. *)
Theorem failed_save_leaves_cache options net lang namespace data s :
  (∀ e s', http_saveResource options net lang namespace data s = (inl e, s') →
           cache s' = cache s ∧ heap_of s' = heap_of s) ∧
  (∀ body response tr,
     Options.allowSaving options = true →
     stringify (heap_of s) data = Some body →
     fetchWithTimeout options net (getResourceUrl options lang namespace)
       (save_init options body) (trace s) = (inr response, tr) →
     Response.ok response = false →
     http_saveResource options net lang namespace data s =
       (inl (Structured (createHttpError (Response.status response)
                           ("保存资源失败: " +:+ status_line response)
                           (getResourceUrl options lang namespace))),
        with_trace tr s)).
Proof.
  split.
  - intros e s'. unfold http_saveResource, saveResource.
    destruct (persistResource options net lang namespace data s)
      as [[e0|[]] s0] eqn:Hp; apply persistResource_heap in Hp as [Hh Hc].
    + by intros [= <- <-].
    + destruct (Options.cacheEnabled options); [|done].
      destruct (deep_copy data (heap_of s0)) as [[h c]|]; [done|].
      by intros [= <- <-].
  - intros body response tr Hallow Hbody Hfetch Hok.
    unfold http_saveResource, saveResource, persistResource.
    rewrite Hallow, Hbody. simpl.
    change {| RequestInit.method := Options.saveMethod options;
              RequestInit.headers :=
                Some (spread [("Content-Type", "application/json")]
                        (Options.headers options));
              RequestInit.body := Some body |} with (save_init options body).
    by rewrite Hfetch, Hok.
Qed.

Lemma failed_save_leaves_cache_witness :
  ∃ e s',
    http_saveResource saving_options read_only "en" "t" (VRef 0) one_object = (inl e, s') ∧
    cache s' = cache one_object ∧ heap_of s' = heap_of one_object.
Proof.
  eexists _, _. split; [vm_compute; reflexivity|].
  apply (proj1 (failed_save_leaves_cache saving_options read_only "en" "t"
                  (VRef 0) one_object)
           (Structured (createHttpError 403 "保存资源失败: 403 Forbidden"
                          "https://api.example.com/i18n/resources/en/t"))).
  vm_compute; reflexivity.
Defined.

(** The entry a successful save leaves in the cache. *)
Lemma saveResource_entry_copy options net lang namespace l s s1 :
  Options.cacheEnabled options = true →
  http_saveResource options net lang namespace (VRef l) s = (inr (), s1) →
  ∃ w t,
    cache s1 !! getCacheKey lang namespace = Some w ∧
    stringify (heap_of s) (VRef l) = Some t ∧
    stringify (heap_of s1) w = Some t ∧
    ∀ l0 o, (l0 < length (heap_of s))%nat →
            stringify (<[l0:=o]> (heap_of s1)) w = Some t.
Proof.
  intros Hen. unfold http_saveResource, saveResource. rewrite Hen.
  destruct (persistResource options net lang namespace (VRef l) s)
    as [[e|[]] s0] eqn:Hp; [done|].
  apply persistResource_heap in Hp as [Hheap Hcache].
  destruct (deep_copy (VRef l) (heap_of s0)) as [[h copy]|] eqn:Hc; [|done].
  intros [= <-]. simpl.
  pose proof (deep_copy_fresh _ _ _ _ Hc) as Hfresh.
  apply deep_copy_spec in Hc as (t & Hs & _ & Hcopy & _).
  rewrite Hheap in Hs, Hfresh.
  exists copy, t. split_and!; [by rewrite lookup_insert_eq|done|done|].
  intros l0 o Hl0. unfold stringify in *. rewrite length_insert.
  eapply stringify_fuel_reach_frame; [|exact Hcopy].
  intros l' Hr. apply list_lookup_insert_ne.
  assert (length (heap_of s) ≤ l' < length h)%nat; [|lia].
  apply (Hfresh h l'); [|done]. by intros ? ?.
Qed.

(** X21: what a successful save stores is a copy.  With the cache enabled,
    after [saveResource] of an object the entry under the pair's key reads
    as the object did, and goes on reading so whatever is written to any
    cell that existed before the call, the cells of the saved object among
    them. *)
Theorem saved_entry_is_a_copy options net lang namespace l s s1 :
  Options.cacheEnabled options = true →
  http_saveResource options net lang namespace (VRef l) s = (inr (), s1) →
  ∃ w t,
    cache s1 !! getCacheKey lang namespace = Some w ∧
    stringify (heap_of s) (VRef l) = Some t ∧
    stringify (heap_of s1) w = Some t ∧
    ∀ l0 o, (l0 < length (heap_of s))%nat →
            stringify (<[l0:=o]> (heap_of s1)) w = Some t.
Proof. exact (saveResource_entry_copy options net lang namespace l s s1). Qed.

Lemma saved_entry_is_a_copy_witness :
  ∃ s1,
    http_saveResource saving_options healthy "en" "t" (VRef 0) one_object = (inr (), s1) ∧
    ∃ w t,
      cache s1 !! getCacheKey "en" "t" = Some w ∧
      stringify (heap_of one_object) (VRef 0) = Some t ∧
      stringify (heap_of s1) w = Some t ∧
      ∀ l0 o, (l0 < length (heap_of one_object))%nat →
              stringify (<[l0:=o]> (heap_of s1)) w = Some t.
Proof.
  eexists. split; [vm_compute; reflexivity|].
  apply (saved_entry_is_a_copy saving_options healthy "en" "t" 0 one_object).
  - reflexivity.
  - vm_compute; reflexivity.
Defined.

Lemma prefix_append (s t : string) : String.prefix s (s +:+ t) = true.
Proof.
  induction s as [|c s IH]; [apply prefix_empty|].
  rewrite append_cons, prefix_cons. by destruct (ascii_dec c c).
Qed.

Lemma clearCache_trace lang namespace s :
  trace (clearCache lang namespace s) = trace s.
Proof.
  unfold clearCache. destruct (given lang); [destruct (given namespace)|]; done.
Qed.

(** X22: the three granularities of [clearCache], and what its truthiness
    tests make of empty strings.  Without a language, or with the empty
    string as language, every entry goes, whatever the namespace; with a
    language and an empty namespace, the call is the one without
    namespace; with a non-empty language alone, every entry whose key
    starts with the language and a dot goes, which covers each namespace
    of the language and also each language that extends it by a dot; the
    heap and the network trace are never touched. *)
Theorem clearCache_granularity s :
  (∀ namespace, cache (clearCache None namespace s) = ∅) ∧
  (∀ namespace, cache (clearCache (Some "") namespace s) = ∅) ∧
  (∀ lang, clearCache (Some lang) (Some "") s = clearCache (Some lang) None s) ∧
  (∀ lang namespace, lang ≠ "" →
     cache (clearCache (Some lang) None s) !! getCacheKey lang namespace = None) ∧
  (∀ lang rest namespace, lang ≠ "" →
     cache (clearCache (Some lang) None s)
       !! getCacheKey (lang +:+ "." +:+ rest) namespace = None) ∧
  (∀ lang namespace,
     heap_of (clearCache lang namespace s) = heap_of s ∧
     trace (clearCache lang namespace s) = trace s).
Proof.
  split_and!.
  - done.
  - done.
  - intros lang. unfold clearCache. simpl. by destruct (given (Some lang)).
  - intros lang namespace Hl. rewrite clearCache_language by done.
    unfold getCacheKey. by rewrite <- append_assoc, prefix_append.
  - intros lang rest namespace Hl. rewrite clearCache_language by done.
    unfold getCacheKey. rewrite !append_assoc.
    by rewrite <- (append_assoc lang "."), prefix_append.
  - intros lang namespace. unfold clearCache.
    destruct (given lang); [destruct (given namespace)|]; done.
Qed.

Lemma clearCache_granularity_witness :
  cache (clearCache (Some "en") None initial) !! getCacheKey "en" "common" = None ∧
  cache (clearCache (Some "en") None initial) !! getCacheKey "en.US" "common" = None.
Proof.
  split.
  - apply (proj1 (proj2 (proj2 (proj2 (clearCache_granularity initial)))) "en" "common").
    discriminate.
  - apply (proj1 (proj2 (proj2 (proj2 (proj2 (clearCache_granularity initial)))))
             "en" "US" "common").
    discriminate.
Defined.

(** X23: invalidation forces a refetch.  After [clearCache] for the pair,
    for its language or for everything, the next [getResource] for the pair
    misses the cache and goes to the network: it makes at least one
    attempt, and still returns a payload. *)
Theorem invalidation_forces_refetch options net lang namespace s s0 r s' :
  lang ≠ "" →
  (namespace ≠ "" ∧ s0 = clearCache (Some lang) (Some namespace) s) ∨
  s0 = clearCache (Some lang) None s ∨
  s0 = clearCache None None s →
  http_getResource options net lang namespace s0 = (r, s') →
  (attempts (trace s) < attempts (trace s'))%nat ∧ ∃ v, r = inr v.
Proof.
  intros Hl Hs0 Hget.
  assert (cache s0 !! getCacheKey lang namespace = None ∧ trace s0 = trace s)
    as [Hgone Htr].
  { destruct Hs0 as [[Hn ->]|[->| ->]].
    - split; [|apply clearCache_trace].
      rewrite clearCache_pair by done. by rewrite decide_True.
    - split; [|apply clearCache_trace].
      rewrite clearCache_language by done.
      unfold getCacheKey. by rewrite <- append_assoc, prefix_append.
    - done. }
  assert (cached (Options.cacheEnabled options) (getCacheKey lang namespace) s0 = None)
    as Hmiss.
  { unfold cached. rewrite Hgone. by destruct (Options.cacheEnabled options). }
  destruct (getResource_miss_trace _ _ _ _ _ _ _ Hmiss Hget) as [Htr' Hv].
  split; [|done]. rewrite Htr', <- Htr. apply fetchWithTimeout_attempts.
Qed.

Lemma invalidation_forces_refetch_witness :
  let s1 := snd (http_getResource demo_options healthy "en" "t" initial) in
  let s0 := clearCache (Some "en") (Some "t") s1 in
  (attempts (trace s1)
     < attempts (trace (snd (http_getResource demo_options healthy "en" "t" s0))))%nat ∧
  ∃ v, fst (http_getResource demo_options healthy "en" "t" s0) = inr v.
Proof.
  intros s1 s0.
  apply (invalidation_forces_refetch demo_options healthy "en" "t" s1 s0).
  - discriminate.
  - left. split; [discriminate|reflexivity].
  - apply surjective_pairing.
Defined.

(** X24: the list endpoints take the list bare or wrapped, and never
    reject.  When the fetch ends with an ok response, [getLanguages]
    returns the body when it is an array and its [languages] property when
    the body is an object that has an array there; [getNamespaces] does
    the same with [namespaces]; when the fetch is rejected or the response
    is not ok, both return the empty list.  The state only changes by the
    network trace. *)
Theorem list_endpoints_unwrap options net s :
  (∀ response tr items,
     fetchWithTimeout options net
       (Options.baseUrl options +:+ Options.languagesUrl options)
       (get_init options) (trace s) = (inr response, tr) →
     Response.ok response = true →
     (Response.body response = Some (JArray items) ∨
      ∃ props, Response.body response = Some (JObject props) ∧
               property "languages" props = Some (JArray items)) →
     getLanguages options net s = (items, with_trace tr s)) ∧
  (∀ response tr items,
     fetchWithTimeout options net
       (Options.baseUrl options +:+ Options.namespacesUrl options)
       (get_init options) (trace s) = (inr response, tr) →
     Response.ok response = true →
     (Response.body response = Some (JArray items) ∨
      ∃ props, Response.body response = Some (JObject props) ∧
               property "namespaces" props = Some (JArray items)) →
     getNamespaces options net s = (items, with_trace tr s)) ∧
  (∀ r tr,
     fetchWithTimeout options net
       (Options.baseUrl options +:+ Options.languagesUrl options)
       (get_init options) (trace s) = (r, tr) →
     match r with inl _ => True | inr response => Response.ok response = false end →
     getLanguages options net s = ([], with_trace tr s)) ∧
  (∀ r tr,
     fetchWithTimeout options net
       (Options.baseUrl options +:+ Options.namespacesUrl options)
       (get_init options) (trace s) = (r, tr) →
     match r with inl _ => True | inr response => Response.ok response = false end →
     getNamespaces options net s = ([], with_trace tr s)).
Proof.
  split_and!.
  - intros response tr items Hfetch Hok Hbody. unfold getLanguages, list_try.
    change {| RequestInit.method := Options.getMethod options;
              RequestInit.headers := Options.headers options;
              RequestInit.body := None |} with (get_init options).
    rewrite Hfetch, Hok. simpl.
    destruct Hbody as [-> | (props & -> & Hprop)]; [done|]. by rewrite Hprop.
  - intros response tr items Hfetch Hok Hbody. unfold getNamespaces, list_try.
    change {| RequestInit.method := Options.getMethod options;
              RequestInit.headers := Options.headers options;
              RequestInit.body := None |} with (get_init options).
    rewrite Hfetch, Hok. simpl.
    destruct Hbody as [-> | (props & -> & Hprop)]; [done|]. by rewrite Hprop.
  - intros r tr Hfetch Hbad. unfold getLanguages, list_try.
    change {| RequestInit.method := Options.getMethod options;
              RequestInit.headers := Options.headers options;
              RequestInit.body := None |} with (get_init options).
    rewrite Hfetch. destruct r as [e|response]; [done|]. by rewrite Hbad.
  - intros r tr Hfetch Hbad. unfold getNamespaces, list_try.
    change {| RequestInit.method := Options.getMethod options;
              RequestInit.headers := Options.headers options;
              RequestInit.body := None |} with (get_init options).
    rewrite Hfetch. destruct r as [e|response]; [done|]. by rewrite Hbad.
Qed.

Lemma list_endpoints_unwrap_witness :
  getLanguages demo_options wrapped_lists initial =
    ([JStr "en"; JStr "fr"],
     with_trace [EvFetch "https://api.example.com/i18n/languages" demo_init (Some 5000)]
       initial).
Proof.
  eapply (proj1 (list_endpoints_unwrap demo_options wrapped_lists initial)).
  - vm_compute; reflexivity.
  - reflexivity.
  - right. eexists. split; reflexivity.
Defined.

(** X25: what sharing a cache key means.  With the cache enabled, when two
    pairs have the same cache key, a successful [saveResource] for one is
    what the next [getResource] for the other returns, without any network
    call: the second pair reads the first pair's payload. *)
Theorem shared_key_shares_entry options net lang1 ns1 lang2 ns2 l s s1 :
  Options.cacheEnabled options = true →
  getCacheKey lang1 ns1 = getCacheKey lang2 ns2 →
  http_saveResource options net lang1 ns1 (VRef l) s = (inr (), s1) →
  ∃ t v s2,
    stringify (heap_of s) (VRef l) = Some t ∧
    http_getResource options net lang2 ns2 s1 = (inr v, s2) ∧
    stringify (heap_of s2) v = Some t ∧
    trace s2 = trace s1.
Proof.
  intros Hen Hkey Hsave.
  destruct (saveResource_entry_copy _ _ _ _ _ _ _ Hen Hsave)
    as (w & t & Hw & Hs & Hws & _).
  assert (truthy w = true) as Htruthy.
  { unfold http_saveResource, saveResource in Hsave. rewrite Hen in Hsave.
    destruct (persistResource options net lang1 ns1 (VRef l) s)
      as [[e|[]] s0] eqn:Hp; [done|].
    apply persistResource_heap in Hp as [Hheap _].
    destruct (deep_copy (VRef l) (heap_of s0)) as [[h copy]|] eqn:Hc; [|done].
    injection Hsave as <-. simpl in Hw. rewrite lookup_insert_eq in Hw.
    injection Hw as <-.
    apply deep_copy_spec in Hc as (t' & Hs' & Hparse & _).
    pose proof (stringify_ref_truthy _ _ _ (heap_of s0) Hs') as H.
    by rewrite Hparse in H. }
  destruct (getResource_hit_reads (Options.cacheEnabled options)
              (loadResource options net) lang2 ns2 s1 w t)
    as (v & s2 & Hget & Hv & _ & Htr & _).
  { rewrite Hen, <- Hkey. unfold cached. by rewrite Hw, Htruthy. }
  { done. }
  by exists t, v, s2.
Qed.

Lemma shared_key_shares_entry_witness :
  ∃ s1,
    http_saveResource saving_options healthy "a.b" "c" (VRef 0) one_object = (inr (), s1) ∧
    ∃ t v s2,
      stringify (heap_of one_object) (VRef 0) = Some t ∧
      http_getResource saving_options healthy "a" "b.c" s1 = (inr v, s2) ∧
      stringify (heap_of s2) v = Some t ∧
      trace s2 = trace s1.
Proof.
  eexists. split; [vm_compute; reflexivity|].
  apply (shared_key_shares_entry saving_options healthy "a.b" "c" "a" "b.c" 0 one_object).
  - reflexivity.
  - reflexivity.
  - vm_compute; reflexivity.
Defined.

(** * MemoryAdapter *)

(** ** Own properties *)

Lemma own_property_set key v ps :
  own_property key (set_property key v ps) = Some v.
Proof.
  induction ps as [|[k w] ps IH]; simpl.
  - by rewrite String.eqb_refl.
  - destruct (String.eqb key k) eqn:E; simpl; by rewrite E.
Qed.

Lemma own_property_set_other key key' v ps :
  key ≠ key' →
  own_property key (set_property key' v ps) = own_property key ps.
Proof.
  intros Hne. induction ps as [|[k w] ps IH]; simpl.
  - by rewrite (proj2 (String.eqb_neq _ _) Hne).
  - destruct (String.eqb key' k) eqn:E; simpl.
    + apply String.eqb_eq in E as <-.
      by rewrite (proj2 (String.eqb_neq _ _) Hne).
    + by rewrite IH.
Qed.

Lemma own_property_elem key v ps :
  own_property key ps = Some v → (key, v) ∈ ps.
Proof.
  induction ps as [|[k w] ps IH]; simpl; [done|].
  destruct (String.eqb key k) eqn:E.
  - apply String.eqb_eq in E as <-. intros [= <-]. apply list_elem_of_here.
  - intros H. apply list_elem_of_further. by apply IH.
Qed.

Lemma agree_below_refl n (h : heap) : agree_below n h h.
Proof. by intros l _. Qed.

Lemma deep_copy_reads v h t :
  stringify h v = Some t →
  ∃ h' c, deep_copy v h = Some (h', c) ∧ parse t h = (h', c) ∧
          stringify h' c = Some t ∧ h `prefix_of` h' ∧
          (∀ l, reach h' c l → (length h ≤ l < length h')%nat).
Proof.
  intros Hs. unfold deep_copy. rewrite Hs.
  destruct (parse t h) as [h' c] eqn:Hp. exists h', c.
  split_and!; try done.
  - by eapply stringify_parse.
  - pose proof (parse_prefix t h) as H. by rewrite Hp in H.
  - intros l Hr. eapply (parse_fresh t h h' c Hp h' l); [apply agree_below_refl|done].
Qed.

Section MemoryAdapterFacts.
Variable cacheEnabled : bool.

Local Abbreviation mget := (memory_getResource cacheEnabled).
Local Abbreviation msave := (memory_saveResource cacheEnabled).

(** A miss whose load succeeds returns a copy of what was loaded. *)
Lemma memory_getResource_miss_reads lang namespace m r m1 t :
  cached cacheEnabled (getCacheKey lang namespace) (store m) = None →
  loadResourceSync lang namespace m = Some (inr r, m1) →
  stringify (heap_of (store m1)) r = Some t →
  ∃ v m2,
    mget lang namespace m = Some (inr v, m2) ∧
    stringify (heap_of (store m2)) v = Some t ∧
    resources m2 = resources m1 ∧
    heap_of (store m1) `prefix_of` heap_of (store m2).
Proof.
  intros Hmiss Hload Hs. unfold memory_getResource.
  rewrite Hmiss, Hload. simpl.
  destruct cacheEnabled.
  - destruct (deep_copy_reads _ _ _ Hs) as (h2 & c & -> & _ & _ & Hpre & _).
    simpl.
    destruct (deep_copy_reads r h2 t) as (h3 & v & -> & _ & Hv & Hpre3 & _).
    { by eapply stringify_prefix. }
    eexists _, _. split; [reflexivity|]. simpl. split_and!; try done. by etrans.
  - destruct (deep_copy_reads _ _ _ Hs) as (h3 & v & -> & _ & Hv & Hpre & _).
    eexists _, _. split; [reflexivity|]. simpl. by split_and!.
Qed.

(** A hit returns a copy of the cached entry. *)
Lemma memory_getResource_hit_reads lang namespace m w t :
  cached cacheEnabled (getCacheKey lang namespace) (store m) = Some w →
  stringify (heap_of (store m)) w = Some t →
  ∃ v m2,
    mget lang namespace m = Some (inr v, m2) ∧
    stringify (heap_of (store m2)) v = Some t ∧
    resources m2 = resources m ∧
    heap_of (store m) `prefix_of` heap_of (store m2).
Proof.
  intros Hhit Hs. unfold memory_getResource. rewrite Hhit.
  destruct (deep_copy_reads _ _ _ Hs) as (h3 & v & -> & _ & Hv & Hpre & _).
  eexists _, _. split; [reflexivity|]. simpl. by split_and!.
Qed.

(** Loading only allocates. *)
Lemma loadResourceSync_grows lang namespace m r m1 :
  loadResourceSync lang namespace m = Some (r, m1) →
  resources m1 = resources m ∧
  heap_of (store m) `prefix_of` heap_of (store m1) ∧
  cache (store m1) = cache (store m).
Proof.
  unfold loadResourceSync. intros H.
  destruct (get_own _ (resources m) lang) as [langResources|]; simpl in H; [|done].
  destruct (falsy langResources).
  { injection H as <- <-. simpl. split_and!; try done. by apply prefix_app_r. }
  destruct (get_own _ _ namespace) as [resource|]; simpl in H; [|done].
  destruct (falsy resource).
  { injection H as <- <-. simpl. split_and!; try done. by apply prefix_app_r. }
  destruct (deep_copy _ _) as [[h c]|] eqn:Hc.
  - injection H as <- <-. simpl. split_and!; try done.
    by apply deep_copy_spec in Hc as (? & _ & _ & _ & ?).
  - by injection H as <- <-.
Qed.

(** What [getResource] returns is made of cells allocated by the call, and
    the call only allocates. *)
Lemma memory_getResource_fresh lang namespace m r m2 :
  mget lang namespace m = Some (r, m2) →
  resources m2 = resources m ∧
  heap_of (store m) `prefix_of` heap_of (store m2) ∧
  match r with
  | inr v => ∀ l, reach (heap_of (store m2)) v l → (length (heap_of (store m)) ≤ l)%nat
  | inl _ => True
  end.
Proof.
  unfold memory_getResource. intros H.
  destruct (cached _ _ _) as [w|].
  { destruct (deep_copy w _) as [[h c]|] eqn:Hc.
    - injection H as <- <-. simpl. split_and!; try done.
      + by apply deep_copy_spec in Hc as (? & _ & _ & _ & ?).
      + intros l Hr.
        by destruct (deep_copy_fresh _ _ _ _ Hc h l (agree_below_refl _ _) Hr).
    - by injection H as <- <-. }
  destruct (loadResourceSync lang namespace m) as [[r1 m1]|] eqn:Hload;
    simpl in H; [|done].
  apply loadResourceSync_grows in Hload as (Hres & Hpre & _).
  assert (∀ m', resources m' = resources m →
                heap_of (store m) `prefix_of` heap_of (store m') →
                (let '(v, s2) := empty_object (store m') in
                 (inr v, with_store s2 m')) = (r, m2) →
          resources m2 = resources m ∧
          heap_of (store m) `prefix_of` heap_of (store m2) ∧
          match r with
          | inr v => ∀ l, reach (heap_of (store m2)) v l →
                          (length (heap_of (store m)) ≤ l)%nat
          | inl _ => True
          end) as Hempty.
  { intros m' Hres' Hpre' [= <- <-]. simpl. split_and!; try done.
    - etrans; [exact Hpre'|]. by apply prefix_app_r.
    - intros l Hr. apply reach_empty_object in Hr as ->.
      by apply prefix_length. }
  destruct r1 as [e|r1].
  { apply (Hempty m1); [done|done|]. by simplify_eq/=. }
  destruct cacheEnabled.
  - destruct (deep_copy r1 (heap_of (store m1))) as [[h c]|] eqn:Hc.
    + simpl in H. apply deep_copy_spec in Hc as (? & _ & _ & _ & Hpre2).
      destruct (deep_copy r1 h) as [[h3 v]|] eqn:Hc3.
      * injection H as <- <-. simpl.
        pose proof Hc3 as Hfresh.
        apply deep_copy_spec in Hc3 as (? & _ & _ & _ & Hpre3).
        split_and!; try done; [by do 2 (etrans; [eassumption|])|].
        intros l Hr.
        destruct (deep_copy_fresh _ _ _ _ Hfresh h3 l (agree_below_refl _ _) Hr).
        apply prefix_length in Hpre, Hpre2. lia.
      * apply (Hempty (with_store
            (with_cache (<[getCacheKey lang namespace := c]> (cache (store m1)))
               (with_heap h (store m1))) m1) Hres); [simpl; by etrans|].
        by simplify_eq/=.
    + apply (Hempty m1); [done|done|]. by simplify_eq/=.
  - destruct (deep_copy r1 (heap_of (store m1))) as [[h3 v]|] eqn:Hc3.
    + injection H as <- <-. simpl.
      pose proof Hc3 as Hfresh.
      apply deep_copy_spec in Hc3 as (? & _ & _ & _ & Hpre3).
      split_and!; try done; [by etrans|].
      intros l Hr.
      destruct (deep_copy_fresh _ _ _ _ Hfresh h3 l (agree_below_refl _ _) Hr).
      apply prefix_length in Hpre. lia.
    + apply (Hempty m1); [done|done|]. by simplify_eq/=.
Qed.
End MemoryAdapterFacts.

(** ** Reading never touches the store *)

(** X26: [MemoryAdapter.getResource] only allocates: the store reads after
    the call as it did before, whatever the call returned.  The object it
    returns is the caller's own: no write to a cell reachable from it
    changes what the store reads as. *)
Theorem memory_getResource_isolated cacheEnabled lang namespace m r m2 t :
  stringify (heap_of (store m)) (resources m) = Some t →
  memory_getResource cacheEnabled lang namespace m = Some (r, m2) →
  resources m2 = resources m ∧
  stringify (heap_of (store m2)) (resources m2) = Some t ∧
  match r with
  | inr v =>
      ∀ l o, reach (heap_of (store m2)) v l →
             stringify (<[l:=o]> (heap_of (store m2))) (resources m2) = Some t
  | inl _ => True
  end.
Proof.
  intros Ht Hget.
  apply memory_getResource_fresh in Hget as (Hres & Hpre & Hfresh).
  rewrite Hres.
  assert (stringify (heap_of (store m2)) (resources m) = Some t) as Ht2.
  { by eapply stringify_prefix. }
  split_and!; try done.
  destruct r as [e|v]; [done|].
  intros l o Hr.
  rewrite <- Ht2.
  eapply (independent_above (length (heap_of (store m))) (heap_of (store m))
            (heap_of (store m2)) v (resources m) t); try done.
  - by apply agree_below_prefix.
  - by apply prefix_length.
Qed.

Lemma memory_getResource_isolated_witness :
  ∃ r m2 t,
    stringify (heap_of (store demo_memory)) (resources demo_memory) = Some t ∧
    memory_getResource true "en" "translation" demo_memory = Some (r, m2) ∧
    resources m2 = resources demo_memory ∧
    stringify (heap_of (store m2)) (resources m2) = Some t ∧
    match r with
    | inr v =>
        ∀ l o, reach (heap_of (store m2)) v l →
               stringify (<[l:=o]> (heap_of (store m2))) (resources m2) = Some t
    | inl _ => True
    end.
Proof.
  eexists _, _, _.
  split; [vm_compute; reflexivity|].
  split; [vm_compute; reflexivity|].
  apply (memory_getResource_isolated true "en" "translation" demo_memory).
  - vm_compute; reflexivity.
  - vm_compute; reflexivity.
Defined.

(** ** Clearing *)

Lemma getCacheKey_miss_empty cacheEnabled key s :
  cache s = ∅ → cached cacheEnabled key s = None.
Proof. intros H. unfold cached. rewrite H, lookup_empty. by destruct cacheEnabled. Qed.

(** A language the store does not have loads as an empty object. *)
Lemma loadResourceSync_missing lang namespace m lr ps :
  plain_name lang = true →
  resources m = VRef lr →
  heap_of (store m) !! lr = Some (HObject ps) →
  own_property lang ps = None →
  loadResourceSync lang namespace m =
    Some (inr (VRef (length (heap_of (store m)))),
          with_store (with_heap (heap_of (store m) ++ [HObject []]) (store m)) m).
Proof.
  intros Hplain Hroot Hcell Hnone. unfold loadResourceSync, get_own.
  by rewrite Hplain, Hroot, Hcell, Hnone.
Qed.

Lemma memory_getLanguages_keys m lr ps :
  resources m = VRef lr →
  heap_of (store m) !! lr = Some (HObject ps) →
  memory_getLanguages m = Some (map fst ps).
Proof. intros Hroot Hcell. unfold memory_getLanguages. by rewrite Hroot, Hcell. Qed.

Lemma memory_getNamespaces_empty m lr :
  resources m = VRef lr →
  heap_of (store m) !! lr = Some (HObject []) →
  memory_getNamespaces m = Some [].
Proof. intros Hroot Hcell. unfold memory_getNamespaces. by rewrite Hroot, Hcell. Qed.

(** X27: After [clearResources] the adapter has no language and no
    namespace, and every resource reads as the empty object, whatever was
    stored or cached before. *)
Theorem clearResources_forgets cacheEnabled lang namespace m :
  plain_name lang = true →
  memory_getLanguages (clearResources m) = Some [] ∧
  memory_getNamespaces (clearResources m) = Some [] ∧
  ∃ v m2,
    memory_getResource cacheEnabled lang namespace (clearResources m) = Some (inr v, m2) ∧
    stringify (heap_of (store m2)) v = Some (JObject []).
Proof.
  intros Hplain.
  assert (heap_of (store (clearResources m)) !! length (heap_of (store m))
          = Some (HObject [])) as Hcell.
  { simpl. by rewrite lookup_app_r, Nat.sub_diag by lia. }
  split_and!.
  - exact (memory_getLanguages_keys (clearResources m) _ [] eq_refl Hcell).
  - exact (memory_getNamespaces_empty (clearResources m) _ eq_refl Hcell).
  - destruct (memory_getResource_miss_reads cacheEnabled lang namespace
                (clearResources m) _ _ (JObject [])
                (getCacheKey_miss_empty cacheEnabled _ (store (clearResources m)) eq_refl)
                (loadResourceSync_missing lang namespace (clearResources m) _ []
                   Hplain eq_refl Hcell eq_refl))
      as (v & m2 & Hget & Hv & _).
    { apply stringify_empty_object. }
    by exists v, m2.
Qed.

Lemma clearResources_forgets_witness :
  memory_getLanguages (clearResources demo_memory) = Some [] ∧
  memory_getNamespaces (clearResources demo_memory) = Some [] ∧
  ∃ v m2,
    memory_getResource true "en" "translation" (clearResources demo_memory)
      = Some (inr v, m2) ∧
    stringify (heap_of (store m2)) v = Some (JObject []).
Proof. apply (clearResources_forgets true "en" "translation" demo_memory). reflexivity. Defined.

(** ** Listing namespaces *)

Lemma existsb_eqb_elem (n : string) (seen : list string) :
  existsb (String.eqb n) seen = true ↔ n ∈ seen.
Proof.
  rewrite existsb_exists. split.
  - intros (x & Hin & Heq). apply String.eqb_eq in Heq as ->.
    by apply list_elem_of_In.
  - intros Hin. exists n. split; [by apply list_elem_of_In|apply String.eqb_refl].
Qed.

Lemma set_add_spec n seen :
  NoDup seen →
  NoDup (set_add n seen) ∧ ∀ x, x ∈ set_add n seen ↔ x ∈ seen ∨ x = n.
Proof.
  intros Hnd. unfold set_add.
  destruct (existsb (String.eqb n) seen) eqn:E.
  - apply existsb_eqb_elem in E. split; [done|].
    intros x. split; [by left|]. by intros [?| ->].
  - assert (n ∉ seen) as Hnot.
    { intros Hin. apply existsb_eqb_elem in Hin. congruence. }
    split.
    + apply NoDup_app. split_and!; [done| |apply NoDup_singleton].
      intros x Hx ->%list_elem_of_singleton. done.
    + intros x. rewrite elem_of_app, list_elem_of_singleton. done.
Qed.

Lemma set_add_all names : ∀ seen,
  NoDup seen →
  NoDup (foldl (λ s n, set_add n s) seen names) ∧
  ∀ x, x ∈ foldl (λ s n, set_add n s) seen names ↔ x ∈ seen ∨ x ∈ names.
Proof.
  induction names as [|n names IH]; intros seen Hnd; simpl.
  - split; [done|]. intros x. rewrite elem_of_nil. tauto.
  - destruct (set_add_spec n seen Hnd) as [Hnd1 Hin1].
    destruct (IH _ Hnd1) as [Hnd2 Hin2]. split; [done|].
    intros x. rewrite Hin2, Hin1, elem_of_cons. tauto.
Qed.

(** X28: [MemoryAdapter.getNamespaces] lists every namespace of every
    language, each one once. *)
Theorem memory_getNamespaces_collects m lr ps names :
  resources m = VRef lr →
  heap_of (store m) !! lr = Some (HObject ps) →
  memory_getNamespaces m = Some names →
  NoDup names ∧
  ∀ ns, ns ∈ names ↔
        ∃ lang langResources keys,
          (lang, langResources) ∈ ps ∧
          namespaces_of (heap_of (store m)) langResources = Some keys ∧
          ns ∈ keys.
Proof.
  intros Hroot Hcell. unfold memory_getNamespaces. rewrite Hroot, Hcell.
  set (step := λ (acc : option (list string)) (kv : string * jval),
         match acc, namespaces_of (heap_of (store m)) (snd kv) with
         | Some seen, Some names => Some (foldl (λ s n, set_add n s) seen names)
         | _, _ => None
         end).
  assert (∀ qs, foldl step None qs = None) as Hnone.
  { induction qs as [|kv qs IH]; [done|]. simpl. exact IH. }
  assert (∀ qs seen, NoDup seen → foldl step (Some seen) qs = Some names →
            NoDup names ∧
            ∀ ns, ns ∈ names ↔
                  ns ∈ seen ∨
                  ∃ lang langResources keys,
                    (lang, langResources) ∈ qs ∧
                    namespaces_of (heap_of (store m)) langResources = Some keys ∧
                    ns ∈ keys) as Hgen.
  { induction qs as [|[lang lv] qs IH]; intros seen Hnd Hfold.
    - injection Hfold as <-. split; [done|]. intros ns. split; [by left|].
      intros [?|(? & ? & ? & Hin & _)]; [done|]. by apply elem_of_nil in Hin.
    - change (foldl step
                (match namespaces_of (heap_of (store m)) lv with
                 | Some ks => Some (foldl (λ s n, set_add n s) seen ks)
                 | None => None
                 end) qs = Some names) in Hfold.
      destruct (namespaces_of (heap_of (store m)) lv) as [keys|] eqn:Hkeys;
        [|by rewrite Hnone in Hfold].
      destruct (set_add_all keys seen Hnd) as [Hnd1 Hin1].
      destruct (IH _ Hnd1 Hfold) as [Hnd2 Hin2]. split; [done|].
      intros ns. rewrite Hin2, Hin1. split.
      + intros [[?|Hin]|(l' & v' & ks & Hin & Hk & Hns)].
        * by left.
        * right. exists lang, lv, keys. split_and!; try done. apply list_elem_of_here.
        * right. exists l', v', ks. split_and!; try done.
          by apply list_elem_of_further.
      + intros [?|(l' & v' & ks & Hin & Hk & Hns)]; [by left; left|].
        apply elem_of_cons in Hin as [[= -> ->]|Hin].
        * left. right. rewrite Hkeys in Hk. by injection Hk as ->.
        * right. by exists l', v', ks. }
  intros Hfold. destruct (Hgen ps [] (NoDup_nil_2) Hfold) as [Hnd Hin].
  split; [done|]. intros ns. rewrite Hin, elem_of_nil. tauto.
Qed.

Lemma memory_getNamespaces_collects_witness :
  ∃ names,
    memory_getNamespaces demo_memory = Some names ∧
    NoDup names ∧
    ∀ ns, ns ∈ names ↔
          ∃ lang langResources keys,
            (lang, langResources) ∈
              [("en", VRef 9); ("fr", VRef 11)] ∧
            namespaces_of (heap_of (store demo_memory)) langResources = Some keys ∧
            ns ∈ keys.
Proof.
  eexists. split; [vm_compute; reflexivity|].
  apply (memory_getNamespaces_collects demo_memory 12
           [("en", VRef 9); ("fr", VRef 11)]).
  - vm_compute; reflexivity.
  - vm_compute; reflexivity.
  - vm_compute; reflexivity.
Defined.

(** ** Saving *)

Lemma get_own_Some h obj key x :
  get_own h obj key = Some x →
  plain_name key = true ∧
  ∃ l ps, obj = VRef l ∧ h !! l = Some (HObject ps) ∧ x = own_property key ps.
Proof.
  unfold get_own. destruct (plain_name key); [|done].
  destruct obj as [| | | |l]; try done.
  destruct (h !! l) as [[ps|]|] eqn:Hl; try done.
  intros [= <-]. split; [done|]. by exists l, ps.
Qed.

Lemma put_own_Some h obj key v h' :
  put_own h obj key v = Some h' →
  plain_name key = true ∧
  ∃ l ps, obj = VRef l ∧ h !! l = Some (HObject ps) ∧
          h' = <[l := HObject (set_property key v ps)]> h.
Proof.
  unfold put_own. destruct (plain_name key); [|done].
  destruct obj as [| | | |l]; try done.
  destruct (h !! l) as [[ps|]|] eqn:Hl; try done.
  intros [= <-]. split; [done|]. by exists l, ps.
Qed.

Lemma falsy_Some_ref x :
  falsy x = false → ∃ v, x = Some v ∧ truthy v = true.
Proof.
  destruct x as [v|]; simpl; [|done]. intros H. exists v. split; [done|].
  by destruct (truthy v).
Qed.

(** What a successful [persistResourceSync] did: it made sure the root has
    an object for the language (a new one at the end of the heap when the
    entry was missing or falsy), copied the data, and stored the copy in
    that object. *)
Lemma persistResourceSync_inr lang namespace data m m1 :
  persistResourceSync lang namespace data m = Some (inr (), m1) →
  let h := heap_of (store m) in
  ∃ lr ps lt qs h1 h2 copy,
    plain_name lang = true ∧ plain_name namespace = true ∧
    resources m = VRef lr ∧ resources m1 = VRef lr ∧
    cache (store m1) = cache (store m) ∧
    h !! lr = Some (HObject ps) ∧
    ((own_property lang ps = Some (VRef lt) ∧ h1 = h) ∨
     (lt = length h ∧
      h1 = <[lr := HObject (set_property lang (VRef lt) ps)]> (h ++ [HObject []]))) ∧
    (∃ ps1, h1 !! lr = Some (HObject ps1) ∧ own_property lang ps1 = Some (VRef lt)) ∧
    deep_copy data h1 = Some (h2, copy) ∧
    h2 !! lt = Some (HObject qs) ∧
    heap_of (store m1) = <[lt := HObject (set_property namespace copy qs)]> h2.
Proof.
  intros H h. unfold persistResourceSync in H. fold h in H.
  destruct (get_own h (resources m) lang) as [x|] eqn:Hg; simpl in H; [|done].
  apply get_own_Some in Hg as (Hpl & lr & ps & Hroot & Hcell & ->).
  pose proof (lookup_lt_Some _ _ _ Hcell) as Hlr.
  destruct (falsy (own_property lang ps)) eqn:Hf.
  - destruct (put_own (h ++ [HObject []]) (resources m) lang (VRef (length h)))
      as [h1|] eqn:Hp; simpl in H; [|done].
    apply put_own_Some in Hp as (_ & lr' & ps' & Hroot' & Hcell' & ->).
    rewrite Hroot in Hroot'. injection Hroot' as <-.
    rewrite lookup_app_l, Hcell in Hcell' by done. injection Hcell' as <-.
    set (h1 := <[lr := HObject (set_property lang (VRef (length h)) ps)]>
                 (h ++ [HObject []])) in *.
    assert (h1 !! lr = Some (HObject (set_property lang (VRef (length h)) ps)))
      as Hcell1.
    { apply list_lookup_insert_eq. rewrite length_app. simpl. lia. }
    destruct (get_own h1 (resources m) lang) as [target|] eqn:Ht; simpl in H; [|done].
    apply get_own_Some in Ht as (_ & lr' & ps1 & Hroot' & Hcell1' & ->).
    rewrite Hroot in Hroot'. injection Hroot' as <-.
    rewrite Hcell1 in Hcell1'. injection Hcell1' as <-.
    rewrite own_property_set in H. simpl in H.
    destruct (deep_copy data h1) as [[h2 copy]|] eqn:Hc; [|done].
    destruct (put_own h2 (VRef (length h)) namespace copy) as [h3|] eqn:Hp;
      simpl in H; [|done].
    apply put_own_Some in Hp as (Hpn & lt & qs & [= <-] & Hcellt & ->).
    injection H as <-.
    exists lr, ps, (length h), qs, h1, h2, copy. simpl.
    split_and!; try done.
    + by right.
    + eexists. split; [exact Hcell1|apply own_property_set].
  - apply falsy_Some_ref in Hf as (tv & Hown & Htruthy). simpl in H.
    destruct (get_own h (resources m) lang) as [target|] eqn:Ht; simpl in H; [|done].
    apply get_own_Some in Ht as (_ & lr' & ps1 & Hroot' & Hcell1' & ->).
    rewrite Hroot in Hroot'. injection Hroot' as <-.
    rewrite Hcell in Hcell1'. injection Hcell1' as <-.
    rewrite Hown in H. simpl in H.
    destruct (deep_copy data h) as [[h2 copy]|] eqn:Hc; [|done].
    destruct (put_own h2 tv namespace copy) as [h3|] eqn:Hp; simpl in H; [|done].
    apply put_own_Some in Hp as (Hpn & lt & qs & -> & Hcellt & ->).
    injection H as <-.
    exists lr, ps, lt, qs, h, h2, copy. simpl.
    split_and!; try done.
    + by left.
    + by exists ps.
Qed.

(** X29: What [MemoryAdapter.saveResource] stored is what
    [getResource] then returns, with or without the cache: the document the
    caller's object read as when it was saved.  The caller's object is an
    object of its own, sharing no cell with the store, and the store is a
    tree. *)
Theorem memory_save_then_get cacheEnabled lang namespace ld m m1 t :
  stringify (heap_of (store m)) (VRef ld) = Some t →
  is_Some (stringify (heap_of (store m)) (resources m)) →
  (∀ l, reach (heap_of (store m)) (resources m) l →
        ¬ reach (heap_of (store m)) (VRef ld) l) →
  memory_saveResource cacheEnabled lang namespace (VRef ld) m = Some (inr (), m1) →
  ∃ v m2,
    memory_getResource cacheEnabled lang namespace m1 = Some (inr v, m2) ∧
    stringify (heap_of (store m2)) v = Some t.
Proof.
  intros Hdata [tr Hstore] Hsep Hsave.
  unfold memory_saveResource in Hsave.
  destruct (persistResourceSync lang namespace (VRef ld) m) as [[[e|[]] mp]|] eqn:Hp;
    simpl in Hsave; try done.
  apply persistResourceSync_inr in Hp
    as (lr & ps & lt & qs & h1 & h2 & copy & Hpl & Hpn & Hroot & Hroot1 & Hcache
        & Hcell & Hcase & (ps1 & Hcell1 & Hown1) & Hcopy & Hcellt & Hheap).
  set (h := heap_of (store m)) in *.
  pose proof (lookup_lt_Some _ _ _ Hcell) as Hlr.
  assert (∀ l, reach h (VRef ld) l → (l < length h)%nat) as Hbound.
  { intros l Hr.
    eapply (reach_bounded (length h) h h); [apply agree_below_refl|exact Hdata|done]. }
  assert ((lt < length h1)%nat ∧ lt ≠ lr ∧
          (∀ l, reach h (VRef ld) l → l ≠ lt) ∧
          (∀ l, (l < length h)%nat → l ≠ lr → h1 !! l = h !! l))
    as (Hlt & Hne & Hdlt & Hsame).
  { destruct Hcase as [[Hown ->]|[-> ->]].
    - assert (child h lr (VRef lt)) as Hchild.
      { left. exists ps, lang. split; [done|]. by apply own_property_elem. }
      assert (reach h (resources m) lt) as Hrt.
      { rewrite Hroot. eapply reach_child; [exact Hchild|apply reach_here]. }
      split_and!.
      + eapply (reach_bounded (length h) h h);
          [apply agree_below_refl|exact Hstore|done].
      + intros ->. rewrite Hroot in Hstore.
        eapply (stringify_fuel_acyclic _ _ _ _ _ Hstore Hchild). apply reach_here.
      + intros l Hr ->. by apply (Hsep lt).
      + done.
    - rewrite length_insert, length_app. simpl. split_and!; [lia|lia| |].
      + intros l Hr%Hbound. lia.
      + intros l Hl Hnlr. rewrite list_lookup_insert_ne by done.
        by rewrite lookup_app_l. }
  assert (stringify h1 (VRef ld) = Some t) as Hdata1.
  { apply (stringify_fuel_enough (length h)).
    eapply stringify_fuel_reach_frame; [|exact Hdata].
    intros l Hr. apply Hsame; [by apply Hbound|].
    intros ->. apply (Hsep lr); [rewrite Hroot; apply reach_here|done]. }
  destruct (deep_copy_reads _ _ _ Hdata1)
    as (h2' & copy' & Hcopy' & Hparse & Hcopyt & Hpre & Hfresh).
  rewrite Hcopy in Hcopy'. injection Hcopy' as <- <-.
  set (h3 := heap_of (store mp)) in *.
  assert (truthy copy = true) as Htruthy.
  { pose proof (stringify_ref_truthy _ _ _ h1 Hdata1) as Ht. by rewrite Hparse in Ht. }
  destruct cacheEnabled.
  - assert (stringify h3 (VRef ld) = Some t) as Hdata3.
    { apply (stringify_fuel_enough (length h)).
      eapply stringify_fuel_reach_frame; [|exact Hdata].
      intros l Hr. pose proof (Hbound l Hr) as Hl.
      rewrite Hheap, list_lookup_insert_ne by exact (λ E, Hdlt l Hr (eq_sym E)).
      assert (l ≠ lr) as Hnlr.
      { intros ->. apply (Hsep lr); [rewrite Hroot; apply reach_here|done]. }
      rewrite <- (Hsame l Hl Hnlr).
      apply (agree_below_prefix _ _ Hpre).
      apply lookup_lt_is_Some. rewrite (Hsame l Hl Hnlr).
      by apply lookup_lt_is_Some. }
    destruct (deep_copy_reads _ _ _ Hdata3)
      as (h4 & c2 & Hc2 & Hparse2 & Hc2t & Hpre4 & _).
    rewrite Hc2 in Hsave. injection Hsave as <-.
    assert (truthy c2 = true) as Htruthy2.
    { pose proof (stringify_ref_truthy _ _ _ h3 Hdata3) as Ht.
      by rewrite Hparse2 in Ht. }
    destruct (memory_getResource_hit_reads true lang namespace
                (with_store
                   (with_cache (<[getCacheKey lang namespace := c2]> (cache (store mp)))
                      (with_heap h4 (store mp))) mp) c2 t)
      as (v & m2 & Hget & Hv & _).
    { unfold cached. simpl. by rewrite lookup_insert_eq, Htruthy2. }
    { done. }
    by exists v, m2.
  - injection Hsave as <-.
    assert (h3 !! lr = Some (HObject ps1)) as Hcell3.
    { rewrite Hheap, list_lookup_insert_ne by done.
      rewrite (agree_below_prefix _ _ Hpre lr); [done|]. by eapply lookup_lt_Some. }
    assert (h3 !! lt = Some (HObject (set_property namespace copy qs))) as Hcellt3.
    { rewrite Hheap. apply list_lookup_insert_eq. by eapply lookup_lt_Some. }
    assert (stringify h3 copy = Some t) as Hcopy3.
    { unfold stringify. rewrite Hheap, length_insert. rewrite <- Hheap.
      eapply stringify_fuel_reach_frame; [|exact Hcopyt].
      intros l Hr. rewrite Hheap. apply list_lookup_insert_ne.
      apply Hfresh in Hr. lia. }
    assert (loadResourceSync lang namespace mp =
              Some (inr (snd (parse t h3)),
                    with_store (with_heap (fst (parse t h3)) (store mp)) mp))
      as Hload.
    { unfold loadResourceSync, get_own. rewrite Hpl, Hpn, Hroot1. fold h3.
      rewrite Hcell3. simpl. rewrite Hown1. simpl. rewrite Hcellt3. simpl.
      rewrite own_property_set. simpl. rewrite Htruthy. simpl.
      unfold deep_copy. rewrite Hcopy3. by destruct (parse t h3). }
    destruct (memory_getResource_miss_reads false lang namespace mp _ _ t
                eq_refl Hload) as (v & m2 & Hget & Hv & _).
    { simpl. destruct (parse t h3) eqn:E. simpl. by eapply stringify_parse. }
    by exists v, m2.
Qed.

Lemma memory_save_then_get_witness :
  ∃ m1 t v m2,
    stringify (heap_of (store demo_memory_with_data.1)) (VRef 13) = Some t ∧
    memory_saveResource false "fr" "translation" (VRef 13) demo_memory_with_data.1
      = Some (inr (), m1) ∧
    memory_getResource false "fr" "translation" m1 = Some (inr v, m2) ∧
    stringify (heap_of (store m2)) v = Some t.
Proof.
  pose (m1 := match memory_saveResource false "fr" "translation" (VRef 13)
                      demo_memory_with_data.1 with
              | Some (_, m) => m
              | None => demo_memory
              end).
  exists m1, (JObject [("hello", JStr "Bonjour")]).
  destruct (memory_save_then_get false "fr" "translation" 13
              demo_memory_with_data.1 m1 (JObject [("hello", JStr "Bonjour")]))
    as (v & m2 & Hget & Hv).
  - vm_compute; reflexivity.
  - eexists. vm_compute; reflexivity.
  - intros l Hroot Hdata.
    assert (l < 13)%nat as Hl.
    { eapply (reach_bounded 13 (heap_of (store demo_memory)) _
                (resources demo_memory)); [|vm_compute; reflexivity|exact Hroot].
      intros i Hi. change (length (heap_of (store demo_memory))) with 13%nat in Hi.
      do 13 (destruct i as [|i]; [vm_compute; reflexivity|]). lia. }
    inversion Hdata as [|l0 ps k v l' Hc Hin Hr|l0 vs v l' Hc Hin Hr]; subst.
    + lia.
    + vm_compute in Hc. injection Hc as <-.
      apply list_elem_of_singleton in Hin. injection Hin as -> ->. inversion Hr.
    + vm_compute in Hc. discriminate.
  - vm_compute; reflexivity.
  - exists v, m2. split_and!; [vm_compute; reflexivity|vm_compute; reflexivity|done|done].
Defined.

(** ** Replacing the store *)

Lemma parse_props_keys fs : ∀ h h1 ps,
  parse_props fs h = (h1, ps) → map fst ps = map fst fs.
Proof.
  induction fs as [|[k t] fs IH]; intros h h1 ps; simpl.
  - by intros [= <- <-].
  - destruct (parse t h) as [ha v]. destruct (parse_props fs ha) as [hb qs] eqn:E.
    intros [= <- <-]. simpl. f_equal. by eapply IH.
Qed.

(** The property of the parsed object under a key is the value parsed from
    the document's property under that key. *)
Lemma parse_props_own fs : ∀ h h1 ps key t,
  parse_props fs h = (h1, ps) → property key fs = Some t →
  ∃ ha hb v, own_property key ps = Some v ∧ parse t ha = (hb, v) ∧
             h `prefix_of` ha ∧ hb `prefix_of` h1.
Proof.
  induction fs as [|[k t'] fs IH]; intros h h1 ps key t; simpl; [done|].
  destruct (parse t' h) as [ha v] eqn:Hp.
  destruct (parse_props fs ha) as [hb qs] eqn:E.
  intros [= <- <-]. simpl.
  assert (h `prefix_of` ha) as Hpre.
  { pose proof (parse_prefix t' h) as H. by rewrite Hp in H. }
  assert (ha `prefix_of` hb) as Hpre2.
  { pose proof (parse_props_prefix' fs ha) as H. by rewrite E in H. }
  destruct (String.eqb key k).
  - intros [= <-]. by exists h, ha, v.
  - intros Hprop. destruct (IH _ _ _ _ _ E Hprop) as (ha' & hb' & v' & ? & ? & ? & ?).
    exists ha', hb', v'. split_and!; try done. by etrans.
Qed.

(** The value parsed from an object document is a reference to a cell
    holding the parsed properties. *)
Lemma parse_object_cell fs h h1 v :
  parse (JObject fs) h = (h1, v) →
  ∃ l ps h', v = VRef l ∧ h1 !! l = Some (HObject ps) ∧
             parse_props fs h = (h', ps) ∧ h' `prefix_of` h1.
Proof.
  rewrite parse_object. destruct (parse_props fs h) as [h' ps] eqn:E.
  intros [= <- <-]. exists (length h'), ps, h'. split_and!; try done.
  - by rewrite lookup_app_r, Nat.sub_diag by lia.
  - by apply prefix_app_r.
Qed.

Lemma loadResourceSync_found lang namespace m lr ps ll qs vx t :
  plain_name lang = true → plain_name namespace = true →
  resources m = VRef lr →
  heap_of (store m) !! lr = Some (HObject ps) →
  own_property lang ps = Some (VRef ll) →
  heap_of (store m) !! ll = Some (HObject qs) →
  own_property namespace qs = Some vx →
  truthy vx = true →
  stringify (heap_of (store m)) vx = Some t →
  loadResourceSync lang namespace m =
    Some (inr (snd (parse t (heap_of (store m)))),
          with_store (with_heap (fst (parse t (heap_of (store m)))) (store m)) m).
Proof.
  intros Hpl Hpn Hroot Hcell Hown Hcellt Hownt Htruthy Hs.
  unfold loadResourceSync, get_own. rewrite Hpl, Hpn, Hroot, Hcell. simpl.
  rewrite Hown. simpl. rewrite Hcellt. simpl. rewrite Hownt. simpl.
  rewrite Htruthy. simpl. unfold deep_copy. rewrite Hs.
  by destruct (parse t (heap_of (store m))).
Qed.

(** X30: After [setInitialResources] the adapter serves the new
    resources and nothing else: it lists the languages of the document it
    was given, exports that document, and answers [getResource] with the
    document's entry for the language and namespace, whatever the store
    and the cache held before. *)
Theorem setInitialResources_then_get cacheEnabled initial m langs lang namespace nss r :
  stringify (heap_of (store m)) initial = Some (JObject langs) →
  plain_name lang = true → plain_name namespace = true →
  property lang langs = Some (JObject nss) →
  property namespace nss = Some (JObject r) →
  ∃ m1,
    setInitialResources initial m = inr m1 ∧
    memory_getLanguages m1 = Some (map fst langs) ∧
    (∃ e m3, exportResources m1 = (inr e, m3) ∧
             stringify (heap_of (store m3)) e = Some (JObject langs)) ∧
    ∃ v m2,
      memory_getResource cacheEnabled lang namespace m1 = Some (inr v, m2) ∧
      stringify (heap_of (store m2)) v = Some (JObject r).
Proof.
  intros Hs Hpl Hpn Hlang Hns.
  destruct (deep_copy_reads _ _ _ Hs) as (h1 & root & Hcopy & Hparse & Hroot & Hpre & _).
  unfold setInitialResources. rewrite Hcopy.
  eexists. split; [reflexivity|].
  set (m1 := {| store := clearCache None None (with_heap h1 (store m));
                resources := root |}).
  destruct (parse_object_cell _ _ _ _ Hparse) as (lr & ps & h' & -> & Hcell & Hprops & Hpre').
  split_and!.
  - rewrite (memory_getLanguages_keys m1 lr ps eq_refl Hcell).
    f_equal. by eapply parse_props_keys.
  - unfold exportResources.
    destruct (deep_copy_reads (VRef lr) h1 _ Hroot) as (h3 & e & He & _ & Het & _).
    change (deep_copy (resources m1) (heap_of (store m1))) with (deep_copy (VRef lr) h1).
    rewrite He. by eexists _, _.
  - destruct (parse_props_own _ _ _ _ _ _ Hprops Hlang)
      as (ha & hb & vl & Hown & Hparsel & _ & Hpreb).
    destruct (parse_object_cell _ _ _ _ Hparsel)
      as (ll & qs & hq & -> & Hcelll & Hpropsl & _).
    destruct (parse_props_own _ _ _ _ _ _ Hpropsl Hns)
      as (hc & hd & vx & Hownx & Hparsex & _ & Hpred).
    assert (hd `prefix_of` hb) as Hdb.
    { etrans; [exact Hpred|].
      pose proof (parse_object_cell _ _ _ _ Hparsel) as (? & ? & hq' & _ & _ & E & Hq).
      rewrite Hpropsl in E. by injection E as <- <-. }
    assert (hb `prefix_of` h1) as Hb1 by by etrans.
    assert (stringify h1 vx = Some (JObject r)) as Hx.
    { eapply stringify_prefix; [|by eapply stringify_parse]. by etrans. }
    assert (truthy vx = true) as Htruthy.
    { destruct (parse_object_cell _ _ _ _ Hparsex) as (? & ? & ? & -> & _). done. }
    pose proof (loadResourceSync_found lang namespace m1 lr ps ll qs vx (JObject r)
                  Hpl Hpn eq_refl Hcell Hown
                  (prefix_lookup_Some _ _ _ _ Hcelll Hb1) Hownx Htruthy Hx) as Hload.
    destruct (memory_getResource_miss_reads cacheEnabled lang namespace m1 _ _ (JObject r)
                (getCacheKey_miss_empty cacheEnabled _ (store m1) eq_refl) Hload)
      as (v & m2 & Hget & Hv & _).
    { change (stringify (parse (JObject r) h1).1 (parse (JObject r) h1).2
              = Some (JObject r)).
      destruct (parse (JObject r) h1) eqn:E. by eapply stringify_parse. }
    by exists v, m2.
Qed.

Lemma setInitialResources_then_get_witness :
  ∃ m1,
    setInitialResources (VRef 5) demo_memory = inr m1 ∧
    memory_getLanguages m1 = Some ["en"; "fr"] ∧
    (∃ e m3, exportResources m1 = (inr e, m3) ∧
             stringify (heap_of (store m3)) e = Some demo_resources) ∧
    ∃ v m2,
      memory_getResource true "fr" "common" m1 = Some (inr v, m2) ∧
      stringify (heap_of (store m2)) v = Some (JObject [("yes", JStr "Oui")]).
Proof.
  apply (setInitialResources_then_get true (VRef 5) demo_memory
           [("en", JObject [("translation", JObject [("hello", JStr "Hello")]);
                            ("common", JObject [("yes", JStr "Yes")])]);
            ("fr", JObject [("common", JObject [("yes", JStr "Oui")])])]
           "fr" "common"
           [("common", JObject [("yes", JStr "Oui")])] [("yes", JStr "Oui")]).
  - vm_compute; reflexivity.
  - reflexivity.
  - reflexivity.
  - reflexivity.
  - reflexivity.
Defined.
